(** * img-similarity-cluster: near-duplicate image clustering

    A shallow embedding of the programs of the repository:

    - [Cluster]: img-similarity-cluster.cpp, threaded revision (hash list in a
      vector, [calculate_similar_pairs] run by a pool of workers);
    - [ClusterSeq]: img-similarity-cluster.cpp, sequential-comparison revision
      (hash values in a map, all pairwise deltas, unique images);
    - [ImgSearch]: img-search.cpp, the point query;
    - [ViewSimilar]: view-similar.cpp, the viewer for the lines that
      img-similarity-cluster -l writes.

    OpenCV is outside the repository: image decoding followed by
    [PHash::compute] is the parameter [imread_phash], [PHash::compare] is the
    parameter [compare], and [std::stod] is the parameter [stod].  A [double]
    is a rational number here: only the order of distances and thresholds is
    used by the code.  An id is an [unsigned long] index into the file list; it
    never exceeds the length of that list, so ids are natural numbers.

    The C library and the file system are outside the repository as well: a
    command line is given by what the calls of [getopt] return, a directory
    by what the iterators of [std::filesystem] yield ([filesystem]), the
    standard input by its lines, and the keyboard of the viewer by what the
    calls of [cv::waitKey] return. *)

From stdpp Require Import base option numbers list sorting gmap sets strings.
From stdpp Require Import pretty.
From Stdlib Require Import QArith.
From Stdlib Require Import Ascii.

Local Open Scope nat_scope.

(** ** Results of code that may throw *)

(** [Throws]: a C++ exception left the function ([std::out_of_range] from
    [at]).  [OutOfFuel]: the recursion budget of the model ran out, which no
    execution of the program corresponds to. *)
Inductive outcome (A : Type) : Type :=
| Returns (a : A)
| Throws
| OutOfFuel.
Global Arguments Returns {A} a.
Global Arguments Throws {A}.
Global Arguments OutOfFuel {A}.

Global Instance outcome_ret : MRet outcome := λ A a, Returns a.
Global Instance outcome_bind : MBind outcome := λ A B f m,
  match m with
  | Returns a => f a
  | Throws => Throws
  | OutOfFuel => OutOfFuel
  end.

(** ** Iteration order of [std::set] and [std::map] *)

(** A range-for over a [std::set<unsigned long>] visits the elements in
    ascending order. *)
Definition asc (s : gset nat) : list nat := merge_sort (≤) (elements s).

(** A range-for over a [std::map<unsigned long, V>] visits the entries in
    ascending key order. *)
Definition asc_items {V} (m : gmap nat V) : list (nat * V) :=
  omap (λ k, (k,.) <$> m !! k) (asc (dom m)).

(** Every id that occurs in an adjacency map, as a key or as a neighbour. *)
Definition graph_ids (g : gmap nat (gset nat)) : gset nat :=
  dom g ∪ ⋃ (snd <$> map_to_list g).

(** ** Worker pools *)

Section Schedule.
Context {A : Type}.

(** Each worker of a phase performs a fixed sequence of atomic steps on the
    shared container.  [interleaving ws tr]: [tr] is an order in which the
    steps of the workers [ws] can take effect. *)
Inductive interleaving : list (list A) → list A → Prop :=
| interleaving_done ws :
    Forall (λ w, w = []) ws → interleaving ws []
| interleaving_step ws t x w tr :
    ws !! t = Some (x :: w) →
    interleaving (<[t := w]> ws) tr →
    interleaving ws (x :: tr).

(** The scheduler as an oracle: [sched] names the worker that moves next (a
    worker that has finished, or that does not exist, makes no move); when
    the oracle is exhausted the remaining steps run worker by worker, which
    is the join loop of [main]. *)
Fixpoint schedule (ws : list (list A)) (sched : list nat) : list A :=
  match sched with
  | [] => concat ws
  | t :: sched =>
      match ws !! t with
      | Some (x :: w) => x :: schedule (<[t := w]> ws) sched
      | _ => schedule ws sched
      end
  end.
End Schedule.

(** [num_threads] of all three programs. *)
Definition num_threads_of (hardware_concurrency : nat) : nat :=
  if decide (hardware_concurrency ≠ 0) then hardware_concurrency else 1.

(** ** Code that the programs have in common *)

(** The loop "unify temp_cluster with existing clusters", the same in both
    revisions of img-similarity-cluster.cpp: the first cluster that shares an
    element with [temp_cluster] absorbs it, and the loop breaks.  [None] when
    nothing was merged. *)
Fixpoint unify (temp_cluster : gset nat) (image_clusters : list (gset nat))
    : option (list (gset nat)) :=
  match image_clusters with
  | [] => None
  | j :: rest =>
      if decide (j ## temp_cluster)
      then (j ::.) <$> unify temp_cluster rest
      else Some ((j ∪ temp_cluster) :: rest)
  end.

(** The file name of every member of a set of ids, ascending.  The threaded
    img-similarity-cluster reads [file_list.at(j)], which throws out of range;
    the other two programs read [file_list[j]] unchecked.  No id that the
    programs print is out of range ([threaded_main_Returns],
    [seq_main_Returns], [search_main_query]). *)
Definition file_names (file_list : list string) (c : gset nat)
    : outcome (list string) :=
  match mapM (λ j, file_list !! j) (asc c) with
  | Some out => Returns out
  | None => Throws
  end.

(** The tab character that separates the names on a line. *)
Definition tab : string := String "009"%char "".

(** [std::quoted], which [operator<<] applies to a [fs::path]: the text
    between double quotes, with a backslash before every double quote and
    every backslash. *)
Fixpoint escaped (s : string) : string :=
  match s with
  | EmptyString => EmptyString
  | String c s =>
      if decide (c = "034"%char ∨ c = "092"%char)
      then String "092"%char (String c (escaped s))
      else String c (escaped s)
  end.

Definition quoted (s : string) : string :=
  String "034"%char (escaped s +:+ String "034"%char "").

(** The answers of the file system: [fs::exists], [fs::is_directory], the
    paths that [fs::directory_iterator] and
    [fs::recursive_directory_iterator] yield for a directory, in their order,
    and [fs::is_regular_file].  A file system that fails (a
    [filesystem_error]) is not part of the model. *)
Record filesystem := Filesystem {
  fs_exists : string → bool;
  fs_is_directory : string → bool;
  directory_iterator : string → list string;
  recursive_directory_iterator : string → list string;
  is_regular_file : string → bool
}.

(** "load filenames": the regular files of the directory, in the order of
    the iteration. *)
Definition load_filenames (fs : filesystem) (be_recursive : bool)
    (directory_path : string) : list string :=
  if be_recursive
  then filter (λ p, is_regular_file fs p)
         (recursive_directory_iterator fs directory_path)
  else filter (λ p, is_regular_file fs p)
         (directory_iterator fs directory_path).

(** [calculate_hash_values] of img-search.cpp and of the sequential revision
    of img-similarity-cluster.cpp, and its critical section. *)
Section MapHasher.
Variable Mat : Type.
Variable imread_phash : string → option Mat.

(** The insertions of worker [thread_id], in order. *)
Definition calculate_hash_values (file_list : list string)
    (thread_id num_threads : nat) : list (nat * Mat) :=
  flat_map (λ i,
    if decide (i mod num_threads ≠ thread_id) then []
    else match file_list !! i with
         | None => []
         | Some f =>
             match imread_phash f with
             | None => []
             | Some current_hash => [(i, current_hash)]
             end
         end)
    (seq 0 (length file_list)).

(** [hash_list.insert(std::pair(i, current_hash))]: an existing entry is
    kept. *)
Definition insert_hash (hash_list : gmap nat Mat) (e : nat * Mat)
    : gmap nat Mat :=
  match hash_list !! e.1 with
  | Some _ => hash_list
  | None => <[e.1 := e.2]> hash_list
  end.

(** The threads that [main] starts, and the map once they are joined. *)
Definition hash_workers (file_list : list string) (num_threads : nat)
    : list (list (nat * Mat)) :=
  (λ t, calculate_hash_values file_list t num_threads) <$> seq 0 num_threads.

Definition hash_values_of (file_list : list string) (num_threads : nat)
    (sched : list nat) : gmap nat Mat :=
  foldl insert_hash ∅ (schedule (hash_workers file_list num_threads) sched).
End MapHasher.

(** ** img-similarity-cluster.cpp, threaded revision *)

Module Cluster.

(** [build_temp_cluster]: depth-first search along the stored adjacency.
    [fuel] bounds the depth of the recursion. *)
Fixpoint build_temp_cluster (fuel : nat)
    (image_similarities : gmap nat (gset nat))
    (temp_cluster : gset nat) (start : nat) : outcome (gset nat) :=
  match fuel with
  | 0 => OutOfFuel
  | S fuel =>
      match image_similarities !! start with
      | None => Returns temp_cluster
      | Some adj =>
          foldl (λ acc i,
                   temp_cluster ← acc;
                   if decide (i ∈ temp_cluster) then Returns temp_cluster
                   else build_temp_cluster fuel image_similarities
                          ({[i]} ∪ temp_cluster) i)
                (Returns temp_cluster) (asc adj)
      end
  end.

(** One iteration of the loop over [image_similarities] in [main]. *)
Definition cluster_step (fuel : nat)
    (image_similarities : gmap nat (gset nat))
    (image_clusters : list (gset nat)) (i : nat * gset nat)
    : outcome (list (gset nat)) :=
  if decide (i.2 = ∅) then Returns image_clusters
  else
    temp_cluster ← build_temp_cluster fuel image_similarities {[i.1]} i.1;
    match unify temp_cluster image_clusters with
    | Some merged => Returns merged
    | None => Returns (image_clusters ++ [temp_cluster])
    end.

(** The loop "get image clusters (graph components)" of [main].  The branch
    for an empty neighbour set also prints a line "ok1"; no key of the graph
    has an empty set ([image_similarities_of_is_Some]).  The depth of the
    search never exceeds the number of ids of the graph
    ([build_temp_cluster_visited]), which is the budget given here. *)
Definition image_clusters_of (image_similarities : gmap nat (gset nat))
    : outcome (list (gset nat)) :=
  foldl (λ acc i,
           image_clusters ← acc;
           cluster_step (S (size (graph_ids image_similarities)))
             image_similarities image_clusters i)
        (Returns []) (asc_items image_similarities).

(** The critical section of [calculate_similar_pairs]. *)
Definition insert_edge (image_similarities : gmap nat (gset nat))
    (e : nat * nat) : gmap nat (gset nat) :=
  let m :=
    if decide (is_Some (image_similarities !! e.1)) then image_similarities
    else <[e.1 := ∅]> image_similarities in
  alter (λ s, {[e.2]} ∪ s) e.1 m.

(** "print image clusters": the members of every cluster, cluster by
    cluster (one per line and tab-separated with [-l]). *)
Definition print_clusters (file_list : list string)
    (image_clusters : list (gset nat)) : outcome (list (list string)) :=
  foldr (λ c acc, names ← file_names file_list c; rest ← acc;
                  Returns (names :: rest))
        (Returns []) image_clusters.

Section Hasher.
(** A hash value: a [cv::Mat] that has data. *)
Variable Mat : Type.
(** [cv::imread] followed by [PHash::compute]; [None] when the image has no
    data. *)
Variable imread_phash : string → option Mat.
Variable compare : Mat → Mat → Q.
(** [std::stod]; [None] when it throws. *)
Variable stod : string → option Q.

(** The stores [hash_list.at(i) = ...] of worker [thread_id], in order. *)
Definition calculate_hash_values (file_list : list string)
    (thread_id num_threads : nat) : list (nat * option Mat) :=
  flat_map (λ i,
    if decide (i mod num_threads ≠ thread_id) then []
    else match file_list !! i with
         | None => []
         | Some f =>
             match imread_phash f with
             | None => [(i, None)]
             | Some current_hash => [(i, Some current_hash)]
             end
         end)
    (seq 0 (length file_list)).

(** [hash_list.at(i) = v]; [i] is below the size of the vector. *)
Definition store (hash_list : list (option Mat)) (w : nat * option Mat)
    : list (option Mat) :=
  <[w.1 := w.2]> hash_list.

(** The edges that worker [thread_id] inserts, in order. *)
Definition calculate_similar_pairs (hash_list : list (option Mat))
    (threshold : Q) (thread_id num_threads : nat) : list (nat * nat) :=
  flat_map (λ i,
    if decide (i mod num_threads ≠ thread_id) then []
    else match hash_list !! i with
         | Some (Some hi) =>
             flat_map (λ j,
               match hash_list !! j with
               | Some (Some hj) =>
                   if Qle_bool (compare hi hj) threshold then [(i, j)]
                   else []
               | _ => []
               end)
               (seq (i + 1) (length hash_list - (i + 1)))
         | _ => []
         end)
    (seq 0 (length hash_list)).

(** "this is the threshold, under which images are considered similar" *)
Definition threshold_of (flag_threshold : bool) (string_threshold : string)
    : Q :=
  if flag_threshold then
    match stod string_threshold with
    | Some t => t
    | None => (2 # 10)%Q
    end
  else (2 # 10)%Q.

(** The threads that [main] starts for the two phases. *)
Definition hash_workers (file_list : list string) (num_threads : nat)
    : list (list (nat * option Mat)) :=
  (λ t, calculate_hash_values file_list t num_threads) <$> seq 0 num_threads.

Definition pair_workers (hash_list : list (option Mat)) (threshold : Q)
    (num_threads : nat) : list (list (nat * nat)) :=
  (λ t, calculate_similar_pairs hash_list threshold t num_threads)
    <$> seq 0 num_threads.

(** "calculate perceptual hash for each file": the vector once every
    thread is joined. *)
Definition hash_phase (file_list : list string) (num_threads : nat)
    (sched : list nat) : list (option Mat) :=
  foldl store (replicate (length file_list) None)
    (schedule (hash_workers file_list num_threads) sched).

(** "create map of images to their similar images": the map once every
    thread is joined. *)
Definition pair_phase (hash_list : list (option Mat)) (threshold : Q)
    (num_threads : nat) (sched : list nat) : gmap nat (gset nat) :=
  foldl insert_edge ∅
    (schedule (pair_workers hash_list threshold num_threads) sched).

(** The similarity graph that [main] builds. *)
Definition image_similarities_of (threshold : Q) (num_threads : nat)
    (file_list : list string) (sched_hash sched_pairs : list nat)
    : gmap nat (gset nat) :=
  pair_phase (hash_phase file_list num_threads sched_hash) threshold
    num_threads sched_pairs.

(** The clusters that [main] builds, as sets of ids. *)
Definition run (threshold : Q) (num_threads : nat)
    (file_list : list string) (sched_hash sched_pairs : list nat)
    : outcome (list (gset nat)) :=
  image_clusters_of
    (image_similarities_of threshold num_threads file_list
       sched_hash sched_pairs).

(** [main], from the parsed options and the list of file names on: the
    printed clusters. *)
Definition main (flag_threshold : bool) (string_threshold : string)
    (hardware_concurrency : nat) (file_list : list string)
    (sched_hash sched_pairs : list nat) : outcome (list (list string)) :=
  image_clusters ←
    run (threshold_of flag_threshold string_threshold)
      (num_threads_of hardware_concurrency) file_list
      sched_hash sched_pairs;
  print_clusters file_list image_clusters.
End Hasher.

(** [print_help()] *)
Definition print_help : list string :=
  [ "Finds groups of similar images."; "";
    "img-similarity-cluster usage:"; "";
    "-h" +:+ tab +:+ "show this message";
    "-d=arg" +:+ tab +:+ "directory of images (- for stdin)";
    "-r" +:+ tab +:+ "load images recursively";
    "-t=arg" +:+ tab +:+ "threshold for similarity";
    "-l" +:+ tab +:+ "print all similar images on one line and nothing else" ].

(** The variables that the loop over the options sets. *)
Record options := Options {
  be_recursive : bool;
  one_line : bool;
  flag_directory : bool;
  flag_threshold : bool;
  string_threshold : string;
  string_directory : string
}.

Definition no_options : options := Options false false false false "" "".

(** The loop "check arguments".  [opts] lists what the successive calls
    [getopt(argc, argv, "hrd:t:l")] return before -1, each with the [optarg]
    of that call.  [None]: the option -h was met, and [main] prints the help
    and returns. *)
Fixpoint check_arguments (o : options) (opts : list (ascii * string))
    : option options :=
  match opts with
  | [] => Some o
  | opt :: opts =>
      let c := opt.1 in
      let optarg := opt.2 in
      if decide (c = "h"%char) then None
      else if decide (c = "r"%char) then
        check_arguments
          (Options true (one_line o) (flag_directory o) (flag_threshold o)
             (string_threshold o) (string_directory o)) opts
      else if decide (c = "d"%char) then
        check_arguments
          (Options (be_recursive o) (one_line o) true (flag_threshold o)
             (string_threshold o) optarg) opts
      else if decide (c = "t"%char) then
        check_arguments
          (Options (be_recursive o) (one_line o) (flag_directory o) true
             optarg (string_directory o)) opts
      else if decide (c = "l"%char) then
        check_arguments
          (Options (be_recursive o) true (flag_directory o) (flag_threshold o)
             (string_threshold o) (string_directory o)) opts
      else check_arguments o opts
  end.

(** "get list of filenames": the lines of the standard input for the
    directory "-", the regular files of the directory otherwise; [None] when
    the path does not name a directory. *)
Definition file_list_of (fs : filesystem) (o : options) (stdin : list string)
    : option (list string) :=
  if decide (string_directory o = "-") then Some stdin
  else if negb (fs_exists fs (string_directory o)
                && fs_is_directory fs (string_directory o)) then None
  else Some (load_filenames fs (be_recursive o) (string_directory o)).

(** What the loop "get image clusters" writes: a line "ok1" for every entry
    of the map that has an empty set. *)
Definition ok1_lines (image_similarities : gmap nat (gset nat))
    : list string :=
  flat_map (λ i : nat * gset nat, if decide (i.2 = ∅) then ["ok1"] else [])
    (asc_items image_similarities).

(** The lines of the loop "print image clusters", from the names of the
    members of every cluster. *)
Definition cluster_lines (one_line : bool) (printed : list (list string))
    : list string :=
  concat (imap (λ i names,
                  if one_line
                  then [foldr (λ name line, name +:+ tab +:+ line) "" names]
                  else ("image cluster " +:+ pretty i +:+ ":") :: names)
               printed).

Section Program.
Variable Mat : Type.
Variable imread_phash : string → option Mat.
Variable compare : Mat → Mat → Q.
Variable stod : string → option Q.
Variable fs : filesystem.

(** [main] as a whole: the lines that it writes to the standard output. *)
Definition main_stdout (opts : list (ascii * string)) (stdin : list string)
    (hardware_concurrency : nat) (sched_hash sched_pairs : list nat)
    : outcome (list string) :=
  match check_arguments no_options opts with
  | None => Returns print_help
  | Some o =>
      if negb (flag_directory o) then Returns ["Error: missing argument -d"]
      else
        let threshold :=
          threshold_of stod (flag_threshold o) (string_threshold o) in
        let num_threads := num_threads_of hardware_concurrency in
        match file_list_of fs o stdin with
        | None =>
            Returns ["Error: Couldn't open " +:+ quoted (string_directory o)]
        | Some file_list =>
            let image_similarities :=
              image_similarities_of Mat imread_phash compare threshold
                num_threads file_list sched_hash sched_pairs in
            image_clusters ← image_clusters_of image_similarities;
            printed ← print_clusters file_list image_clusters;
            Returns
              ((if one_line o then []
                else ["Filelist created, " +:+ pretty (length file_list)
                        +:+ " files.";
                      "Finished hash calculations.";
                      "Adjacency lists created."])
               ++ ok1_lines image_similarities
               ++ cluster_lines (one_line o) printed)
        end
  end.
End Program.

End Cluster.

(** ** img-similarity-cluster.cpp, sequential-comparison revision *)

Module ClusterSeq.

(** [build_temp_cluster]; [image_similarities.at(start)] throws when [start]
    is not a key. *)
Fixpoint build_temp_cluster (fuel : nat)
    (image_similarities : gmap nat (gset nat))
    (temp_cluster : gset nat) (start : nat) : outcome (gset nat) :=
  match fuel with
  | 0 => OutOfFuel
  | S fuel =>
      match image_similarities !! start with
      | None => Throws
      | Some adj =>
          foldl (λ acc i,
                   temp_cluster ← acc;
                   if decide (i ∈ temp_cluster) then Returns temp_cluster
                   else build_temp_cluster fuel image_similarities
                          ({[i]} ∪ temp_cluster) i)
                (Returns temp_cluster) (asc adj)
      end
  end.

(** One iteration of the loop over [image_similarities] in [main]; the state
    is [image_clusters] and [unique_images]. *)
Definition cluster_step (fuel : nat)
    (image_similarities : gmap nat (gset nat))
    (st : list (gset nat) * gset nat) (i : nat * gset nat)
    : outcome (list (gset nat) * gset nat) :=
  if decide (i.2 = ∅) then Returns (st.1, {[i.1]} ∪ st.2)
  else
    temp_cluster ← build_temp_cluster fuel image_similarities {[i.1]} i.1;
    match unify temp_cluster st.1 with
    | Some merged => Returns (merged, st.2)
    | None => Returns (st.1 ++ [temp_cluster], st.2)
    end.

(** The loop "get image clusters (graph components) and unique images". *)
Definition image_clusters_of (image_similarities : gmap nat (gset nat))
    : outcome (list (gset nat) * gset nat) :=
  foldl (λ acc i,
           st ← acc;
           cluster_step (S (size (graph_ids image_similarities)))
             image_similarities st i)
        (Returns ([], ∅)) (asc_items image_similarities).

(** [image_similarities[a].emplace(b)] *)
Definition add_neighbour (a b : nat)
    (image_similarities : gmap nat (gset nat)) : gmap nat (gset nat) :=
  <[a := {[b]} ∪ default ∅ (image_similarities !! a)]> image_similarities.

(** What [main] prints after the progress messages. *)
Record report := Report {
  clusters : list (list string);
  unique : list string
}.

Section Hasher.
Variable Mat : Type.
Variable imread_phash : string → option Mat.
Variable compare : Mat → Mat → Q.
Variable stod : string → option Q.

(** [double threshold = 2.0], replaced by the argument of [-t] unless
    [std::stod] throws. *)
Definition threshold_of (flag_threshold : bool) (string_threshold : string)
    : Q :=
  if flag_threshold then
    match stod string_threshold with
    | Some t => t
    | None => 2%Q
    end
  else 2%Q.

(** "create a map of all unique file pairs to their hash difference": the
    entries in the order in which the two nested loops create them.  The
    keys are created in strictly ascending lexicographic order, which is
    the order in which the map is read afterwards. *)
Fixpoint image_deltas_of (hashes : list (nat * Mat))
    : list ((nat * nat) * Q) :=
  match hashes with
  | [] => []
  | it1 :: rest =>
      ((λ it2, ((it1.1, it2.1), compare it1.2 it2.2)) <$> rest)
        ++ image_deltas_of rest
  end.

(** "create map of images to their similar images (adjacent vertices in
    the graph)" *)
Definition image_similarities_from (img_hash_values : gmap nat Mat)
    (threshold : Q) : gmap nat (gset nat) :=
  let filled :=
    foldl (λ m i, <[i.1 := ∅]> m) ∅ (asc_items img_hash_values) in
  foldl (λ m i,
           if Qle_bool i.2 threshold
           then add_neighbour i.1.2 i.1.1 (add_neighbour i.1.1 i.1.2 m)
           else m)
        filled (image_deltas_of (asc_items img_hash_values)).

(** The similarity graph that [main] builds. *)
Definition image_similarities_of (threshold : Q) (num_threads : nat)
    (file_list : list string) (sched : list nat) : gmap nat (gset nat) :=
  image_similarities_from
    (hash_values_of Mat imread_phash file_list num_threads sched)
    threshold.

(** The clusters and the unique images that [main] builds, as ids. *)
Definition run (threshold : Q) (num_threads : nat)
    (file_list : list string) (sched : list nat)
    : outcome (list (gset nat) * gset nat) :=
  image_clusters_of
    (image_similarities_of threshold num_threads file_list sched).

(** "print image clusters" *)
Definition print_clusters (file_list : list string)
    (image_clusters : list (gset nat)) : outcome (list (list string)) :=
  foldr (λ c acc, names ← file_names file_list c; rest ← acc;
                  Returns (names :: rest))
        (Returns []) image_clusters.

(** [main], from the parsed options and the list of file names on. *)
Definition main (show_unique flag_threshold : bool)
    (string_threshold : string) (hardware_concurrency : nat)
    (file_list : list string) (sched : list nat) : outcome report :=
  st ← run (threshold_of flag_threshold string_threshold)
         (num_threads_of hardware_concurrency) file_list sched;
  cs ← print_clusters file_list st.1;
  us ← (if show_unique then file_names file_list st.2 else Returns []);
  Returns (Report cs us).
End Hasher.

(** [print_help()] *)
Definition print_help : list string :=
  [ "img-similarity-cluster usage:";
    "-h" +:+ tab +:+ "show this message";
    "-d=arg" +:+ tab +:+ "directory of images";
    "-r" +:+ tab +:+ "load images recursively";
    "-t=arg" +:+ tab +:+ "threshold for similarity";
    "-u" +:+ tab +:+ "show unique images" ].

(** The variables that the loop over the options sets. *)
Record options := Options {
  be_recursive : bool;
  show_unique : bool;
  flag_directory : bool;
  flag_threshold : bool;
  string_threshold : string;
  string_directory : string
}.

Definition no_options : options := Options false false false false "" "".

(** The loop "check arguments" over [getopt(argc, argv, "hrud:t:")]; [None]
    when the option -h was met. *)
Fixpoint check_arguments (o : options) (opts : list (ascii * string))
    : option options :=
  match opts with
  | [] => Some o
  | opt :: opts =>
      let c := opt.1 in
      let optarg := opt.2 in
      if decide (c = "h"%char) then None
      else if decide (c = "r"%char) then
        check_arguments
          (Options true (show_unique o) (flag_directory o) (flag_threshold o)
             (string_threshold o) (string_directory o)) opts
      else if decide (c = "u"%char) then
        check_arguments
          (Options (be_recursive o) true (flag_directory o) (flag_threshold o)
             (string_threshold o) (string_directory o)) opts
      else if decide (c = "d"%char) then
        check_arguments
          (Options (be_recursive o) (show_unique o) true (flag_threshold o)
             (string_threshold o) optarg) opts
      else if decide (c = "t"%char) then
        check_arguments
          (Options (be_recursive o) (show_unique o) (flag_directory o) true
             optarg (string_directory o)) opts
      else check_arguments o opts
  end.

(** "get list of filenames"; [None] when the path does not name a
    directory. *)
Definition file_list_of (fs : filesystem) (o : options)
    : option (list string) :=
  if negb (fs_exists fs (string_directory o)
           && fs_is_directory fs (string_directory o)) then None
  else Some (load_filenames fs (be_recursive o) (string_directory o)).

(** The lines of the loop "print image clusters". *)
Definition cluster_lines (printed : list (list string)) : list string :=
  concat (imap (λ i names, ("image cluster " +:+ pretty i +:+ ":") :: names)
               printed).

Section Program.
Variable Mat : Type.
Variable imread_phash : string → option Mat.
Variable compare : Mat → Mat → Q.
Variable stod : string → option Q.
Variable fs : filesystem.

(** [image_deltas.size()] once the two nested loops have assigned every
    entry. *)
Definition image_deltas_size (img_hash_values : gmap nat Mat) : nat :=
  size (foldl (λ (image_deltas : gmap (nat * nat) Q) i,
                 <[i.1 := i.2]> image_deltas)
              ∅ (image_deltas_of Mat compare (asc_items img_hash_values))).

(** [main] as a whole: the lines that it writes to the standard output. *)
Definition main_stdout (opts : list (ascii * string))
    (hardware_concurrency : nat) (sched : list nat)
    : outcome (list string) :=
  match check_arguments no_options opts with
  | None => Returns print_help
  | Some o =>
      if negb (flag_directory o) then Returns ["Error: missing argument -d"]
      else
        let threshold :=
          threshold_of stod (flag_threshold o) (string_threshold o) in
        match file_list_of fs o with
        | None =>
            Returns ["Error: Couldn't open " +:+ quoted (string_directory o)]
        | Some file_list =>
            let num_threads := num_threads_of hardware_concurrency in
            let img_hash_values :=
              hash_values_of Mat imread_phash file_list num_threads sched in
            let image_similarities :=
              image_similarities_from Mat compare img_hash_values threshold in
            st ← image_clusters_of image_similarities;
            printed ← print_clusters file_list st.1;
            us ← (if show_unique o then file_names file_list st.2
                  else Returns []);
            Returns
              (["Filelist created, " +:+ pretty (length file_list)
                  +:+ " files.";
                "Finished hash calculation.";
                "Hash distances calculated, "
                  +:+ pretty (image_deltas_size img_hash_values)
                  +:+ " image pairs.";
                "Adjacency lists created."]
               ++ cluster_lines printed
               ++ (if show_unique o then "unique images:" :: us else []))
        end
  end.
End Program.

End ClusterSeq.

(** ** img-search.cpp *)

Module ImgSearch.

Definition print_help : list string :=
  [ "img-search usage:"; "";
    "img-search [files...]";
    "img-search -t [threshold] [files...]";
    "img-search -h"; "";
    "The filenames for comparison are read from stdin." ].

Section Hasher.
Variable Mat : Type.
Variable imread_phash : string → option Mat.
Variable compare : Mat → Mat → Q.
Variable stod : string → option Q.

(** "this is the threshold under which images are considered similar",
    together with [skip_argv]. *)
Definition threshold_of (argv : list string) : Q * nat :=
  if decide (3 ≤ length argv ∧ argv !! 1 = Some "-t") then
    (match argv !! 2 ≫= stod with
     | Some t => t
     | None => 2%Q
     end, 3)
  else (2%Q, 1).

(** "check for similar images": the two nested loops. *)
Definition results_of (img_hash_values search_hash_values : gmap nat Mat)
    (threshold : Q) : gset nat :=
  foldl (λ results it1,
           foldl (λ results it2,
                    if Qle_bool (compare it1.2 it2.2) threshold
                    then {[it1.1]} ∪ results
                    else results)
                 results (asc_items search_hash_values))
        ∅ (asc_items img_hash_values).

(** [main]: the lines written to the standard output, from the arguments
    and the lines of the standard input.  (When [std::stod] throws, a
    diagnostic goes to the standard error stream.) *)
Definition main (argv stdin : list string) (hardware_concurrency : nat)
    (sched : list nat) : outcome (list string) :=
  if decide (length argv = 1 ∨ (1 ≤ length argv ∧ argv !! 1 = Some "-h"))
  then Returns print_help
  else
    let '(threshold, skip_argv) := threshold_of argv in
    let search_list := drop skip_argv argv in
    let search_hash_values :=
      foldl (insert_hash Mat) ∅
        (calculate_hash_values Mat imread_phash search_list 0 1) in
    let file_list := stdin in
    let img_hash_values :=
      hash_values_of Mat imread_phash file_list
        (num_threads_of hardware_concurrency) sched in
    file_names file_list
      (results_of img_hash_values search_hash_values threshold).
End Hasher.

End ImgSearch.

(** ** view-similar.cpp *)

Module ViewSimilar.

(** The fields that the loop [while(std::getline(line_stream, file, '\t'))]
    extracts from a line: [std::getline] fails when it reaches the end
    without having extracted a character, so a tab at the very end of the
    line does not start another field.  [file] holds the characters of the
    current call, and [extracted] tells whether there are any. *)
Fixpoint getline_fields (file : string) (extracted : bool) (line : string)
    : list string :=
  match line with
  | EmptyString => if extracted then [file] else []
  | String c line =>
      if decide (c = "009"%char)
      then file :: getline_fields "" false line
      else getline_fields (file +:+ String c "") true line
  end.

Definition split_line (line : string) : list string :=
  getline_fields "" false line.

(** How [main] ends: it returns 0, an [at] throws [std::out_of_range], or
    it is left waiting in [cv::waitKey] for a key that does not come.  What
    OpenCV does with an image that has no data is not part of the model: the
    calls of [cv::imshow] are recorded, not interpreted. *)
Inductive ending := Return0 | OutOfRange | WaitKey.

Section Viewer.
(** A [cv::Mat] as [cv::imread(file, 1)] gives it, with its [cols] and
    [rows]. *)
Variable Mat : Type.
Variable imread : string → Mat.
Variables cols rows : Mat → Z.

(** What [main] does to the window and to the standard output. *)
Inductive event :=
| NamedWindow
| Cout (line : string)
| Imshow (image : Mat)
| DisplayStatusBar (text : string).

(** The text of [status_stream]. *)
Definition status (files : list string) (images : list Mat)
    (current_image : nat) : option string :=
  file ← files !! current_image;
  image ← images !! current_image;
  Some (pretty (current_image + 1) +:+ "/" +:+ pretty (length files) +:+ " "
        +:+ file +:+ " (" +:+ pretty (cols image) +:+ "x"
        +:+ pretty (rows image) +:+ ")").

(** The loop [while(key)] for one line, entered with a [key] that is not 0.
    [keys] lists what the calls of [cv::waitKey(0)] return from here on.  The
    result is what happened, and either how [main] ended or the keys that are
    left for the next line. *)
Fixpoint key_loop (files : list string) (images : list Mat)
    (current_image : nat) (key : Z) (keys : list Z)
    : list event * (ending + list Z) :=
  match status files images current_image with
  | None => ([], inl OutOfRange)
  | Some text =>
      (* "show image", and the next key *)
      let show (current_image' : nat) (printed : list event) :=
        match images !! current_image' with
        | None => (printed, inl OutOfRange)
        | Some image =>
            let shown := printed ++ [Imshow image; DisplayStatusBar text] in
            match keys with
            | [] => (shown, inl WaitKey)
            | key' :: keys' =>
                if decide (key' = 0)%Z then (shown, inr keys')
                else
                  let r := key_loop files images current_image' key' keys' in
                  (shown ++ r.1, r.2)
            end
        end in
      if decide (key = 27 ∨ key = 113)%Z then ([], inl Return0)
      else if decide (key = 81)%Z then
        show (if decide (0 < current_image) then current_image - 1 else 0) []
      else if decide (key = 83)%Z then
        show (if decide (current_image < length files - 1)
              then current_image + 1 else current_image) []
      else if decide (key = 84)%Z then ([], inr keys)
      else if decide (key = 32)%Z then
        match files !! current_image with
        | Some file => show current_image [Cout file]
        | None => ([], inl OutOfRange)
        end
      else show current_image []
  end.

(** The loop over the lines of the standard input. *)
Fixpoint view_lines (stdin : list string) (keys : list Z)
    : list event * ending :=
  match stdin with
  | [] => ([], Return0)
  | line :: stdin =>
      let files := split_line line in
      let images := imread <$> files in
      if decide (length files = 0) then view_lines stdin keys
      else
        match key_loop files images 0 1 keys with
        | (shown, inl e) => (shown, e)
        | (shown, inr keys') =>
            let r := view_lines stdin keys' in (shown ++ r.1, r.2)
        end
  end.

(** [main]: what it does, and how it ends. *)
Definition main (stdin : list string) (keys : list Z)
    : list event * ending :=
  let r := view_lines stdin keys in (NamedWindow :: r.1, r.2).

(** What one turn of the loop [while(key)] shows when it is entered at the
    image [turn.1] and its key moves to the image [turn.2]. *)
Definition turn_display (files : list string) (images : list Mat)
    (turn : nat * nat) : list event :=
  match images !! turn.2, status files images turn.1 with
  | Some image, Some text => [Imshow image; DisplayStatusBar text]
  | _, _ => []
  end.

(** What a run has shown in the window: the events other than [Cout]. *)
Definition displayed (events : list event) : list event :=
  omap (λ e, match e with Cout _ => None | _ => Some e end) events.

(** The lines that a run has written to the standard output. *)
Definition stdout (events : list event) : list string :=
  omap (λ e, match e with Cout line => Some line | _ => None end) events.
End Viewer.

End ViewSimilar.

(** ** The similarity relation of an input *)

(** [neighbors(i)] of a similarity graph. *)
Definition adj (g : gmap nat (gset nat)) (i : nat) : gset nat :=
  default ∅ (g !! i).

Section Similarity.
Variable Mat : Type.
Variable imread_phash : string → option Mat.
Variable compare : Mat → Mat → Q.

(** The fingerprint of id [i], when its image decodes. *)
Definition fingerprint (file_list : list string) (i : nat) : option Mat :=
  file_list !! i ≫= imread_phash.

(** Both images decode and the distance of their fingerprints, taken in this
    order, is at most the threshold. *)
Definition within (threshold : Q) (file_list : list string) (i j : nat)
    : Prop :=
  ∃ hi hj, fingerprint file_list i = Some hi
           ∧ fingerprint file_list j = Some hj
           ∧ Qle_bool (compare hi hj) threshold = true.

(** Two different images are similar: the clustering programs compare the
    fingerprint of the lower id with that of the higher id. *)
Definition similar (threshold : Q) (file_list : list string) (i j : nat)
    : Prop :=
  (i < j ∧ within threshold file_list i j)
  ∨ (j < i ∧ within threshold file_list j i).

(** Connected by a path of similar images. *)
Definition connected (threshold : Q) (file_list : list string)
    : relation nat :=
  rtc (similar threshold file_list).

(** [within] and [similar] as tests, and the test that similarity is
    transitive on a file list: whenever an image is similar to a second one
    and that one to a third, different from the first, the first is similar to
    the third.  Identical copies at threshold 0 are of this kind. *)
Definition withinb (threshold : Q) (file_list : list string) (i j : nat)
    : bool :=
  match fingerprint file_list i, fingerprint file_list j with
  | Some hi, Some hj => Qle_bool (compare hi hj) threshold
  | _, _ => false
  end.

Definition similarb (threshold : Q) (file_list : list string) (i j : nat)
    : bool :=
  (i <? j) && withinb threshold file_list i j
  || (j <? i) && withinb threshold file_list j i.

Definition transitive (threshold : Q) (file_list : list string) : bool :=
  let ids := seq 0 (length file_list) in
  forallb (λ i, forallb (λ j, forallb (λ k,
    implb (similarb threshold file_list i j
           && similarb threshold file_list j k && negb (i =? k))
          (similarb threshold file_list i k)) ids) ids) ids.

(** The point query: [p] decodes and is within the threshold of an image of
    the search list that decodes. *)
Definition matches (threshold : Q) (search_list : list string) (p : string)
    : bool :=
  match imread_phash p with
  | None => false
  | Some h =>
      existsb (λ q, match imread_phash q with
                    | None => false
                    | Some hq => Qle_bool (compare h hq) threshold
                    end) search_list
  end.

(** An edge that [calculate_similar_pairs] of the threaded revision inserts,
    read off a hash list. *)
Definition stored_edge (hash_list : list (option Mat)) (threshold : Q)
    (i j : nat) : Prop :=
  i < j ∧ ∃ hi hj, hash_list !! i = Some (Some hi)
                   ∧ hash_list !! j = Some (Some hj)
                   ∧ Qle_bool (compare hi hj) threshold = true.
End Similarity.

(** ** What the search and the cluster loop establish *)

(** The stored adjacency as a relation. *)
Definition edge (g : gmap nat (gset nat)) : relation nat :=
  λ a b, b ∈ adj g a.

(** What a call of [build_temp_cluster] has done when it returns [r], having
    been entered with [temp_cluster = seen]. *)
Record visited (g : gmap nat (gset nat)) (seen : gset nat) (start : nat)
    (r : gset nat) : Prop := Visited {
  visited_mono : seen ⊆ r;
  visited_sound : ∀ x, x ∈ r → x ∉ seen → tc (edge g) start x;
  visited_closed : ∀ x y, x ∈ r → x ∉ seen → edge g x y → y ∈ r;
  visited_start : ∀ y, edge g start y → y ∈ r
}.

(** [ClusterSeq.build_temp_cluster] against [Cluster.build_temp_cluster]: the
    same result unless the former throws. *)
Definition agree (a1 a2 : outcome (gset nat)) : Prop :=
  match a1 with
  | Returns r => a2 = Returns r
  | OutOfFuel => a2 = OutOfFuel
  | Throws => True
  end.

(** [c] is the set of ids reachable from [k]. *)
Definition component (g : gmap nat (gset nat)) (k : nat) (c : gset nat)
    : Prop :=
  ∀ x, x ∈ c ↔ rtc (edge g) k x.

Definition pairwise_disjoint (cs : list (gset nat)) : Prop :=
  ∀ a b ca cb, a ≠ b → cs !! a = Some ca → cs !! b = Some cb → ca ## cb.

(** The state of the cluster loop of the sequential revision once the keys in
    [P] have been visited. *)
Record seq_inv (g : gmap nat (gset nat)) (P : nat → Prop)
    (st : list (gset nat) * gset nat) : Prop := SeqInv {
  seq_inv_unique : ∀ x, x ∈ st.2 ↔ P x ∧ adj g x = ∅;
  seq_inv_component :
    ∀ c, c ∈ st.1 → ∃ k, P k ∧ adj g k ≠ ∅ ∧ component g k c;
  seq_inv_covered : ∀ k, P k → adj g k ≠ ∅ → ∃ c, c ∈ st.1 ∧ k ∈ c;
  seq_inv_disjoint : pairwise_disjoint st.1
}.

(** The state of the cluster loop of the threaded revision once the keys in
    [P] have been visited: every cluster is connected when the direction of the
    edges is ignored, and every visited key shares a cluster with whatever the
    stored edges reach from it. *)
Record thr_inv (g : gmap nat (gset nat)) (P : nat → Prop)
    (cs : list (gset nat)) : Prop := ThrInv {
  thr_inv_connected : ∀ c x y, c ∈ cs → x ∈ c → y ∈ c → rtsc (edge g) x y;
  thr_inv_covered :
    ∀ k x, P k → rtc (edge g) k x → ∃ c, c ∈ cs ∧ k ∈ c ∧ x ∈ c
}.

(** The file at index [j] exists and satisfies [P]. *)
Definition holds_at (P : string → Prop) (l : list string) (j : nat) : Prop :=
  match l !! j with
  | Some p => P p
  | None => False
  end.

Global Instance holds_at_dec (P : string → Prop) (dec : ∀ p, Decision (P p))
    (l : list string) (j : nat) : Decision (holds_at P l j) :=
  match l !! j as o
    return Decision (match o with Some p => P p | None => False end)
  with
  | Some p => dec p
  | None => right (λ x, x)
  end.


(** The arguments that the option [c] was given, in the order of the command
    line. *)
Definition optargs (c : ascii) (opts : list (ascii * string)) : list string :=
  (filter (λ opt, opt.1 = c) opts).*2.

(** ** A concrete hasher *)

(** [PHash] values are 64 bits and [PHash::compare] is their Hamming distance.
    The examples below name the hash of every file in a table; a file that is
    not in the table does not decode. *)
Module Hamming.

Fixpoint popcount (p : positive) : nat :=
  match p with
  | xH => 1
  | xO p => popcount p
  | xI p => S (popcount p)
  end.

Definition compare (a b : N) : Q :=
  match N.lxor a b with
  | N0 => 0
  | Npos p => inject_Z (Z.of_nat (popcount p))
  end.

Fixpoint imread_phash (table : list (string * N)) (f : string) : option N :=
  match table with
  | [] => None
  | (g, h) :: table =>
      if decide (g = f) then Some h else imread_phash table f
  end.

(** A fragment of [std::stod]: unsigned decimal integers; everything else
    throws. *)
Fixpoint digits (acc : Z) (s : string) : option Z :=
  match s with
  | EmptyString => Some acc
  | String c s =>
      let n := Ascii.nat_of_ascii c in
      if decide (48 ≤ n ∧ n ≤ 57)
      then digits (10 * acc + Z.of_nat (n - 48)) s
      else None
  end.

Definition stod (s : string) : option Q :=
  match s with
  | EmptyString => None
  | _ => inject_Z <$> digits 0 s
  end.

(** Five images in a chain d - a, d - c, c - e, e - b of distance 1. *)
Definition chain : list (string * N) :=
  [("a", 1%N); ("b", 14%N); ("c", 2%N); ("d", 0%N); ("e", 6%N)].

(** Five images with d(a,d) = d(b,e) = d(c,e) = 2, d(c,d) = 3 and every
    other distance above 3. *)
Definition fork : list (string * N) :=
  [("a", 499%N); ("b", 12%N); ("c", 3%N); ("d", 115%N); ("e", 0%N)].

Definition files : list string := ["a"; "b"; "c"; "d"; "e"].

(** Two copies of one image, and the graph that the threaded revision builds
    for them at threshold 0 with one worker. *)
Definition twins : list (string * N) := [("a", 5%N); ("b", 5%N)].

Definition twins_graph : gmap nat (gset nat) :=
  Cluster.image_similarities_of N (imread_phash twins) compare 0 1
    ["a"; "b"] [] [].

(** Three copies of one image and two copies of another. *)
Definition copies : list (string * N) :=
  [("a", 5%N); ("b", 9%N); ("c", 5%N); ("d", 5%N); ("e", 9%N)].

(** A directory "dir" with three of the files of [chain], given by their
    paths, and a subdirectory that holds two more. *)
Definition folder : filesystem :=
  Filesystem (λ p, bool_decide (p = "dir")) (λ p, bool_decide (p = "dir"))
    (λ _, ["a"; "sub"; "d"; "c"])
    (λ _, ["a"; "sub"; "e"; "b"; "d"; "c"])
    (λ p, negb (bool_decide (p = "sub"))).

End Hamming.

#[local] Set Warnings "-clear-no-such-hyp".

(** * Ordered iteration *)

Lemma asc_Permutation (s : gset nat) : asc s ≡ₚ elements s.
Proof. apply merge_sort_Permutation. Qed.

Lemma elem_of_asc (s : gset nat) (x : nat) : x ∈ asc s ↔ x ∈ s.
Proof. by rewrite asc_Permutation, elem_of_elements. Qed.

Lemma NoDup_asc (s : gset nat) : NoDup (asc s).
Proof. rewrite asc_Permutation. apply NoDup_elements. Qed.

Lemma elem_of_asc_items {V} (m : gmap nat V) (k : nat) (v : V) :
  (k, v) ∈ asc_items m ↔ m !! k = Some v.
Proof.
  unfold asc_items. rewrite list_elem_of_omap. split.
  - intros (k' & _ & Hk). destruct (m !! k') eqn:E; naive_solver.
  - intros Hk. exists k. rewrite elem_of_asc, elem_of_dom, Hk. eauto.
Qed.

Lemma asc_items_fst {V} (m : gmap nat V) : (asc_items m).*1 = asc (dom m).
Proof.
  unfold asc_items.
  assert (Hin : ∀ k, k ∈ asc (dom m) → is_Some (m !! k)).
  { intros k. rewrite elem_of_asc. apply elem_of_dom. }
  induction (asc (dom m)) as [|k l IH]; [done|]. simpl.
  destruct (Hin k) as [v Hv]; [left|]. rewrite Hv. simpl. f_equal.
  apply IH. intros k' Hk'. apply Hin. by right.
Qed.

Lemma StronglySorted_asc (s : gset nat) : StronglySorted lt (asc s).
Proof.
  pose proof (NoDup_asc s) as Hnd.
  assert (Hs : StronglySorted le (asc s)).
  { unfold asc. apply (StronglySorted_merge_sort _). }
  induction Hs as [|x l _ IH Hx]; [constructor|].
  apply NoDup_cons in Hnd as [Hxl Hnd]. constructor; [by apply IH|].
  apply Forall_forall. intros y Hy.
  rewrite Forall_forall in Hx. specialize (Hx y Hy).
  assert (x ≠ y) by (by intros ->). lia.
Qed.

Lemma StronglySorted_asc_items {V} (m : gmap nat V) :
  StronglySorted (λ a b, a.1 < b.1) (asc_items m).
Proof.
  pose proof (StronglySorted_asc (dom m)) as Hs.
  rewrite <-asc_items_fst in Hs.
  induction (asc_items m) as [|x l IH]; [constructor|].
  rewrite fmap_cons in Hs. apply StronglySorted_cons in Hs as [Hx Hs].
  constructor; [by apply IH|]. by rewrite Forall_fmap in Hx.
Qed.

Lemma StronglySorted_filter {A} (R : relation A) (P : A → Prop)
    `{∀ x, Decision (P x)} (l : list A) :
  StronglySorted R l → StronglySorted R (filter P l).
Proof.
  induction 1 as [|x l _ IH Hx]; [constructor|].
  rewrite filter_cons. case_decide; [|done]. constructor; [done|].
  rewrite Forall_forall in *. intros y [_ Hy]%list_elem_of_filter. auto.
Qed.

Lemma StronglySorted_seq (a n : nat) : StronglySorted lt (seq a n).
Proof.
  revert a. induction n as [|n IH]; intros a; simpl; constructor; [done|].
  apply Forall_forall. intros y Hy%elem_of_seq. lia.
Qed.

(** The members of a set of ids below [n], in ascending order. *)
Lemma asc_filter_seq (R : gset nat) (n : nat) (Q : nat → Prop)
    `{∀ x, Decision (Q x)} :
  (∀ x, x ∈ R ↔ x < n ∧ Q x) → asc R = filter Q (seq 0 n).
Proof.
  intros HR. apply (StronglySorted_unique_strong lt).
  - intros; lia.
  - apply StronglySorted_asc.
  - apply StronglySorted_filter, StronglySorted_seq.
  - apply NoDup_Permutation.
    + apply NoDup_asc.
    + apply NoDup_filter, NoDup_seq.
    + intros x. rewrite elem_of_asc, list_elem_of_filter, elem_of_seq, HR.
      split; intros [? ?]; split; try done; lia.
Qed.

(** * Worker pools *)

Section ScheduleFacts.
Context {A : Type}.
Implicit Types (ws : list (list A)) (tr : list A).

Lemma interleaving_join_from n ws :
  interleaving (replicate n [] ++ ws) (concat ws).
Proof.
  revert n. induction ws as [|w ws IH]; intros n.
  - simpl. constructor. rewrite app_nil_r. by apply Forall_replicate.
  - induction w as [|x w IHw]; simpl.
    + specialize (IH (S n)). by rewrite replicate_S_end, <-app_assoc in IH.
    + apply (interleaving_step _ n x w).
      * rewrite lookup_app_r; rewrite length_replicate; [|done].
        by rewrite Nat.sub_diag.
      * rewrite insert_app_r_alt; rewrite length_replicate; [|done].
        rewrite Nat.sub_diag. apply IHw.
Qed.

Lemma interleaving_join ws : interleaving ws (concat ws).
Proof. apply (interleaving_join_from 0). Qed.

(** Every run of the oracle is an interleaving ... *)
Lemma schedule_interleaving ws sched : interleaving ws (schedule ws sched).
Proof.
  revert ws. induction sched as [|t sched IH]; intros ws; simpl.
  - apply interleaving_join.
  - destruct (ws !! t) as [[|x w]|] eqn:E; [done| |done].
    by apply (interleaving_step _ t x w).
Qed.

(** ... and every interleaving is the run of some oracle. *)
Lemma interleaving_schedule ws tr :
  interleaving ws tr → ∃ sched, schedule ws sched = tr.
Proof.
  induction 1 as [ws Hws|ws t x w tr Ht _ [sched IH]].
  - exists []. simpl. induction Hws as [|w ws -> _ IH]; [done|]. done.
  - exists (t :: sched). simpl. by rewrite Ht, IH.
Qed.

Lemma interleaving_Permutation ws tr : interleaving ws tr → tr ≡ₚ concat ws.
Proof.
  induction 1 as [ws Hws|ws t x w tr Ht _ IH].
  - induction Hws as [|w ws -> _ IH]; [done|]. done.
  - rewrite IH. clear IH tr. revert t Ht.
    induction ws as [|w' ws IH]; intros [|t] Ht; simplify_eq/=; [done|].
    rewrite <-(IH t Ht). by rewrite Permutation_middle.
Qed.

Lemma elem_of_concat ws x : x ∈ concat ws ↔ ∃ w, w ∈ ws ∧ x ∈ w.
Proof.
  induction ws as [|w ws IH]; simpl.
  - split; [by intros ?%elem_of_nil|]. by intros (? & ?%elem_of_nil & _).
  - rewrite elem_of_app, IH. split.
    + intros [?|(w' & ? & ?)]; [exists w|exists w']; split; try done;
        by constructor.
    + intros (w' & [->|?]%elem_of_cons & ?); eauto.
Qed.

Lemma elem_of_schedule ws sched x :
  x ∈ schedule ws sched ↔ ∃ w, w ∈ ws ∧ x ∈ w.
Proof.
  rewrite (interleaving_Permutation _ _ (schedule_interleaving ws sched)).
  apply elem_of_concat.
Qed.
End ScheduleFacts.

Lemma elem_of_flat_map {A B} (f : A → list B) (l : list A) (y : B) :
  y ∈ flat_map f l ↔ ∃ x, x ∈ l ∧ y ∈ f x.
Proof.
  rewrite list_elem_of_In, in_flat_map.
  by setoid_rewrite list_elem_of_In.
Qed.

(** Static round-robin partition: worker [t] of [n] takes the indices [i] with
    [i mod n = t]; together the workers take every index. *)
Lemma elem_of_round_robin {A} (body : nat → list A) (len num_threads : nat)
    (x : A) :
  0 < num_threads →
  (∃ w, w ∈ ((λ t, flat_map (λ i, if decide (i mod num_threads ≠ t) then []
                                  else body i) (seq 0 len))
               <$> seq 0 num_threads) ∧ x ∈ w)
  ↔ ∃ i, i < len ∧ x ∈ body i.
Proof.
  intros Hn. split.
  - intros (w & (t & -> & _)%list_elem_of_fmap & Hx).
    apply elem_of_flat_map in Hx as (i & Hi%elem_of_seq & Hx).
    case_decide; [by apply elem_of_nil in Hx|]. exists i. split; [lia|done].
  - intros (i & Hi & Hx).
    eexists. split.
    + apply list_elem_of_fmap. exists (i mod num_threads). split; [done|].
      apply elem_of_seq. split; [lia|]. simpl.
      by apply Nat.mod_upper_bound, Nat.neq_0_lt_0.
    + apply elem_of_flat_map. exists i. split; [apply elem_of_seq; lia|].
      by rewrite decide_False by (intros ?; congruence).
Qed.

Lemma num_threads_of_pos hc : 0 < num_threads_of hc.
Proof. unfold num_threads_of. case_decide; lia. Qed.

(** * The similarity graph as a container *)

Lemma graph_eq (g1 g2 : gmap nat (gset nat)) :
  (∀ i, is_Some (g1 !! i) ↔ is_Some (g2 !! i)) →
  (∀ i j, j ∈ adj g1 i ↔ j ∈ adj g2 i) →
  g1 = g2.
Proof.
  intros Hdom Hadj. apply map_eq. intros i.
  specialize (Hdom i). specialize (Hadj i). unfold adj in Hadj.
  destruct (g1 !! i) as [s1|], (g2 !! i) as [s2|]; simpl in *.
  - f_equal. by apply set_eq.
  - destruct Hdom as [H _]. by destruct H.
  - destruct Hdom as [_ H]. by destruct H.
  - done.
Qed.

Lemma elem_of_graph_ids (g : gmap nat (gset nat)) (x : nat) :
  x ∈ graph_ids g ↔ is_Some (g !! x) ∨ ∃ i, x ∈ adj g i.
Proof.
  unfold graph_ids, adj.
  rewrite elem_of_union, elem_of_dom, elem_of_union_list.
  apply or_iff_compat_l. split.
  - intros (s & ([i s'] & -> & Hi%elem_of_map_to_list)%list_elem_of_fmap & Hx).
    exists i. by rewrite Hi.
  - intros (i & Hx). destruct (g !! i) as [s|] eqn:E; [|set_solver].
    exists s. split; [|done]. apply list_elem_of_fmap. exists (i, s).
    split; [done|]. by apply elem_of_map_to_list.
Qed.

Section ClusterGraph.
Import Cluster.

Lemma insert_edge_lookup g e i :
  insert_edge g e !! i
  = if decide (i = e.1) then Some ({[e.2]} ∪ adj g i) else g !! i.
Proof.
  destruct e as [a b]. unfold insert_edge, adj. simpl.
  destruct (decide (i = a)) as [->|Hi].
  - destruct (g !! a) as [s|] eqn:E.
    + rewrite decide_True by eauto. by rewrite lookup_alter_eq, E.
    + rewrite decide_False by (by intros [??]).
      by rewrite lookup_alter_eq, lookup_insert_eq.
  - rewrite lookup_alter_ne by done. case_decide; [done|].
    by rewrite lookup_insert_ne.
Qed.

Lemma foldl_insert_edge_is_Some tr g i :
  is_Some (foldl insert_edge g tr !! i)
  ↔ is_Some (g !! i) ∨ ∃ j, (i, j) ∈ tr.
Proof.
  revert g. induction tr as [|e tr IH]; intros g; simpl.
  - split; [auto|]. intros [?|[? ?%elem_of_nil]]; done.
  - rewrite IH, insert_edge_lookup. setoid_rewrite elem_of_cons.
    destruct e as [a b]; simpl. case_decide; subst; split.
    + intros [_|[j ?]]; right; [exists b|exists j]; auto.
    + intros _. left. eauto.
    + intros [?|[j ?]]; [by left|]. right. exists j. auto.
    + intros [?|[j [?|?]]]; [by left|simplify_eq|]. right. by exists j.
Qed.

Lemma foldl_insert_edge_adj tr g i j :
  j ∈ adj (foldl insert_edge g tr) i ↔ j ∈ adj g i ∨ (i, j) ∈ tr.
Proof.
  revert g. induction tr as [|e tr IH]; intros g; simpl.
  - split; [auto|]. intros [?|?%elem_of_nil]; done.
  - rewrite IH. rewrite elem_of_cons. unfold adj at 1.
    rewrite insert_edge_lookup. destruct e as [a b]; simpl.
    case_decide; subst; simpl.
    + rewrite elem_of_union, elem_of_singleton. split.
      * intros [[->|?]|?]; auto.
      * intros [?|[[= ->]|?]]; auto.
    + fold (adj g i). split; [intros [?|?]; auto|].
      intros [?|[[= ? ?]|?]]; auto. done.
Qed.
End ClusterGraph.

(** * The two phases of the threaded revision *)

Section ClusterPhases.
Variable Mat : Type.
Variable imread_phash : string → option Mat.
Variable compare : Mat → Mat → Q.

Local Abbreviation store := (Cluster.store Mat).
Local Abbreviation hash_phase := (Cluster.hash_phase Mat imread_phash).
Local Abbreviation pair_phase := (Cluster.pair_phase Mat compare).
Local Abbreviation image_similarities_of :=
  (Cluster.image_similarities_of Mat imread_phash compare).

Lemma foldl_store_length tr (l : list (option Mat)) :
  length (foldl store l tr) = length l.
Proof.
  revert l. induction tr as [|w tr IH]; intros l; simpl; [done|].
  rewrite IH. apply length_insert.
Qed.

Lemma foldl_store_lookup_ne tr (l : list (option Mat)) k :
  k ∉ tr.*1 → foldl store l tr !! k = l !! k.
Proof.
  revert l. induction tr as [|[i v] tr IH]; intros l Hk; simpl; [done|].
  apply not_elem_of_cons in Hk as [Hki Hk]. rewrite IH by done.
  unfold Cluster.store. simpl. by apply list_lookup_insert_ne.
Qed.

(** All stores to one slot carry the same value, so the order of the stores
    does not matter. *)
Lemma foldl_store_lookup tr (l : list (option Mat)) k v :
  k < length l → (k, v) ∈ tr → (∀ v', (k, v') ∈ tr → v' = v) →
  foldl store l tr !! k = Some v.
Proof.
  revert l. induction tr as [|[i w] tr IH]; intros l Hk Hin Hv; simpl.
  - by apply elem_of_nil in Hin.
  - destruct (decide (k ∈ tr.*1)) as [Hyes|Hno].
    + apply list_elem_of_fmap in Hyes as ([k' v'] & -> & Hv'). simpl in *.
      apply IH.
      * unfold Cluster.store. by rewrite length_insert.
      * rewrite <-(Hv v'); [done|by right].
      * intros v'' ?. apply Hv. by right.
    + apply elem_of_cons in Hin as [[= -> ->]|Hin].
      * rewrite foldl_store_lookup_ne by done.
        unfold Cluster.store. simpl. by apply list_lookup_insert_eq.
      * destruct Hno. apply list_elem_of_fmap. by exists (k, v).
Qed.

Lemma elem_of_hash_workers file_list num_threads i v :
  0 < num_threads →
  (∃ w, w ∈ Cluster.hash_workers Mat imread_phash file_list num_threads
        ∧ (i, v) ∈ w)
  ↔ ∃ f, file_list !! i = Some f ∧ v = imread_phash f.
Proof.
  intros Hn. unfold Cluster.hash_workers, Cluster.calculate_hash_values.
  rewrite (elem_of_round_robin
             (λ i, match file_list !! i with
                   | None => []
                   | Some f =>
                       match imread_phash f with
                       | None => [(i, None)]
                       | Some current_hash => [(i, Some current_hash)]
                       end
                   end)) by done.
  split.
  - intros (i' & Hi' & Hin). destruct (file_list !! i') as [f|] eqn:Ef;
      [|by apply elem_of_nil in Hin].
    destruct (imread_phash f) eqn:Eh;
      apply list_elem_of_singleton in Hin; simplify_eq; eauto.
  - intros (f & Hf & ->). exists i. split; [by eapply lookup_lt_Some|].
    rewrite Hf. destruct (imread_phash f); apply list_elem_of_singleton; done.
Qed.

(** The hash phase stores the fingerprint of every file, whatever the number
    of workers and the schedule. *)
Lemma hash_phase_spec file_list num_threads sched :
  0 < num_threads →
  hash_phase file_list num_threads sched = imread_phash <$> file_list.
Proof.
  intros Hn. apply list_eq. intros i. unfold Cluster.hash_phase.
  rewrite list_lookup_fmap.
  destruct (file_list !! i) as [f|] eqn:Ef; simpl.
  - apply foldl_store_lookup.
    + rewrite length_replicate. by eapply lookup_lt_Some.
    + apply elem_of_schedule, elem_of_hash_workers; eauto.
    + intros v' (f' & ? & ->)%elem_of_schedule%elem_of_hash_workers; [|done].
      congruence.
  - apply lookup_ge_None. rewrite foldl_store_length, length_replicate.
    by apply lookup_ge_None.
Qed.

Lemma elem_of_pair_workers hash_list threshold num_threads i j :
  0 < num_threads →
  (∃ w, w ∈ Cluster.pair_workers Mat compare hash_list threshold num_threads
        ∧ (i, j) ∈ w)
  ↔ stored_edge Mat compare hash_list threshold i j.
Proof.
  intros Hn. unfold Cluster.pair_workers, Cluster.calculate_similar_pairs.
  rewrite (elem_of_round_robin
    (λ i, match hash_list !! i with
          | Some (Some hi) =>
              flat_map (λ j,
                match hash_list !! j with
                | Some (Some hj) =>
                    if Qle_bool (compare hi hj) threshold then [(i, j)]
                    else []
                | _ => []
                end)
                (seq (i + 1) (length hash_list - (i + 1)))
          | _ => []
          end)) by done.
  unfold stored_edge. split.
  - intros (i' & Hi' & Hin).
    destruct (hash_list !! i') as [[hi|]|] eqn:Ei;
      try by apply elem_of_nil in Hin.
    apply elem_of_flat_map in Hin as (j' & Hj'%elem_of_seq & Hin).
    destruct (hash_list !! j') as [[hj|]|] eqn:Ej;
      try by apply elem_of_nil in Hin.
    destruct (Qle_bool _ _) eqn:Ec; [|by apply elem_of_nil in Hin].
    apply list_elem_of_singleton in Hin. simplify_eq.
    split; [lia|]. eauto 6.
  - intros (Hij & hi & hj & Hi & Hj & Hc).
    exists i. split; [by eapply lookup_lt_Some|]. rewrite Hi.
    apply elem_of_flat_map. exists j. split.
    + apply elem_of_seq. apply lookup_lt_Some in Hj. lia.
    + rewrite Hj, Hc. by apply list_elem_of_singleton.
Qed.

Lemma pair_phase_adj hash_list threshold num_threads sched i j :
  0 < num_threads →
  j ∈ adj (pair_phase hash_list threshold num_threads sched) i
  ↔ stored_edge Mat compare hash_list threshold i j.
Proof.
  intros Hn. unfold Cluster.pair_phase.
  rewrite foldl_insert_edge_adj, elem_of_schedule, elem_of_pair_workers
    by done.
  unfold adj. rewrite lookup_empty. simpl.
  split; [intros [?%not_elem_of_empty|?]; done|auto].
Qed.

Lemma pair_phase_is_Some hash_list threshold num_threads sched i :
  0 < num_threads →
  is_Some (pair_phase hash_list threshold num_threads sched !! i)
  ↔ ∃ j, stored_edge Mat compare hash_list threshold i j.
Proof.
  intros Hn. unfold Cluster.pair_phase.
  rewrite foldl_insert_edge_is_Some, lookup_empty.
  setoid_rewrite elem_of_schedule.
  setoid_rewrite (elem_of_pair_workers _ _ _ _ _ Hn).
  split; [intros [[? [=]]|?]; done|auto].
Qed.

Lemma stored_edge_within file_list threshold i j :
  stored_edge Mat compare (imread_phash <$> file_list) threshold i j
  ↔ i < j ∧ within Mat imread_phash compare threshold file_list i j.
Proof.
  unfold stored_edge, within, fingerprint.
  apply and_iff_compat_l.
  split; intros (hi & hj & Hi & Hj & Hc); exists hi, hj;
    rewrite !list_lookup_fmap in *;
    destruct (file_list !! i), (file_list !! j); simplify_eq/=;
    rewrite ?Hi, ?Hj; done.
Qed.

(** The finished graph of the threaded revision: [j] is a neighbour of [i]
    exactly when [i < j] and the two images are within the threshold. *)
Lemma image_similarities_of_adj threshold num_threads file_list s1 s2 i j :
  0 < num_threads →
  j ∈ adj (image_similarities_of threshold num_threads file_list s1 s2) i
  ↔ i < j ∧ within Mat imread_phash compare threshold file_list i j.
Proof.
  intros Hn. unfold Cluster.image_similarities_of.
  by rewrite pair_phase_adj, hash_phase_spec, stored_edge_within.
Qed.

Lemma image_similarities_of_is_Some threshold num_threads file_list s1 s2 i :
  0 < num_threads →
  is_Some (image_similarities_of threshold num_threads file_list s1 s2 !! i)
  ↔ ∃ j, i < j ∧ within Mat imread_phash compare threshold file_list i j.
Proof.
  intros Hn. unfold Cluster.image_similarities_of.
  rewrite pair_phase_is_Some, hash_phase_spec by done.
  by setoid_rewrite stored_edge_within.
Qed.

Lemma pair_phase_indep hash_list threshold n1 n2 s1 s2 :
  0 < n1 → 0 < n2 →
  pair_phase hash_list threshold n1 s1 = pair_phase hash_list threshold n2 s2.
Proof.
  intros H1 H2. apply graph_eq.
  - intros i. by rewrite !pair_phase_is_Some.
  - intros i j. by rewrite !pair_phase_adj.
Qed.

(** The same for any two interleavings of the steps of the workers. *)
Lemma hash_stores_indep file_list n1 n2 tr1 tr2 :
  0 < n1 → 0 < n2 →
  interleaving (Cluster.hash_workers Mat imread_phash file_list n1) tr1 →
  interleaving (Cluster.hash_workers Mat imread_phash file_list n2) tr2 →
  foldl store (replicate (length file_list) None) tr1
  = foldl store (replicate (length file_list) None) tr2.
Proof.
  intros H1 H2 [s1 <-]%interleaving_schedule [s2 <-]%interleaving_schedule.
  change (hash_phase file_list n1 s1 = hash_phase file_list n2 s2).
  by rewrite !hash_phase_spec.
Qed.

Lemma pair_inserts_indep hash_list threshold n1 n2 tr1 tr2 :
  0 < n1 → 0 < n2 →
  interleaving (Cluster.pair_workers Mat compare hash_list threshold n1) tr1 →
  interleaving (Cluster.pair_workers Mat compare hash_list threshold n2) tr2 →
  foldl Cluster.insert_edge ∅ tr1 = foldl Cluster.insert_edge ∅ tr2.
Proof.
  intros H1 H2 [s1 <-]%interleaving_schedule [s2 <-]%interleaving_schedule.
  by apply pair_phase_indep.
Qed.

(** The graph does not depend on the number of workers or on the schedules. *)
Lemma image_similarities_of_indep threshold file_list n1 n2 s1 s1' s2 s2' :
  0 < n1 → 0 < n2 →
  image_similarities_of threshold n1 file_list s1 s1'
  = image_similarities_of threshold n2 file_list s2 s2'.
Proof.
  intros H1 H2. apply graph_eq.
  - intros i. by rewrite !image_similarities_of_is_Some.
  - intros i j. by rewrite !image_similarities_of_adj.
Qed.
End ClusterPhases.

(** * The depth-first search *)

Lemma edge_graph_ids g a b : edge g a b → b ∈ graph_ids g.
Proof. intros H. apply elem_of_graph_ids. right. by exists a. Qed.

Lemma tc_last_edge g a b : tc (edge g) a b → b ∈ graph_ids g.
Proof. induction 1; [by eapply edge_graph_ids|done]. Qed.

Section DepthFirst.
Import Cluster.
Variable g : gmap nat (gset nat).

Lemma size_unvisited_lt (seen : gset nat) (i : nat) :
  i ∈ graph_ids g → i ∉ seen →
  size (graph_ids g ∖ ({[i]} ∪ seen)) < size (graph_ids g ∖ seen).
Proof.
  intros Hi Htc. apply subset_size. apply strict_spec_alt. split.
  - set_solver.
  - intros Heq. assert (i ∈ graph_ids g ∖ seen) as Hin by set_solver.
    rewrite <-Heq in Hin. set_solver.
Qed.

Lemma size_unvisited_le (seen r : gset nat) :
  seen ⊆ r → size (graph_ids g ∖ r) ≤ size (graph_ids g ∖ seen).
Proof. intros. apply subseteq_size. set_solver. Qed.

(** The depth of the recursion is bounded by the number of ids of the graph
    that are not yet in [temp_cluster]. *)
Lemma build_temp_cluster_visited fuel seen start :
  size (graph_ids g ∖ seen) < fuel →
  ∃ r, build_temp_cluster fuel g seen start = Returns r
       ∧ visited g seen start r.
Proof.
  revert seen start. induction fuel as [|fuel IH]; intros seen start Hfuel;
    [lia|].
  simpl. destruct (g !! start) as [nb|] eqn:Hstart.
  - assert (Hnb : ∀ i, i ∈ asc nb ↔ edge g start i).
    { intros i. unfold edge, adj. by rewrite Hstart, elem_of_asc. }
    assert (Hloop : ∀ l seen',
      (∀ i, i ∈ l → edge g start i) →
      size (graph_ids g ∖ seen') ≤ fuel →
      ∃ r, foldl (λ acc i,
                    temp_cluster ← acc;
                    if decide (i ∈ temp_cluster) then Returns temp_cluster
                    else build_temp_cluster fuel g ({[i]} ∪ temp_cluster) i)
                 (Returns seen') l = Returns r
           ∧ seen' ⊆ r
           ∧ (∀ x, x ∈ r → x ∉ seen' → tc (edge g) start x)
           ∧ (∀ x y, x ∈ r → x ∉ seen' → edge g x y → y ∈ r)
           ∧ (∀ i, i ∈ l → i ∈ r)).
    { induction l as [|i l IHl]; intros seen' Hl Hsz; simpl.
      - exists seen'. split_and!; [done|done|done|done|].
        by intros ? ?%elem_of_nil.
      - case_decide as Hi.
        + destruct (IHl seen') as (r & -> & ? & ? & ? & Hin);
            [intros; apply Hl; by right|done|].
          exists r. split_and!; try done.
          intros i' [->|?]%elem_of_cons; [set_solver|by apply Hin].
        + assert (Hei : edge g start i) by (apply Hl; left).
          destruct (IH ({[i]} ∪ seen') i) as (r1 & -> & [H1 H2 H3 H4]).
          { pose proof (size_unvisited_lt seen' i
                          (edge_graph_ids _ _ _ Hei) Hi). lia. }
          destruct (IHl r1) as (r & -> & Hr1 & Hr2 & Hr3 & Hin).
          { intros; apply Hl; by right. }
          { assert (seen' ⊆ r1) as Hsub by set_solver.
            pose proof (size_unvisited_le seen' r1 Hsub). lia. }
          exists r. split_and!; [done|set_solver| | |].
          * intros x Hx Hx'. destruct (decide (x ∈ r1)) as [Hxr1|Hxr1];
              [|by apply Hr2].
            destruct (decide (x = i)) as [->|Hxi]; [by apply tc_once|].
            eapply tc_l; [done|]. apply H2; set_solver.
          * intros x y Hx Hx' Hxy.
            destruct (decide (x ∈ r1)) as [Hxr1|Hxr1]; [|by eapply Hr3].
            apply Hr1. destruct (decide (x = i)) as [->|Hxi];
              [by apply H4|].
            eapply H3; [done| |done]. set_solver.
          * intros i' [->|?]%elem_of_cons; [set_solver|by apply Hin]. }
    destruct (Hloop (asc nb) seen) as (r & -> & ? & ? & ? & Hin);
      [by intros i ?%Hnb|lia|].
    exists r. split; [done|]. split; try done.
    intros y Hy. by apply Hin, Hnb.
  - exists seen. split; [done|]. split; try done.
    intros y. unfold edge, adj. rewrite Hstart. set_solver.
Qed.
End DepthFirst.

(** The search from a fresh cluster [{start}] collects what is reachable. *)
Lemma build_temp_cluster_reach g start :
  ∃ r, Cluster.build_temp_cluster (S (size (graph_ids g))) g {[start]} start
       = Returns r
       ∧ ∀ x, x ∈ r ↔ rtc (edge g) start x.
Proof.
  destruct (build_temp_cluster_visited g (S (size (graph_ids g))) {[start]}
              start) as (r & Hr & [H1 H2 H3 H4]).
  { pose proof (size_unvisited_le g ∅ {[start]}) as Hle.
    replace (graph_ids g ∖ ∅) with (graph_ids g) in Hle by set_solver.
    assert ((∅ : gset nat) ⊆ {[start]}) as Hsub by set_solver.
    specialize (Hle Hsub). lia. }
  exists r. split; [done|]. intros x. split.
  - intros Hx. destruct (decide (x = start)) as [->|Hne]; [done|].
    apply tc_rtc, H2; set_solver.
  - revert x. apply rtc_ind_r; [set_solver|]. intros y z _ Hyz IH.
    destruct (decide (y = start)) as [->|Hne]; [by apply H4|].
    eapply H3; [done| |done]. set_solver.
Qed.

Lemma foldl_bind_stuck {A B} (f : A → B → outcome A) (l : list B)
    (o : outcome A) :
  (∀ a, o ≠ Returns a) → foldl (λ acc i, a ← acc; f a i) o l = o.
Proof.
  intros Ho. induction l as [|i l IH]; simpl; [done|].
  destruct o as [a| |]; [by destruct (Ho a)|done..].
Qed.

(** A result does not depend on the budget that was left over. *)
Lemma build_temp_cluster_fuel_mono fuel fuel' g seen start r :
  fuel ≤ fuel' →
  Cluster.build_temp_cluster fuel g seen start = Returns r →
  Cluster.build_temp_cluster fuel' g seen start = Returns r.
Proof.
  revert fuel' seen start r.
  induction fuel as [|fuel IH]; intros fuel' seen start r Hle; [done|].
  destruct fuel' as [|fuel']; [lia|]. simpl.
  destruct (g !! start) as [nb|]; [|done].
  generalize (asc nb). intros l. revert seen.
  induction l as [|i l IHl]; intros seen; simpl; [done|].
  case_decide; [apply IHl|].
  destruct (Cluster.build_temp_cluster fuel g ({[i]} ∪ seen) i)
    as [r1| |] eqn:E.
  - rewrite (IH fuel' _ _ r1) by (done || lia). apply IHl.
  - by rewrite foldl_bind_stuck.
  - by rewrite foldl_bind_stuck.
Qed.

Lemma build_temp_cluster_agree fuel g seen start :
  agree (ClusterSeq.build_temp_cluster fuel g seen start)
        (Cluster.build_temp_cluster fuel g seen start).
Proof.
  revert seen start. induction fuel as [|fuel IH]; intros seen start; simpl;
    [done|].
  destruct (g !! start) as [nb|]; [|done].
  generalize (asc nb). intros l.
  assert (Hacc : agree (Returns seen) (Returns seen)) by done.
  revert Hacc. generalize (Returns seen) at 1 3. generalize (Returns seen).
  induction l as [|i l IHl]; intros a2 a1 Hacc; simpl; [done|].
  apply IHl. destruct a1 as [r| |]; simpl in *; subst; simpl; try done.
  case_decide; [done|]. apply IH.
Qed.

Lemma build_temp_cluster_seq_fuel fuel g seen start :
  size (graph_ids g ∖ seen) < fuel →
  ClusterSeq.build_temp_cluster fuel g seen start ≠ OutOfFuel.
Proof.
  intros Hfuel Hout.
  pose proof (build_temp_cluster_agree fuel g seen start) as H.
  rewrite Hout in H. simpl in H.
  destruct (build_temp_cluster_visited g fuel seen start Hfuel) as (r & Hr & _).
  congruence.
Qed.

(** Where every neighbour is a key, nothing throws. *)
Lemma build_temp_cluster_seq_eq fuel g seen start :
  (∀ i j, edge g i j → is_Some (g !! j)) → is_Some (g !! start) →
  ClusterSeq.build_temp_cluster fuel g seen start
  = Cluster.build_temp_cluster fuel g seen start.
Proof.
  intros Hkeys. revert seen start.
  induction fuel as [|fuel IH]; intros seen start [nb Hstart]; simpl; [done|].
  rewrite Hstart.
  assert (Hnb : ∀ i, i ∈ asc nb → is_Some (g !! i)).
  { intros i Hi%elem_of_asc. apply (Hkeys start). unfold edge, adj.
    by rewrite Hstart. }
  revert Hnb. generalize (asc nb). intros l. generalize (Returns seen).
  induction l as [|i l IHl]; intros a Hl; simpl; [done|].
  assert (is_Some (g !! i)) by (apply Hl; left).
  destruct a as [r| |]; simpl.
  - case_decide.
    + apply IHl. intros; apply Hl; by right.
    + rewrite IH by done. apply IHl. intros; apply Hl; by right.
  - apply IHl. intros; apply Hl; by right.
  - apply IHl. intros; apply Hl; by right.
Qed.

(** When the search of the sequential revision returns, it has stepped on
    keys only. *)
Lemma build_temp_cluster_seq_keys fuel g seen start r :
  ClusterSeq.build_temp_cluster fuel g seen start = Returns r →
  is_Some (g !! start) ∧ ∀ x, x ∈ r → x ∉ seen → is_Some (g !! x).
Proof.
  revert seen start r.
  induction fuel as [|fuel IH]; intros seen start r; simpl; [done|].
  destruct (g !! start) as [nb|] eqn:Hstart; [|done].
  intros Hr. split; [eauto|]. revert Hr.
  generalize (asc nb). intros l.
  assert (Hseen : ∀ x, x ∈ seen → x ∉ seen → is_Some (g !! x)) by done.
  revert Hseen. generalize seen at 1 3. intros acc. revert acc.
  induction l as [|i l IHl]; intros acc Hacc; simpl.
  - intros [= <-]. done.
  - case_decide; [by apply IHl|].
    destruct (ClusterSeq.build_temp_cluster fuel g ({[i]} ∪ acc) i)
      as [r1| |] eqn:E.
    + apply IH in E as [Hi Hr1]. apply IHl. intros x Hx Hxs.
      destruct (decide (x ∈ {[i]} ∪ acc))
        as [[->%elem_of_singleton|?]%elem_of_union|?]; auto.
    + by rewrite foldl_bind_stuck.
    + by rewrite foldl_bind_stuck.
Qed.

(** When it throws, an id without entry is reachable. *)
Lemma build_temp_cluster_seq_Throws fuel g seen start :
  ClusterSeq.build_temp_cluster fuel g seen start = Throws →
  ∃ x, rtc (edge g) start x ∧ g !! x = None.
Proof.
  revert seen start.
  induction fuel as [|fuel IH]; intros seen start; simpl; [done|].
  destruct (g !! start) as [nb|] eqn:Hstart; [|by exists start].
  assert (Hnb : ∀ i, i ∈ asc nb → edge g start i).
  { intros i Hi%elem_of_asc. unfold edge, adj. by rewrite Hstart. }
  revert Hnb. generalize (asc nb). intros l. revert seen.
  induction l as [|i l IHl]; intros seen Hl; simpl; [done|].
  case_decide; [apply IHl; intros; apply Hl; by right|].
  destruct (ClusterSeq.build_temp_cluster fuel g ({[i]} ∪ seen) i)
    as [r1| |] eqn:E.
  - apply IHl. intros; apply Hl; by right.
  - intros _. apply IH in E as (x & Hx & Hnone). exists x. split; [|done].
    eapply rtc_l; [apply Hl; left|done].
  - by rewrite foldl_bind_stuck.
Qed.

(** * The merge loop *)

Lemma unify_None temp cs : unify temp cs = None ↔ Forall (λ c, c ## temp) cs.
Proof.
  induction cs as [|c cs IH]; simpl; [by split; [constructor|]|].
  case_decide.
  - rewrite fmap_None, IH. split; [by constructor|by inversion 1].
  - split; [done|]. by inversion 1.
Qed.

Lemma unify_Some temp cs cs' :
  unify temp cs = Some cs' →
  ∃ pre c post, cs = pre ++ c :: post ∧ Forall (λ c, c ## temp) pre
                ∧ ¬ c ## temp ∧ cs' = pre ++ (c ∪ temp) :: post.
Proof.
  revert cs'. induction cs as [|c cs IH]; intros cs'; simpl; [done|].
  case_decide.
  - destruct (unify temp cs) as [cs''|]; [|done]. intros [= <-].
    destruct (IH cs'' eq_refl) as (pre & c' & post & -> & ? & ? & ->).
    exists (c :: pre), c', post. split_and!; try done. by constructor.
  - intros [= <-]. exists [], c, cs. split_and!; try done.
Qed.

(** What the merge loop and the [push_back] after it do to the clusters. *)
Lemma unify_grow temp cs :
  let cs' := default (cs ++ [temp]) (unify temp cs) in
  (∀ c, c ∈ cs → ∃ c', c' ∈ cs' ∧ c ⊆ c')
  ∧ (∃ c', c' ∈ cs' ∧ temp ⊆ c')
  ∧ (∀ c', c' ∈ cs' →
       c' ∈ cs ∨ c' = temp ∨ ∃ c, c ∈ cs ∧ ¬ c ## temp ∧ c' = c ∪ temp).
Proof.
  destruct (unify temp cs) as [merged|] eqn:Hu; simpl.
  - apply unify_Some in Hu as (pre & c & post & -> & _ & Hc & ->).
    split_and!.
    + intros c0 [?|[->|?]%elem_of_cons]%elem_of_app.
      * exists c0. set_solver.
      * exists (c ∪ temp). set_solver.
      * exists c0. set_solver.
    + exists (c ∪ temp). set_solver.
    + intros c' [?|[->|?]%elem_of_cons]%elem_of_app.
      * left. set_solver.
      * right; right. exists c. set_solver.
      * left. set_solver.
  - split_and!.
    + intros c ?. exists c. set_solver.
    + exists temp. set_solver.
    + intros c' [? | ->%list_elem_of_singleton]%elem_of_app; auto.
Qed.

(** * The cluster loop of the threaded revision: it returns *)

#[local] Arguments Cluster.build_temp_cluster : simpl never.
#[local] Arguments ClusterSeq.build_temp_cluster : simpl never.

Lemma cluster_loop_ids g l cs :
  (∀ i, i ∈ l → g !! i.1 = Some i.2) →
  Forall (λ c, c ⊆ graph_ids g) cs →
  ∃ cs', foldl (λ acc i,
                  image_clusters ← acc;
                  Cluster.cluster_step (S (size (graph_ids g))) g
                    image_clusters i)
               (Returns cs) l = Returns cs'
         ∧ Forall (λ c, c ⊆ graph_ids g) cs'.
Proof.
  revert cs. induction l as [|[k s] l IH]; intros cs Hl Hcs; simpl;
    [by exists cs|].
  assert (Hk : g !! k = Some s) by (apply (Hl (k, s)); left).
  assert (Hl' : ∀ i, i ∈ l → g !! i.1 = Some i.2)
    by (intros; apply Hl; by right).
  unfold Cluster.cluster_step at 2. simpl. case_decide; [by apply IH|].
  destruct (build_temp_cluster_reach g k) as (r & -> & Hr). simpl.
  assert (Hrsub : r ⊆ graph_ids g).
  { intros x [->|(y & _ & Hyx)]%Hr%rtc_inv_r.
    - apply elem_of_graph_ids. left. eauto.
    - by eapply edge_graph_ids. }
  destruct (unify r cs) as [merged|] eqn:Hu.
  - apply IH; [done|].
    apply unify_Some in Hu as (pre & c & post & -> & _ & _ & ->).
    apply Forall_app in Hcs as [? [? ?]%Forall_cons].
    apply Forall_app. split; [done|]. constructor; [set_solver|done].
  - apply IH; [done|]. apply Forall_app. split; [done|]. by constructor.
Qed.

Lemma image_clusters_of_ids g :
  ∃ cs, Cluster.image_clusters_of g = Returns cs
        ∧ Forall (λ c, c ⊆ graph_ids g) cs.
Proof.
  apply cluster_loop_ids; [|constructor].
  by intros [k s] ?%elem_of_asc_items.
Qed.

(** * Printing *)

Lemma file_names_Returns file_list c :
  (∀ j, j ∈ c → j < length file_list) →
  ∃ names, file_names file_list c = Returns names.
Proof.
  intros Hc. unfold file_names.
  destruct (mapM _ _) as [out|] eqn:E; [by eexists|].
  apply mapM_None in E. exfalso.
  apply Exists_exists in E as (j & Hj%elem_of_asc & Hnone).
  apply lookup_ge_None in Hnone. specialize (Hc j Hj). lia.
Qed.

Lemma print_clusters_Returns file_list cs :
  Forall (λ c, ∀ j, j ∈ c → j < length file_list) cs →
  ∃ out, Cluster.print_clusters file_list cs = Returns out.
Proof.
  induction 1 as [|c cs Hc _ [out IH]]; simpl; [by eexists|].
  destruct (file_names_Returns file_list c Hc) as [names Hn].
  unfold Cluster.print_clusters in *. simpl. rewrite Hn, IH. simpl. by eexists.
Qed.

(** * The map of hash values of the sequential revision and of img-search *)

Section MapHasherFacts.
Variable Mat : Type.
Variable imread_phash : string → option Mat.

Local Abbreviation fp := (fingerprint Mat imread_phash).

Lemma foldl_insert_hash_lookup (F : nat → option Mat) tr m k :
  (∀ e, e ∈ tr → F e.1 = Some e.2) →
  foldl (insert_hash Mat) m tr !! k
  = match m !! k with
    | Some h => Some h
    | None => if decide (k ∈ tr.*1) then F k else None
    end.
Proof.
  revert m. induction tr as [|[i h] tr IH]; intros m Htr; simpl.
  - by destruct (m !! k).
  - rewrite IH by (intros; apply Htr; by right).
    assert (Hi : F i = Some h) by (apply (Htr (i, h)); left).
    unfold insert_hash. simpl. destruct (m !! i) as [h'|] eqn:Ei.
    + destruct (m !! k) eqn:Ek; [done|].
      assert (k ≠ i) by congruence.
      repeat case_decide; try done; set_solver.
    + destruct (decide (k = i)) as [->|Hne].
      * rewrite lookup_insert_eq, Ei. rewrite decide_True by set_solver.
        done.
      * rewrite lookup_insert_ne by done.
        destruct (m !! k); [done|]. repeat case_decide; try done; set_solver.
Qed.

Lemma elem_of_map_hash_workers file_list num_threads i h :
  0 < num_threads →
  (∃ w, w ∈ hash_workers Mat imread_phash file_list num_threads
        ∧ (i, h) ∈ w)
  ↔ fp file_list i = Some h.
Proof.
  intros Hn. unfold hash_workers, calculate_hash_values.
  rewrite (elem_of_round_robin
             (λ i, match file_list !! i with
                   | None => []
                   | Some f =>
                       match imread_phash f with
                       | None => []
                       | Some current_hash => [(i, current_hash)]
                       end
                   end)) by done.
  unfold fingerprint. split.
  - intros (i' & Hi' & Hin). destruct (file_list !! i') as [f|] eqn:Ef;
      [|by apply elem_of_nil in Hin].
    destruct (imread_phash f) eqn:Eh; [|by apply elem_of_nil in Hin].
    apply list_elem_of_singleton in Hin. simplify_eq. by rewrite Ef.
  - intros Hfp. exists i. destruct (file_list !! i) as [f|] eqn:Ef; [|done].
    split; [by eapply lookup_lt_Some|]. simpl in Hfp. rewrite Hfp.
    by apply list_elem_of_singleton.
Qed.

(** The map of hash values holds the fingerprint of every image that
    decodes, whatever the number of workers and the schedule. *)
Lemma hash_values_of_lookup file_list num_threads sched i :
  0 < num_threads →
  hash_values_of Mat imread_phash file_list num_threads sched !! i
  = fp file_list i.
Proof.
  intros Hn. unfold hash_values_of.
  rewrite (foldl_insert_hash_lookup (fp file_list)).
  - rewrite lookup_empty. case_decide as Hin; [done|].
    destruct (fp file_list i) as [h|] eqn:E; [|done].
    destruct Hin. apply list_elem_of_fmap. exists (i, h). split; [done|].
    by apply elem_of_schedule, elem_of_map_hash_workers.
  - intros [k h] Hin. by apply elem_of_schedule, elem_of_map_hash_workers in Hin.
Qed.

Lemma hash_values_of_indep file_list n1 n2 s1 s2 :
  0 < n1 → 0 < n2 →
  hash_values_of Mat imread_phash file_list n1 s1
  = hash_values_of Mat imread_phash file_list n2 s2.
Proof.
  intros. apply map_eq. intros i. by rewrite !hash_values_of_lookup.
Qed.

Lemma single_worker_hash_values file_list i :
  foldl (insert_hash Mat) ∅
    (calculate_hash_values Mat imread_phash file_list 0 1) !! i
  = fp file_list i.
Proof.
  rewrite <-(hash_values_of_lookup file_list 1 [] i) by lia.
  unfold hash_values_of. simpl. by rewrite app_nil_r.
Qed.

Lemma fingerprint_lt file_list i h :
  fp file_list i = Some h → i < length file_list.
Proof.
  unfold fingerprint. destruct (file_list !! i) eqn:E; [|done].
  intros _. by eapply lookup_lt_Some.
Qed.
End MapHasherFacts.

(** * The graph of the sequential revision *)

Section ClusterSeqGraph.
Variable Mat : Type.
Variable imread_phash : string → option Mat.
Variable compare : Mat → Mat → Q.

Local Abbreviation fp := (fingerprint Mat imread_phash).
Local Abbreviation image_deltas_of := (ClusterSeq.image_deltas_of Mat compare).

Lemma elem_of_image_deltas_of items k1 k2 d :
  StronglySorted (λ a b : nat * Mat, a.1 < b.1) items →
  ((k1, k2), d) ∈ image_deltas_of items
  ↔ k1 < k2 ∧ ∃ h1 h2, (k1, h1) ∈ items ∧ (k2, h2) ∈ items
                       ∧ d = compare h1 h2.
Proof.
  induction 1 as [|[k h] items _ IH Hk]; simpl.
  - split; [by intros ?%elem_of_nil|].
    by intros (_ & ? & ? & ?%elem_of_nil & _).
  - rewrite Forall_forall in Hk.
    rewrite elem_of_app, IH, list_elem_of_fmap. split.
    + intros [([k' h'] & [= -> -> ->] & Hin)|(? & h1 & h2 & ? & ? & ->)].
      * split; [apply (Hk _ Hin)|]. exists h, h'. split_and!; try done.
        -- left.
        -- by right.
      * split; [done|]. exists h1, h2. split_and!; try done; by right.
    + intros (Hlt & h1 & h2 & [[= -> ->]|H1]%elem_of_cons
                & [[= -> ->]|H2]%elem_of_cons & ->).
      * lia.
      * left. by exists (k2, h2).
      * specialize (Hk _ H1). simpl in Hk. lia.
      * right. split; [done|]. by exists h1, h2.
Qed.

Lemma foldl_fill_lookup (l : list (nat * Mat)) (m : gmap nat (gset nat)) k :
  foldl (λ m i, <[i.1 := ∅]> m) m l !! k
  = if decide (k ∈ l.*1) then Some ∅ else m !! k.
Proof.
  revert m. induction l as [|[i h] l IH]; intros m; [done|].
  rewrite fmap_cons. simpl. rewrite IH.
  destruct (decide (k = i)) as [->|Hne].
  - rewrite lookup_insert_eq. repeat case_decide; try done; set_solver.
  - rewrite lookup_insert_ne by done.
    repeat case_decide; try done; set_solver.
Qed.

Lemma add_neighbour_lookup a b (m : gmap nat (gset nat)) k :
  ClusterSeq.add_neighbour a b m !! k
  = if decide (k = a) then Some ({[b]} ∪ adj m k) else m !! k.
Proof.
  unfold ClusterSeq.add_neighbour, adj. case_decide as Hk.
  - subst. by rewrite lookup_insert_eq.
  - by rewrite lookup_insert_ne.
Qed.

Lemma foldl_similar_is_Some threshold (D : list ((nat * nat) * Q)) m k :
  (∀ a b d, ((a, b), d) ∈ D → is_Some (m !! a) ∧ is_Some (m !! b)) →
  is_Some (foldl (λ m i,
             if Qle_bool i.2 threshold
             then ClusterSeq.add_neighbour i.1.2 i.1.1
                    (ClusterSeq.add_neighbour i.1.1 i.1.2 m)
             else m) m D !! k)
  ↔ is_Some (m !! k).
Proof.
  revert m. induction D as [|[[a b] d] D IH]; intros m HD; simpl; [done|].
  rewrite IH.
  - destruct (Qle_bool d threshold); [|done].
    rewrite !add_neighbour_lookup.
    destruct (HD a b d) as [Ha Hb]; [left|].
    repeat case_decide; subst; try done; split; eauto.
  - intros a' b' d' Hin. destruct (HD a' b' d') as [Ha Hb]; [by right|].
    destruct (Qle_bool d threshold); [|done].
    rewrite !add_neighbour_lookup.
    repeat case_decide; subst; eauto.
Qed.

Lemma foldl_similar_adj threshold (D : list ((nat * nat) * Q)) m i j :
  j ∈ adj (foldl (λ m i,
             if Qle_bool i.2 threshold
             then ClusterSeq.add_neighbour i.1.2 i.1.1
                    (ClusterSeq.add_neighbour i.1.1 i.1.2 m)
             else m) m D) i
  ↔ j ∈ adj m i
    ∨ ∃ d, Qle_bool d threshold = true
           ∧ (((i, j), d) ∈ D ∨ ((j, i), d) ∈ D).
Proof.
  revert m. induction D as [|[[a b] d] D IH]; intros m; simpl.
  - split; [auto|]. intros [?|(? & _ & [?%elem_of_nil|?%elem_of_nil])]; done.
  - rewrite IH. setoid_rewrite elem_of_cons.
    destruct (Qle_bool d threshold) eqn:Ed.
    + unfold adj at 1. rewrite !add_neighbour_lookup.
      unfold adj at 1. rewrite add_neighbour_lookup. fold (adj m i).
      split.
      * intros [Hj|(d' & ? & [?|?])]; [|right; exists d'; auto..].
        repeat case_decide; subst; simpl in *;
          rewrite ?elem_of_union, ?elem_of_singleton in Hj;
          destruct_or?; subst; auto; right; exists d; auto.
      * intros [Hj|(d' & Hd' & [[[= -> -> ->]|?]|[[= -> -> ->]|?]])].
        -- left. repeat case_decide; subst; simpl; set_solver.
        -- left. repeat case_decide; subst; simpl; set_solver.
        -- right. exists d'. auto.
        -- left. repeat case_decide; subst; simpl; set_solver.
        -- right. exists d'. auto.
    + split.
      * intros [?|(d' & ? & [?|?])]; [by left|right; exists d'; auto..].
      * intros [?|(d' & Hd' & [[[= -> -> ->]|?]|[[= -> -> ->]|?]])];
          try congruence; [by left|right; exists d'; auto..].
Qed.

Section Graph.
Variable threshold : Q.
Variable file_list : list string.
Variable num_threads : nat.
Variable sched : list nat.
Hypothesis Hn : 0 < num_threads.

Let g :=
  ClusterSeq.image_similarities_of Mat imread_phash compare threshold
    num_threads file_list sched.

(** The keys of the graph are the ids with a valid fingerprint. *)
Lemma seq_graph_is_Some i : is_Some (g !! i) ↔ is_Some (fp file_list i).
Proof.
  unfold g, ClusterSeq.image_similarities_of,
    ClusterSeq.image_similarities_from.
  set (H := hash_values_of _ _ _ _ _).
  assert (Hfill : ∀ k, is_Some (foldl (λ m i, <[i.1 := ∅]> m)
                                  (∅ : gmap nat (gset nat))
                                  (asc_items H) !! k)
                       ↔ is_Some (fp file_list k)).
  { intros k. rewrite foldl_fill_lookup, lookup_empty, asc_items_fst.
    rewrite <-(hash_values_of_lookup _ _ _ num_threads sched) by done.
    fold H. rewrite <-elem_of_dom, <-(elem_of_asc (dom H)).
    case_decide as Hk; (split; [|by eauto]); [done|by intros [??]]. }
  rewrite foldl_similar_is_Some; [apply Hfill|].
  intros a b d (_ & h1 & h2 & H1%elem_of_asc_items & H2%elem_of_asc_items
                  & _)%elem_of_image_deltas_of;
    [|apply StronglySorted_asc_items].
  unfold H in H1, H2. rewrite hash_values_of_lookup in H1, H2 by done.
  rewrite !Hfill, H1, H2. eauto.
Qed.

(** Two ids are neighbours exactly when the images are similar. *)
Lemma seq_graph_adj i j :
  j ∈ adj g i ↔ similar Mat imread_phash compare threshold file_list i j.
Proof.
  unfold g, ClusterSeq.image_similarities_of,
    ClusterSeq.image_similarities_from.
  set (H := hash_values_of _ _ _ _ _).
  rewrite foldl_similar_adj.
  assert (Hfill : adj (foldl (λ m i, <[i.1 := ∅]> m)
                         (∅ : gmap nat (gset nat)) (asc_items H)) i
                  = ∅).
  { unfold adj. rewrite foldl_fill_lookup, lookup_empty.
    by case_decide. }
  rewrite Hfill.
  assert (HD : ∀ a b d, ((a, b), d) ∈ image_deltas_of (asc_items H)
            ↔ a < b ∧ ∃ h1 h2, fp file_list a = Some h1
                               ∧ fp file_list b = Some h2
                               ∧ d = compare h1 h2).
  { intros a b d.
    rewrite elem_of_image_deltas_of by apply StronglySorted_asc_items.
    setoid_rewrite elem_of_asc_items. unfold H.
    by setoid_rewrite (hash_values_of_lookup _ _ _ num_threads sched _ Hn). }
  setoid_rewrite HD. unfold similar, within. split.
  - intros [?%not_elem_of_empty|(d & Hd & [(? & h1 & h2 & ? & ? & ->)
                                          |(? & h1 & h2 & ? & ? & ->)])];
      [done|left|right]; split; try done; by exists h1, h2.
  - intros [(? & h1 & h2 & ? & ? & ?)|(? & h1 & h2 & ? & ? & ?)];
      right; exists (compare h1 h2); (split; [done|]);
      [left|right]; split; try done; by exists h1, h2.
Qed.
End Graph.
End ClusterSeqGraph.

(** * The point query *)

(** Printing the ids of the files that satisfy [P], in ascending order, prints
    the files that satisfy [P], in the order of the list. *)
Lemma mapM_lookup_filter (P : string → Prop) `{∀ p, Decision (P p)}
    (pre fl : list string) :
  mapM (λ j, (pre ++ fl) !! j)
    (filter (holds_at P (pre ++ fl)) (seq (length pre) (length fl)))
  = Some (filter P fl).
Proof.
  revert pre. induction fl as [|p fl IH]; intros pre; [done|].
  simpl. specialize (IH (pre ++ [p])).
  rewrite <-app_assoc, length_app, Nat.add_1_r in IH. simpl in IH.
  assert (Hp : (pre ++ p :: fl) !! length pre = Some p).
  { by rewrite lookup_app_r, Nat.sub_diag. }
  rewrite !filter_cons. destruct (decide (P p)) as [HP|HP].
  - rewrite decide_True by (unfold holds_at; by rewrite Hp).
    simpl. rewrite Hp. simpl. by rewrite IH.
  - rewrite decide_False; [done|]. unfold holds_at. by rewrite Hp.
Qed.

Lemma file_names_filter (P : string → Prop) `{∀ p, Decision (P p)}
    (fl : list string) (R : gset nat) :
  (∀ x, x ∈ R ↔ ∃ p, fl !! x = Some p ∧ P p) →
  file_names fl R = Returns (filter P fl).
Proof.
  intros HR. unfold file_names.
  rewrite (asc_filter_seq R (length fl) (holds_at P fl)).
  - by rewrite (mapM_lookup_filter P [] fl).
  - intros x. rewrite HR. unfold holds_at. split.
    + intros (p & Hp & ?). rewrite Hp. split; [by eapply lookup_lt_Some|done].
    + intros [_ Hx]. destruct (fl !! x) as [p|]; [eauto|done].
Qed.

Section SearchFacts.
Variable Mat : Type.
Variable imread_phash : string → option Mat.
Variable compare : Mat → Mat → Q.
Variable stod : string → option Q.

Local Abbreviation fp := (fingerprint Mat imread_phash).
Local Abbreviation matching := (matches Mat imread_phash compare).

Lemma matches_spec threshold search_list p :
  matching threshold search_list p
  ↔ ∃ h q hq, imread_phash p = Some h ∧ q ∈ search_list
              ∧ imread_phash q = Some hq
              ∧ Qle_bool (compare h hq) threshold = true.
Proof.
  unfold matches. destruct (imread_phash p) as [h|]; simpl.
  - rewrite Is_true_true, existsb_exists. split.
    + intros (q & Hq%list_elem_of_In & Hc).
      destruct (imread_phash q) as [hq|] eqn:E; [|done]. by exists h, q, hq.
    + intros (? & q & hq & [= <-] & Hq%list_elem_of_In & E & Hc).
      exists q. by rewrite E.
  - split; [done|]. by intros (? & ? & ? & [=] & _).
Qed.

Lemma elem_of_results_of (H S : gmap nat Mat) threshold x :
  x ∈ ImgSearch.results_of Mat compare H S threshold
  ↔ ∃ h q hq, H !! x = Some h ∧ S !! q = Some hq
              ∧ Qle_bool (compare h hq) threshold = true.
Proof.
  unfold ImgSearch.results_of.
  assert (Hin : ∀ (k : nat) h L (res : gset nat),
    x ∈ foldl (λ results (it2 : nat * Mat),
                 if Qle_bool (compare h it2.2) threshold
                 then {[k]} ∪ results else results) res L
    ↔ x ∈ res ∨ (x = k ∧ ∃ it2, it2 ∈ L
                                ∧ Qle_bool (compare h it2.2) threshold = true)).
  { intros k h L. induction L as [|it2 L IH]; intros res; simpl.
    - split; [auto|]. intros [?|(_ & ? & ?%elem_of_nil & _)]; done.
    - rewrite IH. setoid_rewrite elem_of_cons.
      destruct (Qle_bool (compare h it2.2) threshold) eqn:E.
      + rewrite elem_of_union, elem_of_singleton. split.
        * intros [[->|?]|(-> & it & ? & ?)]; eauto 7.
        * intros [?|(-> & it & [->|?] & ?)]; eauto 7.
      + split.
        * intros [?|(-> & it & ? & ?)]; eauto 7.
        * intros [?|(-> & it & [->|?] & ?)]; eauto 7. congruence. }
  assert (Hout : ∀ L1 (res : gset nat),
    x ∈ foldl (λ results (it1 : nat * Mat),
                 foldl (λ results (it2 : nat * Mat),
                          if Qle_bool (compare it1.2 it2.2) threshold
                          then {[it1.1]} ∪ results else results)
                       results (asc_items S)) res L1
    ↔ x ∈ res ∨ ∃ it1 it2, it1 ∈ L1 ∧ x = it1.1 ∧ it2 ∈ asc_items S
                  ∧ Qle_bool (compare it1.2 it2.2) threshold = true).
  { induction L1 as [|it1 L1 IH]; intros res; simpl.
    - split; [auto|]. intros [?|(? & ? & ?%elem_of_nil & _)]; done.
    - rewrite IH, Hin. setoid_rewrite elem_of_cons. split.
      + intros [[?|(-> & it2 & ? & ?)]|(it & it2 & ? & ? & ? & ?)];
          [by left|right..].
        * exists it1, it2. auto.
        * exists it, it2. auto.
      + intros [?|(it & it2 & [->|?] & -> & ? & ?)]; [by left; left|..].
        * left; right. eauto.
        * right. exists it, it2. auto. }
  rewrite Hout. split.
  - intros [?%not_elem_of_empty|([k h] & [q hq] & H1%elem_of_asc_items & ->
                                   & H2%elem_of_asc_items & ?)]; [done|].
    by exists h, q, hq.
  - intros (h & q & hq & H1 & H2 & ?). right. exists (x, h), (q, hq).
    by rewrite !elem_of_asc_items.
Qed.

(** The query prints the files of the haystack that match, in the order of
    the standard input. *)
Lemma search_output threshold search_list stdin num_threads sched :
  0 < num_threads →
  file_names stdin
    (ImgSearch.results_of Mat compare
       (hash_values_of Mat imread_phash stdin num_threads sched)
       (foldl (insert_hash Mat) ∅
          (calculate_hash_values Mat imread_phash search_list 0 1))
       threshold)
  = Returns (filter (λ p, matching threshold search_list p) stdin).
Proof.
  intros Hn. apply file_names_filter. intros x.
  rewrite elem_of_results_of. setoid_rewrite matches_spec.
  setoid_rewrite (hash_values_of_lookup _ _ _ _ _ _ Hn).
  setoid_rewrite single_worker_hash_values.
  unfold fingerprint. split.
  - intros (h & q & hq & Hx & Hq & Hc).
    destruct (stdin !! x) as [p|]; [|done].
    destruct (search_list !! q) as [pq|] eqn:Epq; [|done].
    exists p. split; [done|]. exists h, pq, hq. split_and!; try done.
    by eapply list_elem_of_lookup_2.
  - intros (p & Hp & h & pq & hq & Hh & [q Hq]%list_elem_of_lookup & Hhq & Hc).
    exists h, q, hq. rewrite Hp, Hq. done.
Qed.
End SearchFacts.

(** * The cluster loop of the sequential revision *)

Lemma not_disjoint_witness (X Y : gset nat) :
  ¬ X ## Y → ∃ z, z ∈ X ∧ z ∈ Y.
Proof.
  rewrite disjoint_intersection_L. intros [z Hz]%set_choose_L.
  exists z. set_solver.
Qed.

Lemma pairwise_disjoint_snoc cs c :
  pairwise_disjoint cs → Forall (λ c', c' ## c) cs →
  pairwise_disjoint (cs ++ [c]).
Proof.
  intros Hcs Hc a b ca cb Hab Ha Hb. rewrite Forall_forall in Hc.
  apply lookup_snoc_Some in Ha as [[? Ha]|[-> <-]];
    apply lookup_snoc_Some in Hb as [[? Hb]|[-> <-]].
  - by eapply Hcs.
  - apply Hc. by eapply list_elem_of_lookup_2.
  - symmetry. apply Hc. by eapply list_elem_of_lookup_2.
  - done.
Qed.

Lemma edge_is_Some g i j : edge g i j → is_Some (g !! i).
Proof.
  unfold edge, adj. destruct (g !! i); [eauto|]. by intros ?%not_elem_of_empty.
Qed.

Lemma edge_adj_nonempty g i j : edge g i j → adj g i ≠ ∅.
Proof. unfold edge. set_solver. Qed.

Lemma adj_nonempty_edge g i : adj g i ≠ ∅ → ∃ j, edge g i j.
Proof. intros H. apply set_choose_L in H as [j Hj]. by exists j. Qed.

Section Symmetric.
Variable g : gmap nat (gset nat).
Hypothesis g_sym : ∀ i j, edge g i j → edge g j i.

Lemma reach_sym i j : rtc (edge g) i j → rtc (edge g) j i.
Proof.
  induction 1 as [|i j k Hij _ IH]; [done|].
  eapply rtc_r; [done|]. by apply g_sym.
Qed.

Lemma reach_adj_nonempty i j :
  rtc (edge g) i j → adj g i ≠ ∅ → adj g j ≠ ∅.
Proof.
  intros [->|(y & _ & Hyj)]%rtc_inv_r Hi; [done|].
  by eapply edge_adj_nonempty, g_sym.
Qed.

Lemma component_eq k k' c c' z :
  component g k c → component g k' c' → z ∈ c → z ∈ c' → c = c'.
Proof.
  intros Hc Hc' Hz%Hc Hz'%Hc'. apply set_eq. intros x.
  rewrite (Hc x), (Hc' x). split; intros Hx.
  - etrans; [exact Hz'|]. etrans; [exact (reach_sym _ _ Hz)|done].
  - etrans; [exact Hz|]. etrans; [exact (reach_sym _ _ Hz')|done].
Qed.

Lemma seq_build_temp_cluster k :
  is_Some (g !! k) →
  ∃ r, ClusterSeq.build_temp_cluster (S (size (graph_ids g))) g {[k]} k
       = Returns r ∧ component g k r.
Proof.
  intros Hk. rewrite build_temp_cluster_seq_eq; [|by eauto using edge_is_Some|done].
  apply build_temp_cluster_reach.
Qed.

Lemma seq_cluster_loop l P st :
  (∀ i, i ∈ l → g !! i.1 = Some i.2) →
  seq_inv g P st →
  ∃ st', foldl (λ acc i,
                  st ← acc;
                  ClusterSeq.cluster_step (S (size (graph_ids g))) g st i)
               (Returns st) l = Returns st'
         ∧ seq_inv g (λ x, P x ∨ x ∈ l.*1) st'.
Proof.
  revert P st. induction l as [|[k s] l IH]; intros P st Hl Hinv.
  - exists st. split; [done|]. destruct Hinv as [H1 H2 H3 H4].
    split; simpl; try done.
    + intros x. rewrite H1. set_solver.
    + intros c (k & ? & ?)%H2. exists k. auto.
    + intros k [?|?%elem_of_nil]; [auto|done].
  - assert (Hk : g !! k = Some s) by (apply (Hl (k, s)); left).
    assert (Hadj : adj g k = s) by (unfold adj; by rewrite Hk).
    assert (Hl' : ∀ i, i ∈ l → g !! i.1 = Some i.2)
      by (intros; apply Hl; by right).
    assert (Hlast : ∀ st', seq_inv g (λ x, (P x ∨ x = k) ∨ x ∈ l.*1) st' →
                           seq_inv g (λ x, P x ∨ x ∈ ((k, s) :: l).*1) st').
    { intros st' [H1 H2 H3 H4]. split; try done.
      - intros x. rewrite H1, fmap_cons, elem_of_cons. simpl. tauto.
      - intros c (k' & ? & ?)%H2. exists k'.
        rewrite fmap_cons, elem_of_cons. simpl. tauto.
      - intros k'. rewrite fmap_cons, elem_of_cons. simpl.
        intros ? ?. apply H3; tauto. }
    destruct Hinv as [H1 H2 H3 H4]. simpl.
    unfold ClusterSeq.cluster_step at 2. simpl. case_decide as Hs.
    + destruct (IH (λ x, P x ∨ x = k) (st.1, {[k]} ∪ st.2) Hl')
        as (st' & -> & Hst'); [|eauto].
      split; simpl; try done.
      * intros x. rewrite elem_of_union, elem_of_singleton, H1.
        split; [intros [->|[? ?]]; split; auto; congruence|].
        intros [[? | ->] ?]; auto.
      * intros c (k' & ? & ?)%H2. exists k'. auto.
      * intros k' [? | ->] ?; [auto|congruence].
    + destruct (seq_build_temp_cluster k) as (r & -> & Hr); [eauto|]. simpl.
      assert (Hkr : k ∈ r) by (by apply Hr).
      destruct (unify r st.1) as [merged|] eqn:Hu.
      * apply unify_Some in Hu as (pre & c & post & Hst & _ & Hc & ->).
        assert (Hcin : c ∈ st.1) by (rewrite Hst; set_solver).
        destruct (H2 c Hcin) as (k' & ? & ? & Hck').
        apply not_disjoint_witness in Hc as [z [Hzc Hzr]].
        assert (c = r) as -> by eauto using component_eq.
        replace (r ∪ r) with r by set_solver. rewrite <-Hst.
        destruct (IH (λ x, P x ∨ x = k) (st.1, st.2) Hl')
          as (st' & -> & Hst'); [|eauto].
        split; simpl; try done.
        -- intros x. rewrite H1. split; [intros [? ?]; auto|].
           intros [[? | ->] ?]; [auto|congruence].
        -- intros c (k'' & ? & ?)%H2. exists k''. auto.
        -- intros k'' [? | ->] ?; [auto|]. eauto.
      * apply unify_None in Hu.
        destruct (IH (λ x, P x ∨ x = k) (st.1 ++ [r], st.2) Hl')
          as (st' & -> & Hst'); [|eauto].
        split; simpl.
        -- intros x. rewrite H1. split; [intros [? ?]; auto|].
           intros [[? | ->] ?]; [auto|congruence].
        -- intros c [(k'' & ? & ?)%H2 | ->%list_elem_of_singleton]%elem_of_app.
           ++ exists k''. auto.
           ++ exists k. split_and!; [auto|congruence|done].
        -- intros k'' [Hk'' | ->] ?.
           ++ destruct (H3 k'' Hk'') as (c & ? & ?); [done|].
              exists c. split; [set_solver|done].
           ++ exists r. split; [set_solver|done].
        -- by apply pairwise_disjoint_snoc.
Qed.

(** The clusters of a symmetric graph are its components with more than one
    member, each once; the unique images are the keys without neighbour. *)
Lemma seq_image_clusters_of :
  ∃ st, ClusterSeq.image_clusters_of g = Returns st
        ∧ seq_inv g (λ x, is_Some (g !! x)) st.
Proof.
  destruct (seq_cluster_loop (asc_items g) (λ _, False) ([], ∅))
    as (st & Hst & [H1 H2 H3 H4]).
  - by intros [k s] ?%elem_of_asc_items.
  - split; simpl.
    + set_solver.
    + by intros c ?%elem_of_nil.
    + done.
    + intros a b ca cb _ Ha. by rewrite lookup_nil in Ha.
  - exists st. split; [done|].
    assert (Hkeys : ∀ x, x ∈ (asc_items g).*1 ↔ is_Some (g !! x)).
    { intros x. by rewrite asc_items_fst, elem_of_asc, elem_of_dom. }
    split; try done.
    + intros x. rewrite H1, Hkeys. tauto.
    + intros c (k & ? & ?)%H2. exists k. rewrite <-Hkeys. tauto.
    + intros k ?%Hkeys ?. apply H3; auto.
Qed.
End Symmetric.

(** * The cluster loop of the threaded revision: what it guarantees *)

Section ThreadedLoop.
Variable g : gmap nat (gset nat).

Lemma thr_inv_step P cs k r :
  thr_inv g P cs → component g k r →
  thr_inv g (λ x, P x ∨ x = k) (default (cs ++ [r]) (unify r cs)).
Proof.
  intros [H1 H2] Hr.
  pose proof (unify_grow r cs) as (G1 & (cr & Hcr & Hrcr) & G3).
  assert (Hconn : ∀ x y, x ∈ r → y ∈ r → rtsc (edge g) x y).
  { intros x y Hx%Hr%rtc_rtsc_rl Hy%Hr%rtc_rtsc_rl.
    etrans; [symmetry; exact Hx|exact Hy]. }
  split.
  - intros c x y [Hc|[-> |(c0 & Hc0 & Hne & ->)]]%G3 Hx Hy.
    + by eapply H1.
    + by apply Hconn.
    + apply not_disjoint_witness in Hne as (z & Hz0 & Hzr).
      assert (∀ a, a ∈ c0 ∪ r → rtsc (edge g) a z) as Hall.
      { intros a [?|?]%elem_of_union; [by eapply H1|by apply Hconn]. }
      etrans; [by apply Hall|symmetry; by apply Hall].
  - intros k' x [Hk' | ->] Hreach.
    + destruct (H2 k' x Hk' Hreach) as (c & Hc & ? & ?).
      destruct (G1 c Hc) as (c' & ? & ?). exists c'. set_solver.
    + exists cr. split_and!; [done|apply Hrcr; by apply Hr..].
Qed.

Lemma thr_cluster_loop l P cs :
  (∀ i, i ∈ l → g !! i.1 = Some i.2) →
  thr_inv g P cs →
  ∃ cs', foldl (λ acc i,
                  image_clusters ← acc;
                  Cluster.cluster_step (S (size (graph_ids g))) g
                    image_clusters i)
               (Returns cs) l = Returns cs'
         ∧ thr_inv g (λ x, P x ∨ (x ∈ l.*1 ∧ adj g x ≠ ∅)) cs'.
Proof.
  revert P cs. induction l as [|[k s] l IH]; intros P cs Hl Hinv.
  - exists cs. split; [done|]. destruct Hinv as [H1 H2]. split; [done|].
    intros k x [?|[?%elem_of_nil _]]; [auto|done].
  - assert (Hk : g !! k = Some s) by (apply (Hl (k, s)); left).
    assert (Hadj : adj g k = s) by (unfold adj; by rewrite Hk).
    assert (Hl' : ∀ i, i ∈ l → g !! i.1 = Some i.2)
      by (intros; apply Hl; by right).
    assert (Hnext : ∀ new,
      thr_inv g (λ x, P x ∨ (x = k ∧ adj g x ≠ ∅)) new →
      ∃ cs', foldl (λ acc i,
                      image_clusters ← acc;
                      Cluster.cluster_step (S (size (graph_ids g))) g
                        image_clusters i)
                   (Returns new) l = Returns cs'
             ∧ thr_inv g (λ x, P x ∨ (x ∈ ((k, s) :: l).*1 ∧ adj g x ≠ ∅))
                 cs').
    { intros new Hnew. destruct (IH _ new Hl' Hnew) as (cs' & -> & [K1 K2]).
      exists cs'. split; [done|]. split; [done|]. intros k' x Hk'. apply K2.
      rewrite fmap_cons, elem_of_cons in Hk'. simpl in Hk'. tauto. }
    simpl. unfold Cluster.cluster_step at 2. simpl. case_decide as Hs.
    + apply Hnext. destruct Hinv as [H1 H2]. split; [done|].
      intros k' x [?|[-> ?]]; [auto|congruence].
    + destruct (build_temp_cluster_reach g k) as (r & -> & Hr). simpl.
      pose proof (thr_inv_step P cs k r Hinv Hr) as [K1 K2].
      destruct (unify r cs) as [merged|]; simpl in *; apply Hnext;
        (split; [done|]); intros k' x [?|[-> _]]; auto.
Qed.

(** The clusters of the threaded revision: each is connected when the
    direction of the stored edges is ignored, every key shares a cluster with
    all that the stored edges reach from it, and the members are ids of the
    graph. *)
Lemma thr_image_clusters_of :
  ∃ cs, Cluster.image_clusters_of g = Returns cs
        ∧ thr_inv g (λ x, adj g x ≠ ∅) cs
        ∧ Forall (λ c, c ⊆ graph_ids g) cs.
Proof.
  destruct (thr_cluster_loop (asc_items g) (λ _, False) [])
    as (cs & Hcs & [H1 H2]).
  - by intros [k s] ?%elem_of_asc_items.
  - split; [by intros c x y ?%elem_of_nil|done].
  - exists cs. split; [done|]. split.
    + split; [done|]. intros k x Hk. apply H2. right. split; [|done].
      rewrite asc_items_fst, elem_of_asc, elem_of_dom.
      apply adj_nonempty_edge in Hk as [j Hj]. by eapply edge_is_Some.
    + destruct (image_clusters_of_ids g) as (cs' & Hcs' & ?).
      unfold Cluster.image_clusters_of in Hcs'. congruence.
Qed.
End ThreadedLoop.

(** * Whole runs *)

Section Runs.
Variable Mat : Type.
Variable imread_phash : string → option Mat.
Variable compare : Mat → Mat → Q.
Variable stod : string → option Q.

Local Abbreviation fp := (fingerprint Mat imread_phash).
Local Abbreviation within_ := (within Mat imread_phash compare).
Local Abbreviation similar_ := (similar Mat imread_phash compare).
Local Abbreviation connected_ := (connected Mat imread_phash compare).

Lemma similar_sym threshold file_list i j :
  similar_ threshold file_list i j → similar_ threshold file_list j i.
Proof. unfold similar. tauto. Qed.

Lemma similar_valid threshold file_list i j :
  similar_ threshold file_list i j → is_Some (fp file_list i).
Proof. intros [[_ (? & ? & ? & ? & _)]|[_ (? & ? & ? & ? & _)]]; eauto. Qed.

Lemma similar_mono t1 t2 file_list i j :
  (t1 <= t2)%Q → similar_ t1 file_list i j → similar_ t2 file_list i j.
Proof.
  intros Ht.
  assert (∀ a b, within_ t1 file_list a b → within_ t2 file_list a b).
  { intros a b (ha & hb & ? & ? & Hc). exists ha, hb. split_and!; try done.
    apply Qle_bool_iff. apply Qle_bool_iff in Hc. by eapply Qle_trans. }
  unfold similar. intros [[? ?]|[? ?]]; eauto.
Qed.

(** ** The threaded revision *)

Section Threaded.
Variable threshold : Q.
Variable file_list : list string.
Variable num_threads : nat.
Variables sched_hash sched_pairs : list nat.
Hypothesis Hn : 0 < num_threads.

Let g :=
  Cluster.image_similarities_of Mat imread_phash compare threshold
    num_threads file_list sched_hash sched_pairs.

Lemma threaded_graph_ids x :
  x ∈ graph_ids g → ∃ y, similar_ threshold file_list x y.
Proof.
  unfold g. intros [Hx|[i Hx]]%elem_of_graph_ids.
  - apply image_similarities_of_is_Some in Hx as (j & ? & ?); [|done].
    exists j. by left.
  - apply image_similarities_of_adj in Hx as [? ?]; [|done].
    exists i. by right.
Qed.

Lemma threaded_run_Returns :
  ∃ cs, Cluster.run Mat imread_phash compare threshold num_threads
          file_list sched_hash sched_pairs = Returns cs
        ∧ Forall (λ c, ∀ x, x ∈ c → ∃ y, similar_ threshold file_list x y)
            cs.
Proof.
  destruct (image_clusters_of_ids g) as (cs & Hcs & Hids).
  exists cs. split; [done|]. eapply Forall_impl; [done|].
  intros c Hc x Hx. by apply threaded_graph_ids, Hc.
Qed.
End Threaded.

Lemma threaded_main_Returns flag s hc file_list s1 s2 :
  ∃ out, Cluster.main Mat imread_phash compare stod flag s hc file_list
           s1 s2 = Returns out.
Proof.
  unfold Cluster.main.
  destruct (threaded_run_Returns
              (Cluster.threshold_of stod flag s) file_list
              (num_threads_of hc) s1 s2 (num_threads_of_pos hc))
    as (cs & -> & Hcs).
  simpl. apply print_clusters_Returns. eapply Forall_impl; [done|].
  intros c Hc x [y Hy%similar_valid]%Hc. destruct Hy as [h Hh].
  by eapply fingerprint_lt.
Qed.

Lemma threaded_run_indep threshold file_list n1 n2 s1 s1' s2 s2' :
  0 < n1 → 0 < n2 →
  Cluster.run Mat imread_phash compare threshold n1 file_list s1 s1'
  = Cluster.run Mat imread_phash compare threshold n2 file_list s2 s2'.
Proof.
  intros. unfold Cluster.run.
  by rewrite (image_similarities_of_indep _ _ _ _ _ n1 n2 s1 s1' s2 s2').
Qed.

Lemma threaded_main_indep flag s file_list hc1 hc2 s1 s1' s2 s2' :
  Cluster.main Mat imread_phash compare stod flag s hc1 file_list s1 s1'
  = Cluster.main Mat imread_phash compare stod flag s hc2 file_list s2 s2'.
Proof.
  unfold Cluster.main.
  by rewrite (threaded_run_indep _ _ (num_threads_of hc1) (num_threads_of hc2)
                s1 s1' s2 s2') by apply num_threads_of_pos.
Qed.

(** ** The sequential revision *)

Section Sequential.
Variable threshold : Q.
Variable file_list : list string.
Variable num_threads : nat.
Variable sched : list nat.
Hypothesis Hn : 0 < num_threads.

Let g :=
  ClusterSeq.image_similarities_of Mat imread_phash compare threshold
    num_threads file_list sched.

Lemma seq_key_valid x : is_Some (g !! x) ↔ is_Some (fp file_list x).
Proof. by apply seq_graph_is_Some. Qed.

Lemma seq_graph_sym i j : edge g i j → edge g j i.
Proof.
  unfold edge, g. rewrite !seq_graph_adj by done. apply similar_sym.
Qed.

Lemma seq_graph_reach x y :
  rtc (edge g) x y ↔ connected_ threshold file_list x y.
Proof.
  unfold connected.
  split; apply rtc_subrel; intros a b; unfold edge, g;
    by rewrite seq_graph_adj.
Qed.

Lemma seq_run_inv :
  ∃ st, ClusterSeq.run Mat imread_phash compare threshold num_threads
          file_list sched = Returns st
        ∧ seq_inv g (λ x, is_Some (fp file_list x)) st.
Proof.
  destruct (seq_image_clusters_of g seq_graph_sym) as (st & Hst & [H1 H2 H3 H4]).
  exists st. split; [done|].
  split; try done.
  - intros x. by rewrite H1, seq_key_valid.
  - intros c (k & ? & ?)%H2. exists k. by rewrite <-seq_key_valid.
  - intros k Hk. apply H3. by rewrite seq_key_valid.
Qed.

(** The clusters and the unique images partition the ids with a valid
    fingerprint. *)
Lemma seq_clusters_partition :
  ∃ st, ClusterSeq.run Mat imread_phash compare threshold num_threads
          file_list sched = Returns st
        ∧ pairwise_disjoint st.1
        ∧ (∀ c, c ∈ st.1 → c ## st.2)
        ∧ (∀ x, (x ∈ st.2 ∨ ∃ c, c ∈ st.1 ∧ x ∈ c)
                ↔ is_Some (fp file_list x)).
Proof.
  destruct seq_run_inv as (st & Hst & [H1 H2 H3 H4]).
  exists st. split_and!; try done.
  - intros c (k & _ & Hk & Hc)%H2. apply elem_of_disjoint.
    intros x Hx%Hc [_ Hx']%H1.
    by apply (reach_adj_nonempty g seq_graph_sym k x).
  - intros x. split.
    + intros [[? _]%H1|(c & (k & Hk & Hadj & Hc)%H2 & Hx%Hc)]; [done|].
      apply (reach_adj_nonempty g seq_graph_sym k x) in Hadj; [|done].
      apply seq_key_valid.
      apply adj_nonempty_edge in Hadj as [j Hj].
      by eapply edge_is_Some.
    + intros Hx. destruct (decide (adj g x = ∅)) as [He|Hne].
      * left. by apply H1.
      * right. by apply H3.
Qed.

(** Two different images are in one cluster exactly when a path of similar
    images connects them. *)
Lemma seq_clusters_connected :
  ∃ st, ClusterSeq.run Mat imread_phash compare threshold num_threads
          file_list sched = Returns st
        ∧ ∀ x y, x ≠ y →
            ((∃ c, c ∈ st.1 ∧ x ∈ c ∧ y ∈ c)
             ↔ connected_ threshold file_list x y).
Proof.
  destruct seq_run_inv as (st & Hst & [H1 H2 H3 H4]).
  exists st. split; [done|]. intros x y Hxy.
  rewrite <-seq_graph_reach. split.
  - intros (c & (k & _ & _ & Hc)%H2 & Hx%Hc & Hy%Hc).
    etrans; [|done]. by apply reach_sym; [apply seq_graph_sym|].
  - intros Hreach.
    assert (Hx : ∃ j, edge g x j).
    { apply rtc_inv in Hreach as [?|(j & ? & _)]; [done|eauto]. }
    destruct Hx as [j Hj].
    destruct (H3 x) as (c & Hc & Hxc).
    { apply seq_key_valid. by eapply edge_is_Some. }
    { exact (edge_adj_nonempty g x j Hj). }
    exists c. split_and!; try done.
    destruct (H2 c Hc) as (k & _ & _ & Hk). apply Hk.
    etrans; [apply Hk, Hxc|done].
Qed.
End Sequential.

(** Every cluster at a threshold lies within a cluster at a higher one. *)
Lemma seq_clusters_refine t1 t2 file_list num_threads sched st1 st2 :
  0 < num_threads → (t1 <= t2)%Q →
  ClusterSeq.run Mat imread_phash compare t1 num_threads file_list sched
  = Returns st1 →
  ClusterSeq.run Mat imread_phash compare t2 num_threads file_list sched
  = Returns st2 →
  ∀ c, c ∈ st1.1 → ∃ c', c' ∈ st2.1 ∧ c ⊆ c'.
Proof.
  intros Hn Ht Hr1 Hr2 c Hc.
  destruct (seq_run_inv t1 file_list num_threads sched Hn)
    as (? & Hr1' & [_ H2 _ _]).
  destruct (seq_run_inv t2 file_list num_threads sched Hn)
    as (? & Hr2' & [_ K2 K3 _]).
  rewrite Hr1 in Hr1'. rewrite Hr2 in Hr2'. simplify_eq.
  destruct (H2 c Hc) as (k & Hk & Hadj & Hck).
  assert (Hmono : ∀ x y,
    rtc (edge (ClusterSeq.image_similarities_of Mat imread_phash compare t1
                 num_threads file_list sched)) x y →
    rtc (edge (ClusterSeq.image_similarities_of Mat imread_phash compare t2
                 num_threads file_list sched)) x y).
  { intros a b. apply rtc_subrel. intros i j. unfold edge.
    rewrite !seq_graph_adj by done. by apply similar_mono. }
  destruct (K3 k Hk) as (c' & Hc' & Hkc').
  { apply adj_nonempty_edge in Hadj as [j Hj].
    apply (edge_adj_nonempty _ k j). unfold edge in *.
    rewrite seq_graph_adj in Hj by done. rewrite seq_graph_adj by done.
    by eapply similar_mono. }
  exists c'. split; [done|]. intros z Hz%Hck%Hmono.
  destruct (K2 c' Hc') as (k' & _ & _ & Hk'). apply Hk'.
  etrans; [apply Hk', Hkc'|done].
Qed.
End Runs.

Section ThreadedClusters.
Variable Mat : Type.
Variable imread_phash : string → option Mat.
Variable compare : Mat → Mat → Q.
Variable threshold : Q.
Variable file_list : list string.
Variable num_threads : nat.
Variables sched_hash sched_pairs : list nat.
Hypothesis Hn : 0 < num_threads.

Let g :=
  Cluster.image_similarities_of Mat imread_phash compare threshold
    num_threads file_list sched_hash sched_pairs.

Lemma threaded_edge i j :
  edge g i j ↔ i < j ∧ within Mat imread_phash compare threshold file_list i j.
Proof. unfold edge, g. by apply image_similarities_of_adj. Qed.

Lemma threaded_graph_connected x y :
  rtsc (edge g) x y
  ↔ connected Mat imread_phash compare threshold file_list x y.
Proof.
  unfold rtsc, connected, similar.
  split; apply rtc_subrel; intros a b; unfold sc; rewrite !threaded_edge; tauto.
Qed.

(** What the clusters of the threaded revision do satisfy: the members of a
    cluster are connected by paths of similar images, two images within the
    threshold of each other share a cluster, and the images that occur in a
    cluster are those that have a similar partner. *)
Lemma threaded_clusters_sound_cover :
  ∃ cs, Cluster.run Mat imread_phash compare threshold num_threads file_list
          sched_hash sched_pairs = Returns cs
        ∧ (∀ c x y, c ∈ cs → x ∈ c → y ∈ c →
             connected Mat imread_phash compare threshold file_list x y)
        ∧ (∀ i j, similar Mat imread_phash compare threshold file_list i j →
             ∃ c, c ∈ cs ∧ i ∈ c ∧ j ∈ c)
        ∧ (∀ x, (∃ c, c ∈ cs ∧ x ∈ c)
                ↔ ∃ y, similar Mat imread_phash compare threshold file_list
                         x y).
Proof.
  destruct (thr_image_clusters_of g) as (cs & Hcs & [H1 H2] & Hids).
  exists cs. split; [done|].
  assert (Hpair : ∀ i j, edge g i j → ∃ c, c ∈ cs ∧ i ∈ c ∧ j ∈ c).
  { intros i j Hij. apply H2; [by eapply edge_adj_nonempty|by apply rtc_once]. }
  assert (Hsim : ∀ i j,
    similar Mat imread_phash compare threshold file_list i j →
    ∃ c, c ∈ cs ∧ i ∈ c ∧ j ∈ c).
  { intros i j [Hij%threaded_edge|Hji%threaded_edge].
    - by apply Hpair.
    - destruct (Hpair j i Hji) as (c & ? & ? & ?). by exists c. }
  split_and!; [|done|].
  - intros c x y Hc Hx Hy. apply threaded_graph_connected. by eapply H1.
  - intros x. split.
    + intros (c & Hc & Hx). rewrite Forall_forall in Hids.
      by apply (threaded_graph_ids Mat imread_phash compare threshold
                  file_list num_threads sched_hash sched_pairs Hn), (Hids c Hc).
    + intros [y (c & ? & ? & _)%Hsim]. by exists c.
Qed.
End ThreadedClusters.

Section MoreRuns.
Variable Mat : Type.
Variable imread_phash : string → option Mat.
Variable compare : Mat → Mat → Q.
Variable stod : string → option Q.

Lemma seq_main_Returns show_unique flag s hc file_list sched :
  ∃ out, ClusterSeq.main Mat imread_phash compare stod show_unique flag s hc
           file_list sched = Returns out.
Proof.
  unfold ClusterSeq.main.
  destruct (seq_clusters_partition Mat imread_phash compare
              (ClusterSeq.threshold_of stod flag s) file_list
              (num_threads_of hc) sched (num_threads_of_pos hc))
    as (st & -> & _ & _ & Hst).
  simpl.
  assert (Hlt : ∀ x, x ∈ st.2 ∨ (∃ c, c ∈ st.1 ∧ x ∈ c) →
                     x < length file_list).
  { intros x [h Hh]%Hst. by eapply fingerprint_lt. }
  destruct (print_clusters_Returns file_list st.1) as [cs Hcs].
  { apply Forall_forall. intros c Hc x Hx. apply Hlt. eauto. }
  change (ClusterSeq.print_clusters file_list st.1)
    with (Cluster.print_clusters file_list st.1).
  rewrite Hcs. simpl. destruct show_unique; simpl; [|by eexists].
  destruct (file_names_Returns file_list st.2) as [us ->]; [auto|].
  simpl. by eexists.
Qed.

Lemma seq_run_indep threshold file_list n1 n2 s1 s2 :
  0 < n1 → 0 < n2 →
  ClusterSeq.run Mat imread_phash compare threshold n1 file_list s1
  = ClusterSeq.run Mat imread_phash compare threshold n2 file_list s2.
Proof.
  intros. unfold ClusterSeq.run, ClusterSeq.image_similarities_of.
  by rewrite (hash_values_of_indep _ _ _ n1 n2 s1 s2).
Qed.

Lemma search_main_query argv stdin hc sched :
  ¬ (length argv = 1 ∨ (1 ≤ length argv ∧ argv !! 1 = Some "-h")) →
  ImgSearch.main Mat imread_phash compare stod argv stdin hc sched
  = Returns
      (filter (λ p, matches Mat imread_phash compare
                      (ImgSearch.threshold_of stod argv).1
                      (drop (ImgSearch.threshold_of stod argv).2 argv) p)
         stdin).
Proof.
  intros Hhelp. unfold ImgSearch.main. rewrite decide_False by done.
  destruct (ImgSearch.threshold_of stod argv) as [threshold skip_argv]. simpl.
  apply search_output, num_threads_of_pos.
Qed.
End MoreRuns.

(** * The work of a phase is divided among the workers *)

Lemma concat_fmap_app {A B} (f g : B → list A) (l : list B) :
  concat ((λ t, f t ++ g t) <$> l) ≡ₚ concat (f <$> l) ++ concat (g <$> l).
Proof.
  induction l as [|t l IH]; simpl; [done|].
  rewrite IH, <-!app_assoc. f_equiv.
  rewrite !app_assoc. f_equiv. apply Permutation_app_comm.
Qed.

Lemma concat_one_worker {A} (x : list A) (k a n : nat) :
  a ≤ k < a + n →
  concat ((λ t, if decide (k ≠ t) then [] else x) <$> seq a n) = x.
Proof.
  revert a. induction n as [|n IH]; intros a Hk; [lia|]. simpl.
  case_decide as Hka.
  - simpl. apply IH. lia.
  - assert (k = a) as -> by (destruct (decide (k = a)); [done|by destruct Hka]).
    clear Hka IH Hk.
    assert (Hrest : ∀ b, a < b →
      concat ((λ t, if decide (a ≠ t) then [] else x) <$> seq b n) = []).
    { clear. induction n as [|n IH]; intros b Hb; simpl; [done|].
      rewrite decide_True by lia. simpl. apply IH. lia. }
    rewrite Hrest by lia. apply app_nil_r.
Qed.

(** Worker [t] of [n] takes the indices [i] with [i mod n = t]: the steps of
    all workers together are the steps of a single loop over the indices,
    each once. *)
Lemma round_robin_Permutation {A} (body : nat → list A) (len n : nat) :
  0 < n →
  concat ((λ t, flat_map (λ i, if decide (i mod n ≠ t) then [] else body i)
                  (seq 0 len)) <$> seq 0 n)
  ≡ₚ flat_map body (seq 0 len).
Proof.
  intros Hn. induction len as [|len IH].
  - simpl. induction (seq 0 n) as [|t l IHl]; [done|]. simpl. done.
  - assert (E :
      ((λ t, flat_map (λ i, if decide (i mod n ≠ t) then [] else body i)
               (seq 0 (S len))) <$> seq 0 n)
      = ((λ t, flat_map (λ i, if decide (i mod n ≠ t) then [] else body i)
                 (seq 0 len)
               ++ (if decide (len mod n ≠ t) then [] else body len))
           <$> seq 0 n)).
    { apply list_fmap_ext. intros _ t _. rewrite seq_S, flat_map_app. simpl.
      by rewrite app_nil_r. }
    rewrite E, concat_fmap_app, IH, concat_one_worker.
    + rewrite seq_S, flat_map_app. simpl. by rewrite app_nil_r.
    + split; [lia|]. simpl. apply Nat.mod_upper_bound. lia.
Qed.

(** Which worker a step belongs to. *)
Lemma round_robin_owner {A} (body : nat → list A) (len n t : nat) (x : A)
    (w : list A) :
  ((λ t, flat_map (λ i, if decide (i mod n ≠ t) then [] else body i)
           (seq 0 len)) <$> seq 0 n) !! t = Some w →
  x ∈ w → ∃ i, i < len ∧ i mod n = t ∧ x ∈ body i.
Proof.
  rewrite list_lookup_fmap. intros Hw Hx.
  destruct (seq 0 n !! t) as [t'|] eqn:Et; [|done]. simpl in Hw.
  apply lookup_seq in Et as [-> _]. simplify_eq/=.
  apply elem_of_flat_map in Hx as (i & Hi%elem_of_seq & Hx).
  case_decide as Hm; [by apply elem_of_nil in Hx|].
  exists i. split_and!; [lia| |done].
  destruct (decide (i mod n = t)); [done|by destruct Hm].
Qed.

Lemma NoDup_flat_map {A B} (f : A → list B) (l : list A) :
  NoDup l → (∀ x, x ∈ l → NoDup (f x)) →
  (∀ x1 x2 y, x1 ∈ l → x2 ∈ l → y ∈ f x1 → y ∈ f x2 → x1 = x2) →
  NoDup (flat_map f l).
Proof.
  induction 1 as [|x l Hx Hl IH]; intros Hf Hinj; simpl; [constructor|].
  apply NoDup_app. split_and!.
  - apply Hf. left.
  - intros y Hy (x' & Hx' & Hy')%elem_of_flat_map.
    assert (x = x') as <- by (eapply Hinj; [left|by right|done..]). done.
  - apply IH.
    + intros; apply Hf; by right.
    + intros x1 x2 y ? ?. apply Hinj; by right.
Qed.

Lemma fmap_flat_map_single {A B} (f : B → A) (body : A → list B)
    (l : list A) :
  (∀ i, i ∈ l → ∃ v, body i = [v] ∧ f v = i) → f <$> flat_map body l = l.
Proof.
  induction l as [|i l IH]; intros Hl; simpl; [done|].
  destruct (Hl i) as (v & -> & Hv); [left|]. simpl. rewrite Hv. f_equal.
  apply IH. intros; apply Hl; by right.
Qed.

Section Partition.
Variable Mat : Type.
Variable imread_phash : string → option Mat.
Variable compare : Mat → Mat → Q.

Lemma hash_stores_once file_list num_threads tr :
  0 < num_threads →
  interleaving (Cluster.hash_workers Mat imread_phash file_list num_threads)
    tr →
  tr.*1 ≡ₚ seq 0 (length file_list).
Proof.
  intros Hn Htr. rewrite (interleaving_Permutation _ _ Htr).
  unfold Cluster.hash_workers, Cluster.calculate_hash_values.
  rewrite (round_robin_Permutation
             (λ i, match file_list !! i with
                   | None => []
                   | Some f =>
                       match imread_phash f with
                       | None => [(i, None)]
                       | Some current_hash => [(i, Some current_hash)]
                       end
                   end)) by done.
  rewrite fmap_flat_map_single; [done|].
  intros i Hi%elem_of_seq.
  destruct (lookup_lt_is_Some_2 file_list i) as [f ->]; [lia|].
  destruct (imread_phash f); eauto.
Qed.

Lemma hash_store_owner file_list num_threads t w i v :
  Cluster.hash_workers Mat imread_phash file_list num_threads !! t = Some w →
  (i, v) ∈ w → i mod num_threads = t.
Proof.
  unfold Cluster.hash_workers, Cluster.calculate_hash_values.
  intros Hw Hin.
  destruct (round_robin_owner _ _ _ _ _ _ Hw Hin) as (i' & _ & <- & Hi').
  destruct (file_list !! i') as [f|]; [|by apply elem_of_nil in Hi'].
  destruct (imread_phash f); apply list_elem_of_singleton in Hi';
    by simplify_eq.
Qed.

Lemma pair_inserts_once hash_list threshold num_threads tr :
  0 < num_threads →
  interleaving
    (Cluster.pair_workers Mat compare hash_list threshold num_threads) tr →
  NoDup tr.
Proof.
  intros Hn Htr. rewrite (interleaving_Permutation _ _ Htr).
  unfold Cluster.pair_workers, Cluster.calculate_similar_pairs.
  rewrite (round_robin_Permutation
    (λ i, match hash_list !! i with
          | Some (Some hi) =>
              flat_map (λ j,
                match hash_list !! j with
                | Some (Some hj) =>
                    if Qle_bool (compare hi hj) threshold then [(i, j)]
                    else []
                | _ => []
                end)
                (seq (i + 1) (length hash_list - (i + 1)))
          | _ => []
          end)) by done.
  assert (Hfst : ∀ i (y : nat * nat),
    y ∈ match hash_list !! i with
        | Some (Some hi) =>
            flat_map (λ j,
              match hash_list !! j with
              | Some (Some hj) =>
                  if Qle_bool (compare hi hj) threshold then [(i, j)]
                  else []
              | _ => []
              end)
              (seq (i + 1) (length hash_list - (i + 1)))
        | _ => []
        end → y.1 = i).
  { intros i y Hy. destruct (hash_list !! i) as [[hi|]|];
      try by apply elem_of_nil in Hy.
    apply elem_of_flat_map in Hy as (j & _ & Hy).
    destruct (hash_list !! j) as [[hj|]|]; try by apply elem_of_nil in Hy.
    destruct (Qle_bool _ _); [|by apply elem_of_nil in Hy].
    by apply list_elem_of_singleton in Hy as ->. }
  apply NoDup_flat_map.
  - apply NoDup_seq.
  - intros i _. destruct (hash_list !! i) as [[hi|]|]; try constructor.
    apply NoDup_flat_map.
    + apply NoDup_seq.
    + intros j _. destruct (hash_list !! j) as [[hj|]|]; try constructor.
      destruct (Qle_bool _ _); [apply NoDup_singleton|constructor].
    + intros j1 j2 y _ _ H1 H2.
      destruct (hash_list !! j1) as [[h1|]|]; try by apply elem_of_nil in H1.
      destruct (hash_list !! j2) as [[h2|]|]; try by apply elem_of_nil in H2.
      destruct (Qle_bool (compare hi h1) threshold);
        [|by apply elem_of_nil in H1].
      destruct (Qle_bool (compare hi h2) threshold);
        [|by apply elem_of_nil in H2].
      apply list_elem_of_singleton in H1, H2. by simplify_eq.
  - intros i1 i2 y _ _ H1%Hfst H2%Hfst. congruence.
Qed.

Lemma pair_insert_owner hash_list threshold num_threads t w i j :
  Cluster.pair_workers Mat compare hash_list threshold num_threads !! t
  = Some w →
  (i, j) ∈ w → i mod num_threads = t.
Proof.
  unfold Cluster.pair_workers, Cluster.calculate_similar_pairs.
  intros Hw Hin.
  destruct (round_robin_owner _ _ _ _ _ _ Hw Hin) as (i' & _ & <- & Hi').
  destruct (hash_list !! i') as [[hi|]|]; try by apply elem_of_nil in Hi'.
  apply elem_of_flat_map in Hi' as (j' & _ & Hy).
  destruct (hash_list !! j') as [[hj|]|]; try by apply elem_of_nil in Hy.
  destruct (Qle_bool _ _); [|by apply elem_of_nil in Hy].
  apply list_elem_of_singleton in Hy. by simplify_eq.
Qed.
End Partition.

Lemma fmap_flat_map_sublist {A B} (f : B → A) (body : A → list B)
    (l : list A) :
  (∀ i, i ∈ l → body i = [] ∨ ∃ v, body i = [v] ∧ f v = i) →
  f <$> flat_map body l `sublist_of` l.
Proof.
  induction l as [|i l IH]; intros Hl; simpl; [done|].
  assert (IH' : f <$> flat_map body l `sublist_of` l).
  { apply IH. intros; apply Hl; by right. }
  destruct (Hl i) as [->|(v & -> & Hv)]; [left| |]; simpl.
  - by constructor.
  - rewrite Hv. by constructor.
Qed.

Section MapPartition.
Variable Mat : Type.
Variable imread_phash : string → option Mat.

(** No id is inserted twice into the map of hash values. *)
Lemma hash_inserts_once file_list num_threads tr :
  0 < num_threads →
  interleaving (hash_workers Mat imread_phash file_list num_threads) tr →
  NoDup tr.*1.
Proof.
  intros Hn Htr. rewrite (interleaving_Permutation _ _ Htr).
  unfold hash_workers, calculate_hash_values.
  rewrite (round_robin_Permutation
             (λ i, match file_list !! i with
                   | None => []
                   | Some f =>
                       match imread_phash f with
                       | None => []
                       | Some current_hash => [(i, current_hash)]
                       end
                   end)) by done.
  eapply sublist_NoDup; [apply (NoDup_seq 0 (length file_list))|].
  apply fmap_flat_map_sublist. intros i _.
  destruct (file_list !! i) as [f|]; [|by left].
  destruct (imread_phash f); eauto.
Qed.

Lemma hash_insert_owner file_list num_threads t w i h :
  hash_workers Mat imread_phash file_list num_threads !! t = Some w →
  (i, h) ∈ w → i mod num_threads = t.
Proof.
  unfold hash_workers, calculate_hash_values. intros Hw Hin.
  destruct (round_robin_owner _ _ _ _ _ _ Hw Hin) as (i' & _ & <- & Hi').
  destruct (file_list !! i') as [f|]; [|by apply elem_of_nil in Hi'].
  destruct (imread_phash f); [|by apply elem_of_nil in Hi'].
  apply list_elem_of_singleton in Hi'. by simplify_eq.
Qed.
End MapPartition.

(** * Inputs with at most one image *)

Lemma filter_length_two {A} (P : A → Prop) `{∀ x, Decision (P x)}
    (l : list A) (i j : nat) (a b : A) :
  i < j → l !! i = Some a → l !! j = Some b → P a → P b →
  2 ≤ length (filter P l).
Proof.
  revert i j. induction l as [|x l IH]; intros i j Hij Hi Hj Ha Hb; [done|].
  destruct i as [|i]; simplify_eq/=.
  - destruct j as [|j]; [lia|]. simpl in Hj.
    rewrite filter_cons_True by done. simpl.
    assert (b ∈ filter P l).
    { apply list_elem_of_filter. split; [done|].
      by eapply list_elem_of_lookup_2. }
    destruct (filter P l); [by apply elem_of_nil in H0|]. simpl. lia.
  - destruct j as [|j]; [lia|]. simpl in Hj.
    assert (2 ≤ length (filter P l)) by (eapply (IH i j); [lia|done..]).
    rewrite filter_cons. case_decide; simpl; lia.
Qed.

Section Few.
Variable Mat : Type.
Variable imread_phash : string → option Mat.
Variable compare : Mat → Mat → Q.

Lemma few_images_not_similar threshold file_list i j :
  length (filter (λ f, is_Some (imread_phash f)) file_list) ≤ 1 →
  ¬ similar Mat imread_phash compare threshold file_list i j.
Proof.
  intros Hfew.
  assert (Hw : ∀ a b, a < b →
            ¬ within Mat imread_phash compare threshold file_list a b).
  { intros a b Hab (ha & hb & Ha & Hb & _). unfold fingerprint in *.
    destruct (file_list !! a) as [fa|] eqn:Ea; [|done].
    destruct (file_list !! b) as [fb|] eqn:Eb; [|done]. simpl in *.
    pose proof (filter_length_two (λ f, is_Some (imread_phash f)) file_list
                  a b fa fb Hab Ea Eb) as H2.
    assert (2 ≤ length (filter (λ f, is_Some (imread_phash f)) file_list))
      by (apply H2; eauto).
    lia. }
  intros [[? ?]|[? ?]]; by eapply Hw.
Qed.
End Few.

(** * What the clusters contain *)

Lemma size_two (c : gset nat) (i j : nat) : i ∈ c → j ∈ c → i ≠ j → 2 ≤ size c.
Proof.
  intros Hi Hj Hne.
  assert (Hsub : ({[i; j]} : gset nat) ⊆ c) by set_solver.
  apply subseteq_size in Hsub.
  rewrite size_union, !size_singleton in Hsub by set_solver. done.
Qed.

(** Every cluster of the threaded loop holds both ends of a stored edge. *)
Lemma cluster_loop_edges g l cs :
  (∀ i, i ∈ l → g !! i.1 = Some i.2) →
  Forall (λ c, ∃ i j, edge g i j ∧ i ∈ c ∧ j ∈ c) cs →
  ∃ cs', foldl (λ acc i,
                  image_clusters ← acc;
                  Cluster.cluster_step (S (size (graph_ids g))) g
                    image_clusters i)
               (Returns cs) l = Returns cs'
         ∧ Forall (λ c, ∃ i j, edge g i j ∧ i ∈ c ∧ j ∈ c) cs'.
Proof.
  revert cs. induction l as [|[k s] l IH]; intros cs Hl Hcs; simpl;
    [by exists cs|].
  assert (Hk : g !! k = Some s) by (apply (Hl (k, s)); left).
  assert (Hl' : ∀ i, i ∈ l → g !! i.1 = Some i.2)
    by (intros; apply Hl; by right).
  unfold Cluster.cluster_step at 2. simpl. case_decide as Hs; [by apply IH|].
  destruct (build_temp_cluster_reach g k) as (r & -> & Hr). simpl.
  assert (Hedge : ∃ i j, edge g i j ∧ i ∈ r ∧ j ∈ r).
  { apply set_choose_L in Hs as [j Hj]. exists k, j.
    assert (edge g k j) by (unfold edge, adj; by rewrite Hk).
    split_and!; [done|by apply Hr|by apply Hr, rtc_once]. }
  destruct (unify r cs) as [merged|] eqn:Hu.
  - apply IH; [done|].
    apply unify_Some in Hu as (pre & c & post & -> & _ & _ & ->).
    apply Forall_app in Hcs as [? [(i & j & ? & ? & ?) ?]%Forall_cons].
    apply Forall_app. split; [done|]. constructor; [|done].
    exists i, j. set_solver.
  - apply IH; [done|]. apply Forall_app. split; [done|]. by constructor.
Qed.

Lemma image_clusters_of_edges g :
  ∃ cs, Cluster.image_clusters_of g = Returns cs
        ∧ Forall (λ c, ∃ i j, edge g i j ∧ i ∈ c ∧ j ∈ c) cs.
Proof.
  apply cluster_loop_edges; [|constructor].
  by intros [k s] ?%elem_of_asc_items.
Qed.

(** * What is printed *)

Lemma file_names_Forall2 file_list c names :
  file_names file_list c = Returns names
  ↔ Forall2 (λ j name, file_list !! j = Some name) (asc c) names.
Proof.
  unfold file_names. rewrite <-mapM_Some.
  destruct (mapM _ _); split; intros; by simplify_eq.
Qed.

Lemma print_clusters_Forall2 file_list cs printed :
  Cluster.print_clusters file_list cs = Returns printed
  ↔ Forall2 (λ c names,
               Forall2 (λ j name, file_list !! j = Some name) (asc c) names)
      cs printed.
Proof.
  revert printed. unfold Cluster.print_clusters.
  induction cs as [|c cs IH]; intros printed; simpl.
  - split; [by intros [= <-]|by inversion 1].
  - destruct (file_names file_list c) as [names| |] eqn:Hn; simpl.
    + destruct (foldr _ _ cs) as [rest| |] eqn:Hrest; simpl.
      * split.
        -- intros [= <-]. constructor; [by apply file_names_Forall2|].
           by apply IH.
        -- inversion 1 as [|? names' ? rest' Hc Hcs]; subst.
           apply file_names_Forall2 in Hc. apply IH in Hcs. congruence.
      * split; [done|]. inversion 1 as [|? names' ? rest' Hc Hcs]; subst.
        by apply IH in Hcs.
      * split; [done|]. inversion 1 as [|? names' ? rest' Hc Hcs]; subst.
        by apply IH in Hcs.
    + split; [done|]. inversion 1 as [|? names' ? rest' Hc Hcs]; subst.
      apply file_names_Forall2 in Hc. congruence.
    + split; [done|]. inversion 1 as [|? names' ? rest' Hc Hcs]; subst.
      apply file_names_Forall2 in Hc. congruence.
Qed.

Lemma ok1_lines_nil (g : gmap nat (gset nat)) :
  (∀ k s, g !! k = Some s → s ≠ ∅) → Cluster.ok1_lines g = [].
Proof.
  intros Hg. unfold Cluster.ok1_lines.
  assert (Hl : ∀ i, i ∈ asc_items g → i.2 ≠ ∅).
  { intros [k s] ?%elem_of_asc_items. by eapply Hg. }
  induction (asc_items g) as [|i l IH]; simpl; [done|].
  rewrite decide_False by (apply Hl; left). simpl.
  apply IH. intros; apply Hl; by right.
Qed.

Section ThreadedProgram.
Variable Mat : Type.
Variable imread_phash : string → option Mat.
Variable compare : Mat → Mat → Q.
Variable stod : string → option Q.

Lemma threaded_graph_no_empty_set threshold num_threads file_list s1 s2 k s :
  0 < num_threads →
  Cluster.image_similarities_of Mat imread_phash compare threshold
    num_threads file_list s1 s2 !! k = Some s →
  s ≠ ∅.
Proof.
  intros Hn Hk.
  destruct (proj1 (image_similarities_of_is_Some Mat imread_phash compare
              threshold num_threads file_list s1 s2 k Hn)) as (j & Hj);
    [by eexists|].
  apply (image_similarities_of_adj Mat imread_phash compare threshold
           num_threads file_list s1 s2 k j Hn) in Hj.
  unfold adj in Hj. rewrite Hk in Hj. simpl in Hj. set_solver.
Qed.

Lemma threaded_main_stdout fs opts o stdin file_list hc s1 s2 :
  Cluster.check_arguments Cluster.no_options opts = Some o →
  Cluster.flag_directory o = true →
  Cluster.file_list_of fs o stdin = Some file_list →
  ∃ printed,
    Cluster.main Mat imread_phash compare stod (Cluster.flag_threshold o)
      (Cluster.string_threshold o) hc file_list s1 s2 = Returns printed
    ∧ Cluster.main_stdout Mat imread_phash compare stod fs opts stdin hc s1 s2
      = Returns
          ((if Cluster.one_line o then []
            else ["Filelist created, " +:+ pretty (length file_list)
                    +:+ " files.";
                  "Finished hash calculations.";
                  "Adjacency lists created."])
           ++ Cluster.cluster_lines (Cluster.one_line o) printed).
Proof.
  intros Ho Hd Hfl.
  destruct (threaded_main_Returns Mat imread_phash compare stod
              (Cluster.flag_threshold o) (Cluster.string_threshold o) hc
              file_list s1 s2) as [printed Hp].
  exists printed. split; [done|].
  unfold Cluster.main_stdout. rewrite Ho, Hd, Hfl. simpl.
  unfold Cluster.main, Cluster.run in Hp.
  destruct (Cluster.image_clusters_of _) as [cs| |]; simpl in *; try done.
  rewrite Hp. simpl. rewrite ok1_lines_nil; [done|].
  intros k s. apply threaded_graph_no_empty_set, num_threads_of_pos.
Qed.
(** The clusters of the threaded revision: what [threaded_clusters_sound_cover]
    says, the size of a cluster, and the range of its members. *)
Lemma threaded_clusters_facts threshold file_list num_threads s1 s2 :
  0 < num_threads →
  ∃ cs, Cluster.run Mat imread_phash compare threshold num_threads file_list
          s1 s2 = Returns cs
        ∧ (∀ c x y, c ∈ cs → x ∈ c → y ∈ c →
             connected Mat imread_phash compare threshold file_list x y)
        ∧ (∀ i j, similar Mat imread_phash compare threshold file_list i j →
             ∃ c, c ∈ cs ∧ i ∈ c ∧ j ∈ c)
        ∧ (∀ x, (∃ c, c ∈ cs ∧ x ∈ c)
                ↔ ∃ y, similar Mat imread_phash compare threshold file_list
                         x y)
        ∧ (∀ c, c ∈ cs → 2 ≤ size c)
        ∧ (∀ c x, c ∈ cs → x ∈ c → x < length file_list).
Proof.
  intros Hn.
  destruct (threaded_clusters_sound_cover Mat imread_phash compare threshold
              file_list num_threads s1 s2 Hn) as (cs & Hcs & H1 & H2 & H3).
  exists cs. split_and!; try done.
  - destruct (image_clusters_of_edges
                (Cluster.image_similarities_of Mat imread_phash compare
                   threshold num_threads file_list s1 s2))
      as (cs' & Hcs' & Hedges).
    unfold Cluster.run in Hcs. assert (cs' = cs) as -> by congruence.
    intros c Hc. rewrite Forall_forall in Hedges.
    destruct (Hedges c Hc) as (i & j & Hij & Hi & Hj).
    apply (size_two c i j); [done..|].
    apply threaded_edge in Hij as [? _]; [lia|done].
  - intros c x Hc Hx.
    destruct (proj1 (H3 x)) as [y Hy]; [eauto|].
    apply similar_valid in Hy as [h Hh]. by eapply fingerprint_lt.
Qed.
End ThreadedProgram.

(** * The command line *)

Lemma bool_decide_elem_of_cons {A} `{EqDecision A} (x y : A) (l : list A) :
  bool_decide (x ∈ y :: l) = bool_decide (x = y) || bool_decide (x ∈ l).
Proof. rewrite <-bool_decide_or. apply bool_decide_ext, elem_of_cons. Qed.

Lemma optargs_cons (c c' : ascii) (a : string) (opts : list (ascii * string)) :
  optargs c ((c', a) :: opts)
  = if decide (c' = c) then a :: optargs c opts else optargs c opts.
Proof.
  unfold optargs. rewrite filter_cons. simpl. by case_decide.
Qed.

Lemma default_last_cons {A} (d a : A) (l : list A) :
  default d (last (a :: l)) = default a (last l).
Proof.
  revert d a. induction l as [|x l IH]; intros d a; [done|].
  change (default d (last (x :: l)) = default a (last (x :: l))).
  by rewrite !(IH _ x).
Qed.

Lemma elem_of_optargs (c : ascii) (a : string) (opts : list (ascii * string)) :
  a ∈ optargs c opts ↔ (c, a) ∈ opts.
Proof.
  unfold optargs. rewrite list_elem_of_fmap. split.
  - intros ([c' a'] & -> & [? ?]%list_elem_of_filter). by simplify_eq/=.
  - intros Hin. exists (c, a). split; [done|]. by apply list_elem_of_filter.
Qed.

Lemma decide_elem_of_cons_ne {A B} `{EqDecision A} (x y : A) (l : list A)
    (a b : B) :
  x ≠ y →
  (if decide (x ∈ y :: l) then a else b) = (if decide (x ∈ l) then a else b).
Proof.
  intros Hne. destruct (decide (x ∈ l)) as [Hin|Hnin].
  - rewrite decide_True; [done|by right].
  - rewrite decide_False; [done|]. by intros [?|?]%elem_of_cons.
Qed.

Ltac option_step IH :=
  rewrite IH, fmap_cons; simpl fst;
  rewrite decide_elem_of_cons_ne by done;
  rewrite !bool_decide_elem_of_cons, !optargs_cons;
  repeat first [rewrite decide_True by done | rewrite decide_False by done];
  repeat first [rewrite (bool_decide_eq_true_2 (_ = _)) by done
               |rewrite (bool_decide_eq_false_2 (_ = _)) by done];
  simpl; rewrite ?default_last_cons, ?orb_true_r; done.

Lemma threaded_check_arguments o opts :
  Cluster.check_arguments o opts
  = if decide ("h"%char ∈ opts.*1) then None
    else Some (Cluster.Options
                 (Cluster.be_recursive o || bool_decide ("r"%char ∈ opts.*1))
                 (Cluster.one_line o || bool_decide ("l"%char ∈ opts.*1))
                 (Cluster.flag_directory o
                  || bool_decide ("d"%char ∈ opts.*1))
                 (Cluster.flag_threshold o
                  || bool_decide ("t"%char ∈ opts.*1))
                 (default (Cluster.string_threshold o)
                    (last (optargs "t" opts)))
                 (default (Cluster.string_directory o)
                    (last (optargs "d" opts)))).
Proof.
  revert o. induction opts as [|[c a] opts IH]; intros o.
  - simpl. destruct o. simpl. by rewrite !orb_false_r.
  - simpl Cluster.check_arguments.
    destruct (decide (c = "h"%char)) as [->|Hh].
    { rewrite decide_True; [done|]. rewrite fmap_cons. left. }
    destruct (decide (c = "r"%char)) as [->|Hr]; [option_step IH|].
    destruct (decide (c = "d"%char)) as [->|Hd]; [option_step IH|].
    destruct (decide (c = "t"%char)) as [->|Ht]; [option_step IH|].
    destruct (decide (c = "l"%char)) as [->|Hl]; [option_step IH|].
    rewrite IH, fmap_cons. simpl fst.
    rewrite decide_elem_of_cons_ne by done.
    rewrite !bool_decide_elem_of_cons, !optargs_cons.
    rewrite !(decide_False (P := c = _)) by done.
    rewrite !(bool_decide_eq_false_2 (_ = c)) by congruence. done.
Qed.

Lemma seq_check_arguments o opts :
  ClusterSeq.check_arguments o opts
  = if decide ("h"%char ∈ opts.*1) then None
    else Some (ClusterSeq.Options
                 (ClusterSeq.be_recursive o
                  || bool_decide ("r"%char ∈ opts.*1))
                 (ClusterSeq.show_unique o
                  || bool_decide ("u"%char ∈ opts.*1))
                 (ClusterSeq.flag_directory o
                  || bool_decide ("d"%char ∈ opts.*1))
                 (ClusterSeq.flag_threshold o
                  || bool_decide ("t"%char ∈ opts.*1))
                 (default (ClusterSeq.string_threshold o)
                    (last (optargs "t" opts)))
                 (default (ClusterSeq.string_directory o)
                    (last (optargs "d" opts)))).
Proof.
  revert o. induction opts as [|[c a] opts IH]; intros o.
  - simpl. destruct o. simpl. by rewrite !orb_false_r.
  - simpl ClusterSeq.check_arguments.
    destruct (decide (c = "h"%char)) as [->|Hh].
    { rewrite decide_True; [done|]. rewrite fmap_cons. left. }
    destruct (decide (c = "r"%char)) as [->|Hr]; [option_step IH|].
    destruct (decide (c = "u"%char)) as [->|Hu]; [option_step IH|].
    destruct (decide (c = "d"%char)) as [->|Hd]; [option_step IH|].
    destruct (decide (c = "t"%char)) as [->|Ht]; [option_step IH|].
    rewrite IH, fmap_cons. simpl fst.
    rewrite decide_elem_of_cons_ne by done.
    rewrite !bool_decide_elem_of_cons, !optargs_cons.
    rewrite !(decide_False (P := c = _)) by done.
    rewrite !(bool_decide_eq_false_2 (_ = c)) by congruence. done.
Qed.

(** * The pairs of the sequential revision *)

Section Pairs.
Variable Mat : Type.
Variable imread_phash : string → option Mat.
Variable compare : Mat → Mat → Q.

Lemma image_deltas_of_length (l : list (nat * Mat)) :
  2 * length (ClusterSeq.image_deltas_of Mat compare l)
  = length l * (length l - 1).
Proof.
  induction l as [|it1 l IH]; simpl; [done|].
  rewrite length_app, length_fmap. rewrite Nat.sub_0_r. nia.
Qed.

Lemma image_deltas_of_fst (l : list (nat * Mat)) a b :
  (a, b) ∈ (ClusterSeq.image_deltas_of Mat compare l).*1 →
  a ∈ l.*1 ∧ b ∈ l.*1.
Proof.
  induction l as [|it1 l IH]; simpl; [by intros ?%elem_of_nil|].
  rewrite fmap_app, elem_of_app, <-list_fmap_compose.
  intros [(it2 & [= -> ->] & Hin)%list_elem_of_fmap|[? ?]%IH].
  - split; [left|right]. apply list_elem_of_fmap. by exists it2.
  - split; by right.
Qed.

Lemma image_deltas_of_NoDup (l : list (nat * Mat)) :
  NoDup l.*1 → NoDup (ClusterSeq.image_deltas_of Mat compare l).*1.
Proof.
  induction l as [|it1 l IH]; simpl; [constructor|].
  intros [Hit1 Hl]%NoDup_cons. rewrite fmap_app, <-list_fmap_compose.
  apply NoDup_app. split_and!.
  - clear IH Hit1. induction l as [|it2 l IHl]; simpl; [constructor|].
    apply NoDup_cons in Hl as [Hit2 Hl]. apply NoDup_cons. split; [|auto].
    intros (it3 & [= E] & Hin)%list_elem_of_fmap. apply Hit2.
    apply list_elem_of_fmap. by exists it3.
  - intros [a b] (it2 & [= -> ->] & Hin)%list_elem_of_fmap
      [? _]%image_deltas_of_fst.
    done.
  - auto.
Qed.

Lemma foldl_insert_size {K V} `{Countable K} (l : list (K * V))
    (m : gmap K V) :
  NoDup l.*1 → (∀ k, k ∈ l.*1 → m !! k = None) →
  size (foldl (λ m i, <[i.1 := i.2]> m) m l) = size m + length l.
Proof.
  revert m. induction l as [|[k v] l IH]; intros m Hnd Hm; simpl; [lia|].
  apply NoDup_cons in Hnd as [Hk Hnd].
  rewrite IH; [|done|].
  - rewrite map_size_insert_None by (apply Hm; left). lia.
  - intros k' Hk'. rewrite lookup_insert_ne by (by intros ->).
    apply Hm. by right.
Qed.

Lemma asc_items_length {V} (m : gmap nat V) : length (asc_items m) = size m.
Proof.
  rewrite <-(length_fmap fst), asc_items_fst, asc_Permutation.
  rewrite <-size_dom. done.
Qed.

Lemma image_deltas_size_eq (img_hash_values : gmap nat Mat) :
  2 * ClusterSeq.image_deltas_size Mat compare img_hash_values
  = size img_hash_values * (size img_hash_values - 1).
Proof.
  unfold ClusterSeq.image_deltas_size.
  rewrite foldl_insert_size.
  - rewrite map_size_empty, Nat.add_0_l.
    by rewrite image_deltas_of_length, asc_items_length.
  - apply image_deltas_of_NoDup. rewrite asc_items_fst. apply NoDup_asc.
  - intros. apply lookup_empty.
Qed.

(** The number of images that decode. *)
Lemma hash_values_of_size file_list num_threads sched :
  0 < num_threads →
  size (hash_values_of Mat imread_phash file_list num_threads sched)
  = length (filter (λ f, is_Some (imread_phash f)) file_list).
Proof.
  intros Hn. set (m := hash_values_of _ _ _ _ _).
  rewrite <-size_dom.
  assert (Hlen : size (dom m) = length (asc (dom m))).
  { by rewrite asc_Permutation. }
  rewrite Hlen.
  rewrite (asc_filter_seq (dom m) (length file_list)
             (holds_at (λ f, is_Some (imread_phash f)) file_list)).
  - pose proof (mapM_lookup_filter (λ f, is_Some (imread_phash f)) []
                  file_list) as Hm.
    simpl in Hm. by apply length_mapM in Hm.
  - intros x. rewrite elem_of_dom. unfold m.
    rewrite hash_values_of_lookup by done. unfold fingerprint, holds_at.
    destruct (file_list !! x) as [f|] eqn:E; simpl.
    + split; [intros ?; split; [by eapply lookup_lt_Some|done]|by intros [_ ?]].
    + split; [by intros [??]|by intros [_ ?]].
Qed.
End Pairs.

(** * The sequential revision as a whole *)

Section SequentialProgram.
Variable Mat : Type.
Variable imread_phash : string → option Mat.
Variable compare : Mat → Mat → Q.
Variable stod : string → option Q.

Lemma seq_main_stdout fs opts o file_list hc sched :
  ClusterSeq.check_arguments ClusterSeq.no_options opts = Some o →
  ClusterSeq.flag_directory o = true →
  ClusterSeq.file_list_of fs o = Some file_list →
  ∃ rep pairs,
    ClusterSeq.main Mat imread_phash compare stod (ClusterSeq.show_unique o)
      (ClusterSeq.flag_threshold o) (ClusterSeq.string_threshold o) hc
      file_list sched = Returns rep
    ∧ 2 * pairs
      = length (filter (λ f, is_Some (imread_phash f)) file_list)
        * (length (filter (λ f, is_Some (imread_phash f)) file_list) - 1)
    ∧ ClusterSeq.main_stdout Mat imread_phash compare stod fs opts hc sched
      = Returns
          (["Filelist created, " +:+ pretty (length file_list) +:+ " files.";
            "Finished hash calculation.";
            "Hash distances calculated, " +:+ pretty pairs
              +:+ " image pairs.";
            "Adjacency lists created."]
           ++ ClusterSeq.cluster_lines (ClusterSeq.clusters rep)
           ++ (if ClusterSeq.show_unique o
               then "unique images:" :: ClusterSeq.unique rep else [])).
Proof.
  intros Ho Hd Hfl.
  destruct (seq_main_Returns Mat imread_phash compare stod
              (ClusterSeq.show_unique o) (ClusterSeq.flag_threshold o)
              (ClusterSeq.string_threshold o) hc file_list sched)
    as [rep Hrep].
  exists rep,
    (ClusterSeq.image_deltas_size Mat compare
       (hash_values_of Mat imread_phash file_list (num_threads_of hc) sched)).
  split; [done|]. split.
  { rewrite image_deltas_size_eq, hash_values_of_size; [done|].
    apply num_threads_of_pos. }
  unfold ClusterSeq.main_stdout. rewrite Ho, Hd, Hfl. simpl.
  unfold ClusterSeq.main, ClusterSeq.run, ClusterSeq.image_similarities_of
    in Hrep.
  destruct (ClusterSeq.image_clusters_of _) as [st| |]; simpl in *; try done.
  destruct (ClusterSeq.print_clusters file_list st.1) as [cs| |];
    simpl in *; try done.
  destruct (ClusterSeq.show_unique o); simpl in *.
  - destruct (file_names file_list st.2) as [us| |]; simpl in *; try done.
    by simplify_eq.
  - by simplify_eq.
Qed.

Lemma seq_similar_ne threshold file_list i j :
  similar Mat imread_phash compare threshold file_list i j → i ≠ j.
Proof. intros [[? _]|[? _]]; lia. Qed.

Section Fixed.
Variable threshold : Q.
Variable file_list : list string.
Variable num_threads : nat.
Variable sched : list nat.
Hypothesis Hn : 0 < num_threads.

(** The unique images are the images that decode and have no similar
    partner; a cluster has at least two members. *)
Lemma seq_unique_and_sizes :
  ∃ st, ClusterSeq.run Mat imread_phash compare threshold num_threads
          file_list sched = Returns st
        ∧ (∀ x, x ∈ st.2
                ↔ is_Some (fingerprint Mat imread_phash file_list x)
                  ∧ ∀ y, ¬ similar Mat imread_phash compare threshold
                             file_list x y)
        ∧ (∀ c, c ∈ st.1 → 2 ≤ size c).
Proof.
  destruct (seq_run_inv Mat imread_phash compare threshold file_list
              num_threads sched Hn) as (st & Hst & [H1 H2 H3 H4]).
  set (g := ClusterSeq.image_similarities_of Mat imread_phash compare
              threshold num_threads file_list sched) in *.
  exists st. split; [done|]. split.
  - intros x. rewrite H1. apply and_iff_compat_l. split.
    + intros He y Hy. apply (seq_graph_adj Mat imread_phash compare threshold
                               file_list num_threads sched Hn) in Hy.
      fold g in Hy. rewrite He in Hy. set_solver.
    + intros Hno. apply set_eq. intros y. split; [|set_solver].
      intros Hy. apply (seq_graph_adj Mat imread_phash compare threshold
                          file_list num_threads sched Hn) in Hy.
      by destruct (Hno y).
  - intros c (k & _ & Hadj & Hc)%H2.
    apply adj_nonempty_edge in Hadj as [j Hj].
    apply (size_two c k j).
    + by apply Hc.
    + by apply Hc, rtc_once.
    + apply (seq_similar_ne threshold file_list).
      by apply (seq_graph_adj Mat imread_phash compare threshold
                  file_list num_threads sched Hn).
Qed.
End Fixed.
End SequentialProgram.

(** * More on the point query *)

Lemma filter_sublist_impl {A} (P Q : A → Prop) `{∀ x, Decision (P x)}
    `{∀ x, Decision (Q x)} (l : list A) :
  (∀ x, x ∈ l → P x → Q x) → filter P l `sublist_of` filter Q l.
Proof.
  induction l as [|x l IH]; intros HPQ; [done|].
  rewrite !filter_cons.
  assert (IH' : filter P l `sublist_of` filter Q l).
  { apply IH. intros y ?. apply HPQ. by right. }
  destruct (decide (P x)) as [HP|HP].
  - rewrite decide_True by (apply HPQ; [left|done]). by constructor.
  - case_decide; [by constructor|done].
Qed.


Section SearchMore.
Variable Mat : Type.
Variable imread_phash : string → option Mat.
Variable compare : Mat → Mat → Q.

Lemma matches_mono t1 t2 needles1 needles2 p :
  (t1 <= t2)%Q → needles1 ⊆ needles2 →
  matches Mat imread_phash compare t1 needles1 p →
  matches Mat imread_phash compare t2 needles2 p.
Proof.
  intros Ht Hsub. rewrite !matches_spec.
  intros (h & q & hq & ? & ? & ? & Hc). exists h, q, hq.
  split_and!; [done|by apply Hsub|done|].
  apply Qle_bool_iff. apply Qle_bool_iff in Hc. by eapply Qle_trans.
Qed.

End SearchMore.

(** * More on the merge loop *)

Lemma unify_spec temp cs :
  match unify temp cs with
  | None => Forall (λ c, c ## temp) cs
  | Some cs' =>
      ∃ k c, cs !! k = Some c ∧ ¬ c ## temp
             ∧ (∀ k' c', k' < k → cs !! k' = Some c' → c' ## temp)
             ∧ cs' = <[k := c ∪ temp]> cs
  end.
Proof.
  destruct (unify temp cs) as [cs'|] eqn:Hu; [|by apply unify_None].
  apply unify_Some in Hu as (pre & c & post & -> & Hpre & Hc & ->).
  exists (length pre), c. split_and!.
  - by rewrite lookup_app_r, Nat.sub_diag.
  - done.
  - intros k' c' Hk' Hc'. rewrite lookup_app_l in Hc' by done.
    rewrite Forall_forall in Hpre. eapply Hpre.
    by eapply list_elem_of_lookup_2.
  - rewrite insert_app_r_alt, Nat.sub_diag by done. done.
Qed.

Lemma union_list_insert (cs : list (gset nat)) k c temp :
  cs !! k = Some c → ⋃ (<[k := c ∪ temp]> cs) = ⋃ cs ∪ temp.
Proof.
  revert k. induction cs as [|c0 cs IH]; intros [|k] Hk; simplify_eq/=.
  - set_solver.
  - rewrite (IH k) by done. set_solver.
Qed.

(** * The viewer *)






Lemma concat_imap_singleton {A B} (f : A → B) (g : nat → A → list B)
    (l : list A) :
  (∀ i x, g i x = [f x]) → concat (imap g l) = f <$> l.
Proof.
  revert g. induction l as [|x l IH]; intros g Hg; [done|].
  rewrite imap_cons. simpl. rewrite Hg. simpl. f_equal.
  apply IH. intros i y. apply Hg.
Qed.

Lemma cluster_lines_one_line printed :
  Cluster.cluster_lines true printed
  = (λ names, foldr (λ name line, name +:+ tab +:+ line) "" names)
      <$> printed.
Proof. unfold Cluster.cluster_lines. by apply concat_imap_singleton. Qed.


Section ViewerFacts.
Variable Mat : Type.
Variable imread : string → Mat.
Variables cols rows : Mat → Z.

Local Abbreviation key_loop := (ViewSimilar.key_loop Mat cols rows).
Local Abbreviation status := (ViewSimilar.status Mat cols rows).

Lemma status_is_Some files images current_image :
  length images = length files → current_image < length files →
  is_Some (status files images current_image).
Proof.
  intros Hlen Hcur. unfold ViewSimilar.status.
  destruct (lookup_lt_is_Some_2 files current_image) as [f ->]; [done|].
  destruct (lookup_lt_is_Some_2 images current_image) as [m ->]; [lia|].
  simpl. by eexists.
Qed.

(** One turn of the loop [while(key)]. *)
Lemma key_loop_turn files images current_image key keys :
  length images = length files → current_image < length files →
  ∃ text, status files images current_image = Some text
  ∧ if decide (key = 27 ∨ key = 113)%Z
    then key_loop files images current_image key keys
         = ([], inl ViewSimilar.Return0)
    else if decide (key = 84)%Z
    then key_loop files images current_image key keys = ([], inr keys)
    else
      ∃ current_image' printed image,
        current_image' < length files
        ∧ images !! current_image' = Some image
        ∧ current_image'
          = (if decide (key = 81)%Z then
               if decide (0 < current_image) then current_image - 1 else 0
             else if decide (key = 83)%Z then
               if decide (current_image < length files - 1)
               then current_image + 1 else current_image
             else current_image)
        ∧ (if decide (key = 32)%Z
           then ∃ file, files !! current_image = Some file
                        ∧ printed = [ViewSimilar.Cout Mat file]
           else printed = [])
        ∧ key_loop files images current_image key keys
          = match keys with
            | [] => (printed ++ [ViewSimilar.Imshow Mat image;
                                 ViewSimilar.DisplayStatusBar Mat text],
                     inl ViewSimilar.WaitKey)
            | key' :: keys' =>
                if decide (key' = 0)%Z
                then (printed ++ [ViewSimilar.Imshow Mat image;
                                  ViewSimilar.DisplayStatusBar Mat text],
                      inr keys')
                else
                  ((printed ++ [ViewSimilar.Imshow Mat image;
                                ViewSimilar.DisplayStatusBar Mat text])
                   ++ (key_loop files images current_image' key' keys').1,
                   (key_loop files images current_image' key' keys').2)
            end.
Proof.
  intros Hlen Hcur.
  destruct (status_is_Some files images current_image Hlen Hcur)
    as [text Htext].
  exists text. split; [done|].
  destruct (lookup_lt_is_Some_2 files current_image) as [f Hf]; [done|].
  destruct (decide (key = 27 ∨ key = 113)%Z) as [Hq|Hq].
  { destruct keys; simpl; rewrite Htext; by rewrite decide_True. }
  destruct (decide (key = 84)%Z) as [Hb|Hb].
  { destruct keys; simpl; rewrite Htext, decide_False by done;
      repeat case_decide; try lia; done. }
  set (cur' := if decide (key = 81)%Z then
               if decide (0 < current_image) then current_image - 1 else 0
             else if decide (key = 83)%Z then
               if decide (current_image < length files - 1)
               then current_image + 1 else current_image
             else current_image).
  assert (Hcur' : cur' < length files).
  { unfold cur'. repeat case_decide; lia. }
  destruct (lookup_lt_is_Some_2 images cur') as [image Himage]; [lia|].
  exists cur', (if decide (key = 32)%Z then [ViewSimilar.Cout Mat f] else []),
    image.
  split_and!; [done..| |].
  { case_decide; eauto. }
  unfold cur' in *. clear cur'.
  destruct keys as [|key' keys']; simpl; rewrite Htext, decide_False by done;
    repeat case_decide; try lia; rewrite ?Hf, ?Himage; simpl; try done.
Qed.

Lemma key_loop_in_range files images current_image key keys :
  length images = length files → current_image < length files →
  (key_loop files images current_image key keys).2
  ≠ inl ViewSimilar.OutOfRange.
Proof.
  intros Hlen. revert current_image key.
  induction keys as [|key' keys' IH]; intros current_image key Hcur.
  - destruct (key_loop_turn files images current_image key [] Hlen Hcur)
      as (text & _ & Hturn).
    destruct (decide (key = 27 ∨ key = 113)%Z); [by rewrite Hturn|].
    destruct (decide (key = 84)%Z); [by rewrite Hturn|].
    by destruct Hturn as (cur' & printed & image & _ & _ & _ & _ & ->).
  - destruct (key_loop_turn files images current_image key (key' :: keys')
                Hlen Hcur) as (text & _ & Hturn).
    destruct (decide (key = 27 ∨ key = 113)%Z); [by rewrite Hturn|].
    destruct (decide (key = 84)%Z); [by rewrite Hturn|].
    destruct Hturn as (cur' & printed & image & Hcur' & _ & _ & _ & ->).
    destruct (decide (key' = 0)%Z); [done|]. simpl. by apply IH.
Qed.

Lemma stdout_app (e1 e2 : list (ViewSimilar.event Mat)) :
  ViewSimilar.stdout Mat (e1 ++ e2)
  = ViewSimilar.stdout Mat e1 ++ ViewSimilar.stdout Mat e2.
Proof. unfold ViewSimilar.stdout. apply omap_app. Qed.

Lemma displayed_app (e1 e2 : list (ViewSimilar.event Mat)) :
  ViewSimilar.displayed Mat (e1 ++ e2)
  = ViewSimilar.displayed Mat e1 ++ ViewSimilar.displayed Mat e2.
Proof. unfold ViewSimilar.displayed. apply omap_app. Qed.

Lemma printed_stdout (files : list string) current_image key
    (printed : list (ViewSimilar.event Mat)) :
  (if decide (key = 32)%Z
   then ∃ file, files !! current_image = Some file
                ∧ printed = [ViewSimilar.Cout Mat file]
   else printed = []) →
  Forall (λ line, line ∈ files) (ViewSimilar.stdout Mat printed)
  ∧ length (ViewSimilar.stdout Mat printed)
    = length (filter (λ k, k = 32%Z) [key])
  ∧ ViewSimilar.displayed Mat printed = [].
Proof.
  intros Hp. rewrite filter_cons, filter_nil.
  case_decide; [destruct Hp as (f & Hf & ->)|subst]; simpl.
  - split_and!; [|done..]. constructor; [|done].
    by eapply list_elem_of_lookup_2.
  - done.
Qed.

(** Only the space key writes a line, and the line is a file of the list. *)
Lemma key_loop_stdout files images current_image key keys :
  length images = length files → current_image < length files →
  Forall (λ line, line ∈ files)
    (ViewSimilar.stdout Mat (key_loop files images current_image key keys).1)
  ∧ length (ViewSimilar.stdout Mat
              (key_loop files images current_image key keys).1)
    + match (key_loop files images current_image key keys).2 with
      | inl _ => 0
      | inr keys' => length (filter (λ k, k = 32%Z) keys')
      end
    ≤ length (filter (λ k, k = 32%Z) (key :: keys)).
Proof.
  intros Hlen. revert current_image key.
  induction keys as [|key' keys' IH]; intros current_image key Hcur.
  - destruct (key_loop_turn files images current_image key [] Hlen Hcur)
      as (text & _ & Hturn).
    destruct (decide (key = 27 ∨ key = 113)%Z);
      [rewrite Hturn; simpl; split; [done|lia]|].
    destruct (decide (key = 84)%Z);
      [rewrite Hturn; simpl; split; [done|lia]|].
    destruct Hturn as (cur' & printed & image & Hcur' & _ & _ & Hp & ->).
    destruct (printed_stdout _ _ _ _ Hp) as (Hall & Hcount & _).
    simpl. rewrite stdout_app. simpl. rewrite app_nil_r. split; [done|].
    rewrite Hcount. lia.
  - destruct (key_loop_turn files images current_image key (key' :: keys')
                Hlen Hcur) as (text & _ & Hturn).
    change (filter (λ k : Z, k = 32%Z) (key :: key' :: keys'))
      with (filter (λ k : Z, k = 32%Z) ([key] ++ key' :: keys')).
    rewrite filter_app, length_app.
    destruct (decide (key = 27 ∨ key = 113)%Z);
      [rewrite Hturn; simpl; split; [done|lia]|].
    destruct (decide (key = 84)%Z);
      [rewrite Hturn; simpl; split; [done|lia]|].
    destruct Hturn as (cur' & printed & image & Hcur' & _ & _ & Hp & ->).
    destruct (printed_stdout _ _ _ _ Hp) as (Hall & Hcount & _).
    rewrite <-Hcount.
    destruct (decide (key' = 0)%Z).
    + simpl. rewrite stdout_app. simpl. rewrite app_nil_r. split; [done|].
      rewrite filter_cons_False by lia. lia.
    + destruct (IH cur' key' Hcur') as [IH1 IH2]. simpl.
      rewrite !stdout_app. simpl. rewrite app_nil_r, length_app.
      split; [|lia]. apply Forall_app. by split.
Qed.

(** The status bar describes the image that the turn started from. *)
Lemma key_loop_displayed files images current_image key keys :
  length images = length files → current_image < length files →
  ∃ path,
    Forall (λ i, i < length files) path
    ∧ ViewSimilar.displayed Mat
        (key_loop files images current_image key keys).1
      = flat_map (ViewSimilar.turn_display Mat cols rows files images)
          (zip (current_image :: path) path).
Proof.
  intros Hlen. revert current_image key.
  induction keys as [|key' keys' IH]; intros current_image key Hcur.
  - destruct (key_loop_turn files images current_image key [] Hlen Hcur)
      as (text & Htext & Hturn).
    destruct (decide (key = 27 ∨ key = 113)%Z);
      [exists []; by rewrite Hturn|].
    destruct (decide (key = 84)%Z); [exists []; by rewrite Hturn|].
    destruct Hturn as (cur' & printed & image & Hcur' & Himage & _ & Hp & ->).
    destruct (printed_stdout _ _ _ _ Hp) as (_ & _ & Hnone).
    exists [cur']. split; [by constructor|]. simpl.
    rewrite displayed_app, Hnone. unfold ViewSimilar.turn_display. simpl.
    by rewrite Himage, Htext.
  - destruct (key_loop_turn files images current_image key (key' :: keys')
                Hlen Hcur) as (text & Htext & Hturn).
    destruct (decide (key = 27 ∨ key = 113)%Z);
      [exists []; by rewrite Hturn|].
    destruct (decide (key = 84)%Z); [exists []; by rewrite Hturn|].
    destruct Hturn as (cur' & printed & image & Hcur' & Himage & _ & Hp & ->).
    destruct (printed_stdout _ _ _ _ Hp) as (_ & _ & Hnone).
    destruct (decide (key' = 0)%Z).
    + exists [cur']. split; [by constructor|]. simpl.
      rewrite displayed_app, Hnone. unfold ViewSimilar.turn_display. simpl.
      by rewrite Himage, Htext.
    + destruct (IH cur' key' Hcur') as (path & Hpath & Hd).
      exists (cur' :: path). split; [by constructor|]. simpl.
      rewrite !displayed_app, Hnone, Hd.
      unfold ViewSimilar.turn_display at 2. simpl.
      by rewrite Himage, Htext.
Qed.

Local Abbreviation view_lines := (ViewSimilar.view_lines Mat imread cols rows).

Lemma view_lines_in_range stdin keys :
  (view_lines stdin keys).2 ≠ ViewSimilar.OutOfRange.
Proof.
  revert keys. induction stdin as [|line stdin IH]; intros keys; simpl;
    [done|].
  case_decide as Hfiles; [apply IH|].
  pose proof (key_loop_in_range (ViewSimilar.split_line line)
                (imread <$> ViewSimilar.split_line line) 0 1 keys) as Hk.
  destruct (key_loop _ _ 0 1%Z keys) as [shown [e|keys']]; simpl in *.
  - intros ->. apply Hk; [by rewrite length_fmap|lia|done].
  - apply IH.
Qed.

Lemma view_lines_stdout stdin keys :
  Forall (λ name, ∃ line, line ∈ stdin ∧ name ∈ ViewSimilar.split_line line)
    (ViewSimilar.stdout Mat (view_lines stdin keys).1)
  ∧ length (ViewSimilar.stdout Mat (view_lines stdin keys).1)
    ≤ length (filter (λ k, k = 32%Z) keys).
Proof.
  revert keys. induction stdin as [|line stdin IH]; intros keys; simpl.
  { split; [constructor|lia]. }
  assert (Hmono : ∀ ks,
    Forall (λ name, ∃ line, line ∈ stdin
                            ∧ name ∈ ViewSimilar.split_line line)
      (ViewSimilar.stdout Mat (view_lines stdin ks).1) →
    Forall (λ name, ∃ line0, line0 ∈ line :: stdin
                             ∧ name ∈ ViewSimilar.split_line line0)
      (ViewSimilar.stdout Mat (view_lines stdin ks).1)).
  { intros ks Hks. eapply Forall_impl; [exact Hks|].
    intros name (l & ? & ?). exists l. split; [by right|done]. }
  case_decide as Hfiles.
  { destruct (IH keys) as [IH1 IH2]. split; [by apply Hmono|done]. }
  destruct (key_loop_stdout (ViewSimilar.split_line line)
              (imread <$> ViewSimilar.split_line line) 0 1 keys)
    as [Hk1 Hk2]; [by rewrite length_fmap|lia|].
  rewrite filter_cons_False in Hk2 by done.
  assert (Hhere : Forall (λ name, ∃ line0, line0 ∈ line :: stdin
                             ∧ name ∈ ViewSimilar.split_line line0)
            (ViewSimilar.stdout Mat
               (key_loop (ViewSimilar.split_line line)
                  (imread <$> ViewSimilar.split_line line) 0 1 keys).1)).
  { eapply Forall_impl; [exact Hk1|]. intros name ?. exists line.
    split; [left|done]. }
  destruct (key_loop _ _ 0 1%Z keys) as [shown [e|keys']] eqn:E;
    simpl in *; [split; [done|lia]|].
  destruct (IH keys') as [IH1 IH2]. rewrite stdout_app, length_app.
  split; [apply Forall_app; split; [done|by apply Hmono]|lia].
Qed.
End ViewerFacts.

(** * The threaded loop on a transitive similarity *)

Section Transitive.
Variable g : gmap nat (gset nat).
Hypothesis g_trans :
  ∀ i j k, sc (edge g) i j → sc (edge g) j k → i ≠ k → sc (edge g) i k.

Lemma rtsc_direct x y : rtsc (edge g) x y → x ≠ y → sc (edge g) x y.
Proof.
  induction 1 as [|x z y Hxz _ IH]; [done|]. intros Hxy.
  destruct (decide (z = y)) as [->|Hzy]; [done|].
  eapply g_trans; [exact Hxz|by apply IH|done].
Qed.

(** The state of the loop once the keys in [P] have been visited: every
    cluster is a whole component of the graph, no two clusters overlap, and
    every key visited that has a neighbour is in a cluster. *)
Lemma trans_cluster_loop l P cs :
  (∀ i, i ∈ l → g !! i.1 = Some i.2) →
  StronglySorted lt l.*1 →
  (∀ m, is_Some (g !! m) → P m ∨ m ∈ l.*1) →
  (∀ i j, edge g i j → i < j) →
  (∀ c x y, c ∈ cs → x ∈ c → (y ∈ c ↔ rtsc (edge g) x y)) →
  pairwise_disjoint cs →
  (∀ k, P k → adj g k ≠ ∅ → ∃ c, c ∈ cs ∧ k ∈ c) →
  ∃ cs', foldl (λ acc i,
                  image_clusters ← acc;
                  Cluster.cluster_step (S (size (graph_ids g))) g
                    image_clusters i)
               (Returns cs) l = Returns cs'
         ∧ (∀ c x y, c ∈ cs' → x ∈ c → (y ∈ c ↔ rtsc (edge g) x y))
         ∧ pairwise_disjoint cs'.
Proof.
  intros Hl Hsorted HP Hlt. revert P cs Hl Hsorted HP.
  induction l as [|[k s] l IH]; intros P cs Hl Hsorted HP H1 H2 H3.
  { exists cs. by split_and!. }
  assert (Hk : g !! k = Some s) by (apply (Hl (k, s)); left).
  assert (Hadj : adj g k = s) by (unfold adj; by rewrite Hk).
  assert (Hl' : ∀ i, i ∈ l → g !! i.1 = Some i.2)
    by (intros; apply Hl; by right).
  rewrite fmap_cons in Hsorted. simpl in Hsorted.
  apply StronglySorted_cons in Hsorted as [Hk_lt Hsorted].
  assert (HP' : ∀ m, is_Some (g !! m) → (P m ∨ m = k) ∨ m ∈ l.*1).
  { intros m Hm. destruct (HP m Hm) as [?|Hin]; [auto|].
    rewrite fmap_cons in Hin. apply elem_of_cons in Hin as [->|?]; auto. }
  assert (Hbefore : ∀ m, is_Some (g !! m) → m < k → P m).
  { intros m Hm Hmk. destruct (HP m Hm) as [?|Hin]; [done|].
    rewrite fmap_cons in Hin. apply elem_of_cons in Hin as [->|Hin];
      simpl in *; [lia|].
    rewrite Forall_forall in Hk_lt. specialize (Hk_lt m Hin). lia. }
  simpl. unfold Cluster.cluster_step at 2. simpl. case_decide as Hs.
  { apply (IH (λ x, P x ∨ x = k)); try done.
    intros k' [?| ->] ?; [auto|congruence]. }
  destruct (build_temp_cluster_reach g k) as (r & -> & Hr). simpl.
  assert (Hkr : k ∈ r) by (by apply Hr).
  assert (Hrk : ∀ y, y ∈ r → rtsc (edge g) k y).
  { intros y Hy%Hr. by apply rtc_rtsc_rl. }
  destruct (unify r cs) as [merged|] eqn:Hu.
  - apply unify_Some in Hu as (pre & c & post & Hcs & _ & Hc & ->).
    assert (Hcin : c ∈ cs) by (rewrite Hcs; set_solver).
    apply not_disjoint_witness in Hc as [z [Hzc Hzr]].
    assert (Hsub : r ⊆ c).
    { intros y Hy. apply (H1 c z y Hcin Hzc).
      etrans; [symmetry; by apply Hrk|by apply Hrk]. }
    replace (c ∪ r) with c by set_solver. rewrite <-Hcs.
    apply (IH (λ x, P x ∨ x = k)); try done.
    intros k' [?| ->] ?; [auto|]. exists c. split; [done|]. by apply Hsub.
  - apply unify_None in Hu.
    apply (IH (λ x, P x ∨ x = k)); try done.
    + intros c x y [Hc| ->%list_elem_of_singleton]%elem_of_app Hx;
        [by apply H1|].
      split.
      * intros Hy. etrans; [symmetry; by apply Hrk|by apply Hrk].
      * intros Hxy.
        assert (Hky : rtsc (edge g) k y) by (etrans; [by apply Hrk|done]).
        destruct (decide (k = y)) as [<-|Hne]; [done|].
        destruct (rtsc_direct k y Hky Hne) as [Hfwd|Hback].
        -- by apply Hr, rtc_once.
        -- exfalso. destruct (H3 y) as (c & Hc & Hyc).
           ++ apply Hbefore; [by eapply edge_is_Some|by apply Hlt].
           ++ by eapply edge_adj_nonempty.
           ++ rewrite Forall_forall in Hu.
              apply (proj1 (elem_of_disjoint c r) (Hu c Hc) k); [|done].
              apply (H1 c y k Hc Hyc). by apply rtsc_lr.
    + by apply pairwise_disjoint_snoc.
    + intros k' [Hk'| ->] ?.
      * destruct (H3 k' Hk') as (c & ? & ?); [done|].
        exists c. split; [set_solver|done].
      * exists r. split; [set_solver|done].
Qed.

Lemma trans_image_clusters_of :
  (∀ i j, edge g i j → i < j) →
  ∃ cs, Cluster.image_clusters_of g = Returns cs
        ∧ (∀ c x y, c ∈ cs → x ∈ c → (y ∈ c ↔ rtsc (edge g) x y))
        ∧ pairwise_disjoint cs.
Proof.
  intros Hlt.
  apply (trans_cluster_loop (asc_items g) (λ _, False) []); try done.
  - by intros [k s] ?%elem_of_asc_items.
  - rewrite asc_items_fst. apply StronglySorted_asc.
  - intros m Hm. right. by rewrite asc_items_fst, elem_of_asc, elem_of_dom.
  - by intros c x y ?%elem_of_nil.
Qed.
End Transitive.

Section TransitiveRuns.
Variable Mat : Type.
Variable imread_phash : string → option Mat.
Variable compare : Mat → Mat → Q.
Variable threshold : Q.
Variable file_list : list string.

Local Abbreviation similar_ := (similar Mat imread_phash compare).

Lemma withinb_spec i j :
  withinb Mat imread_phash compare threshold file_list i j = true
  ↔ within Mat imread_phash compare threshold file_list i j.
Proof.
  unfold withinb, within. split.
  - destruct (fingerprint _ _ _ i) as [hi|]; [|done].
    destruct (fingerprint _ _ _ j) as [hj|]; [|done]. eauto.
  - intros (hi & hj & -> & -> & ?). done.
Qed.

Lemma similarb_spec i j :
  similarb Mat imread_phash compare threshold file_list i j = true
  ↔ similar_ threshold file_list i j.
Proof.
  unfold similarb, similar.
  rewrite orb_true_iff, !andb_true_iff, !Nat.ltb_lt, !withinb_spec. done.
Qed.

Lemma transitive_spec :
  transitive Mat imread_phash compare threshold file_list = true →
  ∀ i j k, similar_ threshold file_list i j → similar_ threshold file_list j k →
           i ≠ k → similar_ threshold file_list i k.
Proof.
  unfold transitive. intros H i j k Hij Hjk Hik.
  assert (Hin : ∀ x y, similar_ threshold file_list x y →
                       In x (seq 0 (length file_list))).
  { intros x y [h Hh]%similar_valid. apply in_seq.
    apply fingerprint_lt in Hh. lia. }
  rewrite forallb_forall in H.
  specialize (H i (Hin _ _ Hij)). rewrite forallb_forall in H.
  specialize (H j (Hin _ _ Hjk)). rewrite forallb_forall in H.
  specialize (H k (Hin _ _ (similar_sym _ _ _ _ _ _ _ Hjk))).
  apply similarb_spec.
  apply similarb_spec in Hij, Hjk. rewrite Hij, Hjk in H. simpl in H.
  destruct (Nat.eqb_spec i k); [done|]. simpl in H. done.
Qed.

Variable num_threads : nat.
Variables sched_hash sched_pairs : list nat.
Hypothesis Hn : 0 < num_threads.

(** On a transitive similarity every cluster of the threaded revision is a
    whole component, and no two clusters overlap. *)
Lemma threaded_transitive_components :
  transitive Mat imread_phash compare threshold file_list = true →
  ∃ cs, Cluster.run Mat imread_phash compare threshold num_threads file_list
          sched_hash sched_pairs = Returns cs
        ∧ (∀ c x y, c ∈ cs → x ∈ c →
             (y ∈ c ↔ connected Mat imread_phash compare threshold file_list
                        x y))
        ∧ pairwise_disjoint cs.
Proof.
  intros HT.
  set (g := Cluster.image_similarities_of Mat imread_phash compare threshold
              num_threads file_list sched_hash sched_pairs).
  assert (Hsc : ∀ i j, sc (edge g) i j ↔ similar_ threshold file_list i j).
  { intros i j. unfold sc, similar, g.
    by rewrite !(threaded_edge Mat imread_phash compare threshold file_list
                   num_threads sched_hash sched_pairs Hn). }
  destruct (trans_image_clusters_of g) as (cs & Hcs & H1 & H2).
  - intros i j k Hij%Hsc Hjk%Hsc Hik. apply Hsc.
    by apply (transitive_spec HT i j k).
  - intros i j Hij. unfold g in Hij.
    by apply (threaded_edge Mat imread_phash compare threshold file_list
                num_threads sched_hash sched_pairs Hn) in Hij as [? _].
  - exists cs. split_and!; [done| |done].
    intros c x y Hc Hx. rewrite (H1 c x y Hc Hx).
    by apply (threaded_graph_connected Mat imread_phash compare threshold
                file_list num_threads sched_hash sched_pairs Hn).
Qed.
End TransitiveRuns.

Lemma pairwise_disjoint_NoDup (cs : list (gset nat)) :
  pairwise_disjoint cs → (∀ c, c ∈ cs → c ≠ ∅) → NoDup cs.
Proof.
  intros Hd Hne. apply NoDup_alt. intros a b c Ha Hb.
  destruct (decide (a = b)) as [|Hab]; [done|].
  specialize (Hd a b c c Hab Ha Hb).
  destruct (Hne c); [by eapply list_elem_of_lookup_2|]. set_solver.
Qed.

Lemma size_two_other (c : gset nat) (x : nat) :
  2 ≤ size c → x ∈ c → ∃ y, y ∈ c ∧ x ≠ y.
Proof.
  intros Hsz Hx. destruct (decide (c ⊆ {[x]})) as [Hsub|Hsub].
  - apply subseteq_size in Hsub. rewrite size_singleton in Hsub. lia.
  - destruct (set_choose_L (c ∖ {[x]})) as [y Hy].
    + intros He. apply Hsub. intros y Hy.
      destruct (decide (y = x)) as [->|Hne]; [by apply elem_of_singleton|].
      exfalso. apply (not_elem_of_empty (C := gset nat) y). rewrite <-He.
      apply elem_of_difference. split; [done|]. by rewrite elem_of_singleton.
    + apply elem_of_difference in Hy as [Hy Hne].
      exists y. split; [done|]. intros ->. by apply Hne, elem_of_singleton.
Qed.

(** * Keys after a key that quits *)

Section ViewerQuit.
Variable Mat : Type.
Variable imread : string → Mat.
Variables cols rows : Mat → Z.

Local Abbreviation key_loop := (ViewSimilar.key_loop Mat cols rows).
Local Abbreviation view_lines := (ViewSimilar.view_lines Mat imread cols rows).

(** The keys after a key that quits do not matter to a line: the loop either
    ends [main] in the same way, or leaves the same keys before it. *)
Lemma key_loop_quit (q : Z) (rest : list Z) files images keys :
  (q = 27 ∨ q = 113)%Z →
  ∀ current_image key,
    (key_loop files images current_image key (keys ++ q :: rest)).1
    = (key_loop files images current_image key (keys ++ [q])).1
    ∧ match (key_loop files images current_image key (keys ++ q :: rest)).2,
            (key_loop files images current_image key (keys ++ [q])).2 with
      | inl e1, inl e2 => e1 = e2
      | inr k1, inr k2 => ∃ ks, k1 = ks ++ q :: rest ∧ k2 = ks ++ [q]
      | _, _ => False
      end.
Proof.
  intros Hq.
  assert (Hq0 : q ≠ 0%Z) by lia.
  assert (Hend : ∀ current_image l,
            key_loop files images current_image q l
            = match ViewSimilar.status Mat cols rows files images
                      current_image with
              | Some _ => ([], inl ViewSimilar.Return0)
              | None => ([], inl ViewSimilar.OutOfRange)
              end).
  { intros current_image l. destruct l; simpl;
      (destruct (ViewSimilar.status _ _ _ _ _ _); [|done]);
      by rewrite !(decide_True (P := (q = 27 ∨ q = 113)%Z)). }
  induction keys as [|k keys IH]; intros current_image key.
  - simpl.
    destruct (ViewSimilar.status _ _ _ _ _ _) eqn:Hst; [|done].
    destruct (decide (q = 0%Z)) as [?|_]; [done|].
    repeat case_decide; simpl; try done;
      repeat match goal with
             | |- context [images !! ?i] => destruct (images !! i); simpl
             | |- context [files !! ?i] => destruct (files !! i); simpl
             end; try done;
      try (split; [done|by exists []]);
      rewrite (Hend _ rest), ?Hst; simpl; try done;
      match goal with
      | |- context [ViewSimilar.status ?a ?b ?c ?d ?e ?f] =>
          destruct (ViewSimilar.status a b c d e f); by simpl
      end.
  - simpl.
    destruct (ViewSimilar.status _ _ _ _ _ _); [|done].
    repeat case_decide; simpl; try done;
      repeat match goal with
             | |- context [images !! ?i] => destruct (images !! i); simpl
             | |- context [files !! ?i] => destruct (files !! i); simpl
             end; try done;
      try (split; [done|by exists (k :: keys)]);
      try (split; [done|by exists keys]);
      match goal with
      | |- context [key_loop _ _ ?c k (keys ++ q :: rest)] =>
          destruct (IH c k) as [-> ?]; by split
      end.
Qed.

Lemma view_lines_quit (q : Z) (rest : list Z) stdin :
  (q = 27 ∨ q = 113)%Z →
  ∀ keys, view_lines stdin (keys ++ q :: rest) = view_lines stdin (keys ++ [q]).
Proof.
  intros Hq. induction stdin as [|line stdin IH]; intros keys; [done|].
  simpl. case_decide; [done|].
  destruct (key_loop_quit q rest (ViewSimilar.split_line line)
              (imread <$> ViewSimilar.split_line line) keys Hq 0 1)
    as [H1 H2].
  destruct (key_loop _ _ 0 1 (keys ++ q :: rest)) as [shown1 [e1|k1]],
           (key_loop _ _ 0 1 (keys ++ [q])) as [shown2 [e2|k2]];
    simpl in *; try done.
  - congruence.
  - destruct H2 as (ks & -> & ->). by rewrite H1, IH.
Qed.
End ViewerQuit.

(** * The claims *)

(** C1 fails on the threaded revision: on the chain d - a, d - c, c - e,
    e - b with threshold 1 it prints two clusters that both contain e (id 4),
    whatever the number of workers and the schedules. *)
Theorem threaded_clusters_overlap (hc : nat) (s1 s2 : list nat) :
  Cluster.main N (Hamming.imread_phash Hamming.chain) Hamming.compare
    Hamming.stod true "1" hc Hamming.files s1 s2
  = Returns [["a"; "c"; "d"; "e"]; ["b"; "e"]]
  ∧ ∃ c1 c2,
      Cluster.run N (Hamming.imread_phash Hamming.chain) Hamming.compare 1
        (num_threads_of hc) Hamming.files s1 s2 = Returns [c1; c2]
      ∧ 4 ∈ c1 ∧ 4 ∈ c2 ∧ ¬ pairwise_disjoint [c1; c2].
Proof.
  split.
  - rewrite (threaded_main_indep _ _ _ _ _ _ _ hc 1 s1 s2 [] []).
    by vm_compute.
  - exists {[0; 2; 3; 4]}, {[1; 4]}.
    rewrite (threaded_run_indep _ _ _ _ _ (num_threads_of hc) 1 s1 s2 [] [])
      by (try apply num_threads_of_pos; lia).
    split_and!; [by vm_compute|set_solver..|].
    intros Hdisj.
    assert (({[0; 2; 3; 4]} : gset nat) ## {[1; 4]}) as Hd
      by (by apply (Hdisj 0 1)).
    set_solver.
Qed.

(** C2 as stated fails: two copies of one image are within every threshold,
    yet the threaded revision stores the edge from id 0 to id 1 only. *)
Lemma twins_edge_one_direction :
  within N (Hamming.imread_phash Hamming.twins) Hamming.compare 0
    ["a"; "b"] 0 1
  ∧ ¬ (1 ∈ adj Hamming.twins_graph 0 ↔ 0 ∈ adj Hamming.twins_graph 1).
Proof.
  split.
  - exists 5%N, 5%N. split_and!; reflexivity.
  - intros [H _].
    assert (H1 : 1 ∈ adj Hamming.twins_graph 0)
      by (apply (bool_decide_unpack _); by vm_compute).
    assert (H0 : 0 ∉ adj Hamming.twins_graph 1)
      by (apply (bool_decide_unpack _); by vm_compute).
    exact (H0 (H H1)).
Qed.

(** C2, as the code has it: the threaded comparison phase inserts every
    pair of valid fingerprints within the threshold once, from the lower to
    the higher id, so [j] is a neighbour of [i] exactly when [i < j] and the
    pair is within the threshold, and never the other way round; the
    sequential revision inserts both directions and its graph is symmetric. *)
Theorem threaded_graph_stores_ordered_pairs
    (Mat : Type) (imread_phash : string → option Mat)
    (compare : Mat → Mat → Q) (threshold : Q) (num_threads : nat)
    (file_list : list string) (s1 s2 : list nat) :
  0 < num_threads →
  let g := Cluster.image_similarities_of Mat imread_phash compare threshold
             num_threads file_list s1 s2 in
  let g' := ClusterSeq.image_similarities_of Mat imread_phash compare
              threshold num_threads file_list s1 in
  (∀ i j, j ∈ adj g i
          ↔ i < j ∧ within Mat imread_phash compare threshold file_list i j)
  ∧ (∀ i j, j ∈ adj g i → i ∉ adj g j)
  ∧ (∀ i j, j ∈ adj g' i ↔ i ∈ adj g' j).
Proof.
  intros Hn g g'. split_and!.
  - intros i j. by apply image_similarities_of_adj.
  - intros i j [? _]%image_similarities_of_adj [? _]%image_similarities_of_adj;
      [lia|done..].
  - intros i j. unfold g'. rewrite !seq_graph_adj by done.
    split; apply similar_sym.
Qed.

Lemma threaded_graph_stores_ordered_pairs_witness :
  0 < 2
  ∧ ∀ i j,
      j ∈ adj (Cluster.image_similarities_of N
                 (Hamming.imread_phash Hamming.twins) Hamming.compare 0 2
                 ["a"; "b"] [1] [0]) i
      ↔ i < j ∧ within N (Hamming.imread_phash Hamming.twins) Hamming.compare
                  0 ["a"; "b"] i j.
Proof.
  assert (H : 0 < 2) by lia. split; [exact H|].
  exact (proj1 (threaded_graph_stores_ordered_pairs N
                  (Hamming.imread_phash Hamming.twins) Hamming.compare 0 2
                  ["a"; "b"] [1] [0] H)).
Defined.

(** C3 fails on the threaded revision: on the same input the images a (id 0)
    and b (id 1) are connected by the path a - d - c - e - b of distances 1,
    and no cluster contains both. *)
Theorem threaded_clusters_split_component (hc : nat) (s1 s2 : list nat) :
  connected N (Hamming.imread_phash Hamming.chain) Hamming.compare 1
    Hamming.files 0 1
  ∧ ∃ cs,
      Cluster.run N (Hamming.imread_phash Hamming.chain) Hamming.compare 1
        (num_threads_of hc) Hamming.files s1 s2 = Returns cs
      ∧ ∀ c, c ∈ cs → ¬ (0 ∈ c ∧ 1 ∈ c).
Proof.
  split.
  - unfold connected.
    apply (rtc_l _ _ 3); [left; split; [lia|]; exists 1%N, 0%N; by vm_compute|].
    apply (rtc_l _ _ 2); [right; split; [lia|]; exists 2%N, 0%N; by vm_compute|].
    apply (rtc_l _ _ 4); [left; split; [lia|]; exists 2%N, 6%N; by vm_compute|].
    apply rtc_once. right; split; [lia|]. exists 14%N, 6%N. by vm_compute.
  - exists [{[0; 2; 3; 4]}; {[1; 4]}].
    rewrite (threaded_run_indep _ _ _ _ _ (num_threads_of hc) 1 s1 s2 [] [])
      by (try apply num_threads_of_pos; lia).
    split; [by vm_compute|]. intros c Hc [H0 H1].
    apply elem_of_cons in Hc as [->|Hc]; [set_solver|].
    apply list_elem_of_singleton in Hc as ->. set_solver.
Qed.

(** C4 as stated fails: of two copies of one image, id 1 has a valid image
    within the threshold (id 0) and is not a key of the threaded graph. *)
Lemma twins_partner_without_key :
  ¬ (is_Some (Hamming.twins_graph !! 1)
     ↔ ∃ j, j ≠ 1 ∧ similar N (Hamming.imread_phash Hamming.twins)
                      Hamming.compare 0 ["a"; "b"] 1 j).
Proof.
  intros [_ H].
  assert (Hnone : Hamming.twins_graph !! 1 = None) by (by vm_compute).
  destruct H as [x Hx]; [|by rewrite Hnone in Hx].
  exists 0. split; [done|]. right. split; [lia|].
  exists 5%N, 5%N. split_and!; reflexivity.
Qed.

(** C4, as the code has it: in the finished graph of the threaded revision an
    id is a key exactly when its stored neighbour set is not empty, which is
    when some image with a higher id is within the threshold; an id without a
    similar partner is never a key.  In the sequential revision every id with
    a valid fingerprint is a key. *)
Theorem threaded_graph_keys
    (Mat : Type) (imread_phash : string → option Mat)
    (compare : Mat → Mat → Q) (threshold : Q) (num_threads : nat)
    (file_list : list string) (s1 s2 : list nat) (i : nat) :
  0 < num_threads →
  let g := Cluster.image_similarities_of Mat imread_phash compare threshold
             num_threads file_list s1 s2 in
  let g' := ClusterSeq.image_similarities_of Mat imread_phash compare
              threshold num_threads file_list s1 in
  (is_Some (g !! i) ↔ adj g i ≠ ∅)
  ∧ (is_Some (g !! i)
     ↔ ∃ j, i < j ∧ within Mat imread_phash compare threshold file_list i j)
  ∧ ((∀ j, ¬ similar Mat imread_phash compare threshold file_list i j) →
     g !! i = None)
  ∧ (is_Some (g' !! i) ↔ is_Some (fingerprint Mat imread_phash file_list i)).
Proof.
  intros Hn g g'.
  assert (Hkey : is_Some (g !! i)
     ↔ ∃ j, i < j ∧ within Mat imread_phash compare threshold file_list i j)
    by (by apply image_similarities_of_is_Some).
  split_and!.
  - rewrite Hkey. split.
    + intros (j & Hj). apply (edge_adj_nonempty g i j). unfold edge, g.
      by apply image_similarities_of_adj.
    + intros [j Hj]%adj_nonempty_edge. exists j.
      by apply image_similarities_of_adj in Hj.
  - done.
  - intros Hno. apply eq_None_not_Some. rewrite Hkey.
    intros (j & ? & ?). apply (Hno j). by left.
  - by apply seq_graph_is_Some.
Qed.

Lemma threaded_graph_keys_witness :
  0 < 2
  ∧ (is_Some (Cluster.image_similarities_of N
                (Hamming.imread_phash Hamming.twins) Hamming.compare 0 2
                ["a"; "b"] [1] [0] !! 0)
     ↔ adj (Cluster.image_similarities_of N
              (Hamming.imread_phash Hamming.twins) Hamming.compare 0 2
              ["a"; "b"] [1] [0]) 0 ≠ ∅).
Proof.
  assert (H : 0 < 2) by lia. split; [exact H|].
  exact (proj1 (threaded_graph_keys N
                  (Hamming.imread_phash Hamming.twins) Hamming.compare 0 2
                  ["a"; "b"] [1] [0] 0 H)).
Defined.

(** C5 fails on the threaded revision: on the input [fork] the cluster
    {b, c, e} printed at threshold 2 is contained in neither of the clusters
    {a, c, d, e} and {b, e} printed at threshold 3. *)
Theorem threaded_clusters_not_monotone (hc : nat) (s1 s2 : list nat) :
  Cluster.main N (Hamming.imread_phash Hamming.fork) Hamming.compare
    Hamming.stod true "2" hc Hamming.files s1 s2
  = Returns [["a"; "d"]; ["b"; "c"; "e"]]
  ∧ Cluster.main N (Hamming.imread_phash Hamming.fork) Hamming.compare
      Hamming.stod true "3" hc Hamming.files s1 s2
    = Returns [["a"; "c"; "d"; "e"]; ["b"; "e"]]
  ∧ ∃ cs2 cs3,
      Cluster.run N (Hamming.imread_phash Hamming.fork) Hamming.compare 2
        (num_threads_of hc) Hamming.files s1 s2 = Returns cs2
      ∧ Cluster.run N (Hamming.imread_phash Hamming.fork) Hamming.compare 3
          (num_threads_of hc) Hamming.files s1 s2 = Returns cs3
      ∧ ∃ c, c ∈ cs2 ∧ ∀ c', c' ∈ cs3 → ¬ c ⊆ c'.
Proof.
  split_and!.
  - rewrite (threaded_main_indep _ _ _ _ _ _ _ hc 1 s1 s2 [] []).
    by vm_compute.
  - rewrite (threaded_main_indep _ _ _ _ _ _ _ hc 1 s1 s2 [] []).
    by vm_compute.
  - exists [{[0; 3]}; {[1; 2; 4]}], [{[0; 2; 3; 4]}; {[1; 4]}].
    rewrite !(threaded_run_indep _ _ _ _ _ (num_threads_of hc) 1 s1 s2 [] [])
      by (try apply num_threads_of_pos; lia).
    split_and!; [by vm_compute..|].
    exists {[1; 2; 4]}. split; [set_solver|]. intros c' Hc' Hsub.
    apply elem_of_cons in Hc' as [->|Hc'].
    + specialize (Hsub 1). set_solver.
    + apply list_elem_of_singleton in Hc' as ->. specialize (Hsub 2). set_solver.
Qed.

(** C6: for a fixed input and threshold, any two numbers of workers (at
    least one) and any schedules give the same hash list, the same similarity
    graph, the same clusters and the same printed report; the two shared
    containers end up the same for any two interleavings of the steps of the
    workers. *)
Theorem cluster_result_independent_of_workers
    (Mat : Type) (imread_phash : string → option Mat)
    (compare : Mat → Mat → Q) (stod : string → option Q)
    (threshold : Q) (flag_threshold : bool) (string_threshold : string)
    (file_list : list string) (n1 n2 : nat) (s1 s1' s2 s2' : list nat) :
  0 < n1 → 0 < n2 →
  Cluster.hash_phase Mat imread_phash file_list n1 s1
  = Cluster.hash_phase Mat imread_phash file_list n2 s2
  ∧ Cluster.image_similarities_of Mat imread_phash compare threshold n1
      file_list s1 s1'
    = Cluster.image_similarities_of Mat imread_phash compare threshold n2
        file_list s2 s2'
  ∧ Cluster.run Mat imread_phash compare threshold n1 file_list s1 s1'
    = Cluster.run Mat imread_phash compare threshold n2 file_list s2 s2'
  ∧ Cluster.main Mat imread_phash compare stod flag_threshold
      string_threshold n1 file_list s1 s1'
    = Cluster.main Mat imread_phash compare stod flag_threshold
        string_threshold n2 file_list s2 s2'
  ∧ (∀ tr1 tr2,
       interleaving (Cluster.hash_workers Mat imread_phash file_list n1) tr1 →
       interleaving (Cluster.hash_workers Mat imread_phash file_list n2) tr2 →
       foldl (Cluster.store Mat) (replicate (length file_list) None) tr1
       = foldl (Cluster.store Mat) (replicate (length file_list) None) tr2)
  ∧ (∀ hash_list tr1 tr2,
       interleaving
         (Cluster.pair_workers Mat compare hash_list threshold n1) tr1 →
       interleaving
         (Cluster.pair_workers Mat compare hash_list threshold n2) tr2 →
       foldl Cluster.insert_edge ∅ tr1 = foldl Cluster.insert_edge ∅ tr2).
Proof.
  intros H1 H2. split_and!.
  - by rewrite !hash_phase_spec.
  - by apply image_similarities_of_indep.
  - by apply threaded_run_indep.
  - apply threaded_main_indep.
  - intros tr1 tr2. by apply hash_stores_indep.
  - intros hash_list tr1 tr2. by apply (pair_inserts_indep Mat compare).
Qed.

Lemma cluster_result_independent_of_workers_witness :
  0 < 1 ∧ 0 < 3
  ∧ Cluster.run N (Hamming.imread_phash Hamming.chain) Hamming.compare 1 1
      Hamming.files [] []
    = Cluster.run N (Hamming.imread_phash Hamming.chain) Hamming.compare 1 3
        Hamming.files [2; 0; 1] [1; 1; 0; 2].
Proof.
  assert (H1 : 0 < 1) by lia. assert (H3 : 0 < 3) by lia.
  split; [exact H1|]. split; [exact H3|].
  exact (proj1 (proj2 (proj2
    (cluster_result_independent_of_workers N
       (Hamming.imread_phash Hamming.chain) Hamming.compare Hamming.stod
       1 false "" Hamming.files 1 3 [] [] [2; 0; 1] [1; 1; 0; 2] H1 H3)))).
Defined.



(** C8: an image that does not decode is in no cluster and not among the
    unique images, in both revisions; it is neither a key nor a neighbour in
    the graph; the run returns all the same, and the images that do decode
    are compared as if the failing image were not there. *)
Theorem unreadable_image_is_excluded
    (Mat : Type) (imread_phash : string → option Mat)
    (compare : Mat → Mat → Q) (threshold : Q) (num_threads : nat)
    (file_list : list string) (s1 s2 : list nat) (i : nat) (f : string) :
  0 < num_threads → file_list !! i = Some f → imread_phash f = None →
  let g := Cluster.image_similarities_of Mat imread_phash compare threshold
             num_threads file_list s1 s2 in
  let g' := ClusterSeq.image_similarities_of Mat imread_phash compare
              threshold num_threads file_list s1 in
  (∃ cs, Cluster.run Mat imread_phash compare threshold num_threads
           file_list s1 s2 = Returns cs
         ∧ ∀ c, c ∈ cs → i ∉ c)
  ∧ (∃ st, ClusterSeq.run Mat imread_phash compare threshold num_threads
             file_list s1 = Returns st
           ∧ (∀ c, c ∈ st.1 → i ∉ c) ∧ i ∉ st.2)
  ∧ (i ∉ graph_ids g) ∧ (i ∉ graph_ids g')
  ∧ (∀ a b, b ∈ adj g a
            ↔ a < b ∧ within Mat imread_phash compare threshold file_list a b)
  ∧ (∀ a b, b ∈ adj g' a
            ↔ similar Mat imread_phash compare threshold file_list a b).
Proof.
  intros Hn Hi Hf g g'.
  assert (Hfp : ¬ is_Some (fingerprint Mat imread_phash file_list i)).
  { unfold fingerprint. rewrite Hi. simpl. rewrite Hf. by intros [??]. }
  assert (Hsim : ∀ y, ¬ similar Mat imread_phash compare threshold file_list
                        i y).
  { intros y Hy. by apply similar_valid in Hy. }
  split_and!.
  - destruct (threaded_run_Returns Mat imread_phash compare threshold
                file_list num_threads s1 s2 Hn) as (cs & Hcs & Hall).
    exists cs. split; [done|]. rewrite Forall_forall in Hall.
    intros c Hc Hic. destruct (Hall c Hc i Hic) as [y Hy]. by eapply Hsim.
  - destruct (seq_clusters_partition Mat imread_phash compare threshold
                file_list num_threads s1 Hn) as (st & Hst & _ & _ & Hall).
    exists st. split; [done|]. split.
    + intros c Hc Hic. apply Hfp, Hall. eauto.
    + intros Hic. apply Hfp, Hall. eauto.
  - intros [y Hy]%threaded_graph_ids; [|done]. by eapply Hsim.
  - intros [Hk|[a Ha]]%elem_of_graph_ids.
    + by apply seq_graph_is_Some in Hk.
    + apply seq_graph_adj in Ha; [|done]. by eapply Hsim, similar_sym.
  - intros a b. by apply image_similarities_of_adj.
  - intros a b. by apply seq_graph_adj.
Qed.

Lemma unreadable_image_is_excluded_witness :
  0 < 2 ∧ (["a"; "x"; "d"] !! 1 = Some "x")
  ∧ Hamming.imread_phash Hamming.chain "x" = None
  ∧ ∃ cs, Cluster.run N (Hamming.imread_phash Hamming.chain) Hamming.compare
            1 2 ["a"; "x"; "d"] [1; 0] [0] = Returns cs
          ∧ ∀ c, c ∈ cs → 1 ∉ c.
Proof.
  assert (H2 : 0 < 2) by lia.
  assert (Hx : ["a"; "x"; "d"] !! 1 = Some "x") by reflexivity.
  assert (Hf : Hamming.imread_phash Hamming.chain "x" = None) by reflexivity.
  split; [exact H2|]. split; [exact Hx|]. split; [exact Hf|].
  exact (proj1
    (unreadable_image_is_excluded N (Hamming.imread_phash Hamming.chain)
       Hamming.compare 1 2 ["a"; "x"; "d"] [1; 0] [0] 1 "x" H2 Hx Hf)).
Defined.

(** C9: unless it prints its usage, img-search prints exactly the lines of
    the standard input whose image decodes and is within the threshold of at
    least one image of the search list that decodes, in the order of the
    input; with the haystack X, Y and the search list Q, where X is within the
    threshold of Q and Y is not, it prints exactly X. *)
Theorem search_prints_matching_haystack
    (Mat : Type) (imread_phash : string → option Mat)
    (compare : Mat → Mat → Q) (stod : string → option Q)
    (argv stdin : list string) (hardware_concurrency : nat)
    (sched : list nat) :
  ¬ (length argv = 1 ∨ (1 ≤ length argv ∧ argv !! 1 = Some "-h")) →
  let threshold := (ImgSearch.threshold_of stod argv).1 in
  let search_list := drop (ImgSearch.threshold_of stod argv).2 argv in
  ImgSearch.main Mat imread_phash compare stod argv stdin hardware_concurrency
    sched
  = Returns (filter (λ p, matches Mat imread_phash compare threshold
                            search_list p) stdin)
  ∧ (∀ p, matches Mat imread_phash compare threshold search_list p
          ↔ ∃ h q hq, imread_phash p = Some h ∧ q ∈ search_list
                      ∧ imread_phash q = Some hq
                      ∧ Qle_bool (compare h hq) threshold = true)
  ∧ (∀ prog s t X Y Qf hx hy hq,
       stod s = Some t →
       imread_phash X = Some hx → imread_phash Y = Some hy →
       imread_phash Qf = Some hq →
       Qle_bool (compare hx hq) t = true →
       Qle_bool (compare hy hq) t = false →
       ImgSearch.main Mat imread_phash compare stod [prog; "-t"; s; Qf] [X; Y]
         hardware_concurrency sched
       = Returns [X]).
Proof.
  intros Hhelp threshold search_list. split_and!.
  - by apply search_main_query.
  - intros p. apply matches_spec.
  - intros prog s t X Y Qf hx hy hq Hs HX HY HQ Hxq Hyq.
    rewrite search_main_query by (intros [?|[_ ?]]; simplify_eq/=).
    unfold ImgSearch.threshold_of.
    rewrite decide_True by (simpl; split; [lia|done]).
    simpl. rewrite Hs. simpl. f_equal.
    assert (HmX : matches Mat imread_phash compare t [Qf] X).
    { unfold matches. simpl. rewrite HX, HQ, Hxq. by compute. }
    assert (HmY : ¬ matches Mat imread_phash compare t [Qf] Y).
    { unfold matches. simpl. rewrite HY, HQ, Hyq. by compute. }
    rewrite filter_cons_True, filter_cons_False by done. done.
Qed.

Lemma search_prints_matching_haystack_witness :
  ¬ (length ["img-search"; "-t"; "1"; "d"] = 1
     ∨ (1 ≤ length ["img-search"; "-t"; "1"; "d"]
        ∧ ["img-search"; "-t"; "1"; "d"] !! 1 = Some "-h"))
  ∧ ImgSearch.main N (Hamming.imread_phash Hamming.chain) Hamming.compare
      Hamming.stod ["img-search"; "-t"; "1"; "d"] ["a"; "b"] 2 [1]
    = Returns
        (filter (λ p, matches N (Hamming.imread_phash Hamming.chain)
                        Hamming.compare
                        (ImgSearch.threshold_of Hamming.stod
                           ["img-search"; "-t"; "1"; "d"]).1
                        (drop (ImgSearch.threshold_of Hamming.stod
                                 ["img-search"; "-t"; "1"; "d"]).2
                           ["img-search"; "-t"; "1"; "d"]) p)
           ["a"; "b"]).
Proof.
  assert (Hh : ¬ (length ["img-search"; "-t"; "1"; "d"] = 1
     ∨ (1 ≤ length ["img-search"; "-t"; "1"; "d"]
        ∧ ["img-search"; "-t"; "1"; "d"] !! 1 = Some "-h"))).
    by (apply (bool_decide_unpack _); by vm_compute).
  split; [exact Hh|].
  exact (proj1
    (search_prints_matching_haystack N (Hamming.imread_phash Hamming.chain)
       Hamming.compare Hamming.stod ["img-search"; "-t"; "1"; "d"]
       ["a"; "b"] 2 [1] Hh)).
Defined.

(** C10: with a recursion budget above the number of ids of the graph,
    [build_temp_cluster] returns, for every graph, every set already
    collected and every start id: the depth of the recursion is at most the
    number of ids of the graph, and a larger budget gives the same set.  (The
    sequential revision may throw where a neighbour is not a key, but does
    not run out of budget either.) *)
Theorem build_temp_cluster_terminates
    (g : gmap nat (gset nat)) (temp_cluster : gset nat) (start fuel : nat) :
  size (graph_ids g) < fuel →
  (∃ r, Cluster.build_temp_cluster fuel g temp_cluster start = Returns r
        ∧ temp_cluster ⊆ r ∧ r ⊆ temp_cluster ∪ graph_ids g
        ∧ ∀ fuel', fuel ≤ fuel' →
            Cluster.build_temp_cluster fuel' g temp_cluster start = Returns r)
  ∧ ClusterSeq.build_temp_cluster fuel g temp_cluster start ≠ OutOfFuel.
Proof.
  intros Hfuel.
  assert (Hle : size (graph_ids g ∖ temp_cluster) < fuel).
  { assert (size (graph_ids g ∖ temp_cluster) ≤ size (graph_ids g)); [|lia].
    apply subseteq_size. set_solver. }
  split; [|by apply build_temp_cluster_seq_fuel].
  destruct (build_temp_cluster_visited g fuel temp_cluster start Hle)
    as (r & Hr & [H1 H2 _ _]).
  exists r. split_and!; [done..| |].
  - intros x Hx. apply elem_of_union.
    destruct (decide (x ∈ temp_cluster)) as [?|Hnew]; [by left|right].
    apply (tc_last_edge g start). by apply H2.
  - intros fuel' Hfuel'. by apply (build_temp_cluster_fuel_mono fuel).
Qed.

Lemma build_temp_cluster_terminates_witness :
  size (graph_ids (<[0 := {[1]}]> (<[1 := {[0]}]> (∅ : gmap nat (gset nat)))))
  < 3
  ∧ ∃ r, Cluster.build_temp_cluster 3
           (<[0 := {[1]}]> (<[1 := {[0]}]> (∅ : gmap nat (gset nat))))
           {[0]} 0 = Returns r
         ∧ {[0]} ⊆ r
         ∧ r ⊆ {[0]} ∪ graph_ids
                 (<[0 := {[1]}]> (<[1 := {[0]}]> (∅ : gmap nat (gset nat))))
         ∧ ∀ fuel', 3 ≤ fuel' →
             Cluster.build_temp_cluster fuel'
               (<[0 := {[1]}]> (<[1 := {[0]}]> (∅ : gmap nat (gset nat))))
               {[0]} 0 = Returns r.
Proof.
  assert (H : size (graph_ids (<[0 := {[1]}]>
                      (<[1 := {[0]}]> (∅ : gmap nat (gset nat))))) < 3)
    by (vm_compute; lia).
  split; [exact H|].
  exact (proj1 (build_temp_cluster_terminates
                  (<[0 := {[1]}]> (<[1 := {[0]}]> ∅)) {[0]} 0 3 H)).
Defined.

(** * Further properties of the programs *)

(** ** The threaded revision *)

(** X1: in the hash phase of the threaded revision every slot of
    [hash_list] is written exactly once, by the worker whose number is the
    index modulo the number of workers, so no two workers write the same
    slot; once the workers are joined, slot [i] holds the hash of file [i],
    or no data when the file does not decode, whatever the interleaving. *)
Theorem hash_list_slots_written_once
    (Mat : Type) (imread_phash : string → option Mat)
    (file_list : list string) (num_threads : nat) :
  0 < num_threads →
  (∀ t w i v,
     Cluster.hash_workers Mat imread_phash file_list num_threads !! t
     = Some w →
     (i, v) ∈ w → i mod num_threads = t)
  ∧ ∀ tr,
      interleaving
        (Cluster.hash_workers Mat imread_phash file_list num_threads) tr →
      tr.*1 ≡ₚ seq 0 (length file_list)
      ∧ foldl (Cluster.store Mat) (replicate (length file_list) None) tr
        = imread_phash <$> file_list.
Proof.
  intros Hn. split.
  - intros t w i v.
    exact (hash_store_owner Mat imread_phash file_list num_threads t w i v).
  - intros tr Htr. split; [by eapply hash_stores_once|].
    destruct (interleaving_schedule _ _ Htr) as [sched <-].
    by apply hash_phase_spec.
Qed.

Lemma hash_list_slots_written_once_witness :
  0 < 2
  ∧ ∀ t w i v,
      Cluster.hash_workers N (Hamming.imread_phash Hamming.chain)
        Hamming.files 2 !! t = Some w →
      (i, v) ∈ w → i mod 2 = t.
Proof.
  assert (H : 0 < 2) by lia. split; [exact H|].
  exact (proj1 (hash_list_slots_written_once N
                  (Hamming.imread_phash Hamming.chain) Hamming.files 2 H)).
Defined.

(** X2: in the comparison phase of the threaded revision every pair is taken
    by one worker, the one whose number is the lower id modulo the number of
    workers; the edges inserted are the pairs [i < j] of hashes with data
    whose distance is at most the threshold, and none is inserted twice,
    whatever the interleaving. *)
Theorem similar_pairs_inserted_once
    (Mat : Type) (compare : Mat → Mat → Q)
    (hash_list : list (option Mat)) (threshold : Q) (num_threads : nat) :
  0 < num_threads →
  (∀ t w i j,
     Cluster.pair_workers Mat compare hash_list threshold num_threads !! t
     = Some w →
     (i, j) ∈ w → i mod num_threads = t)
  ∧ ∀ tr,
      interleaving
        (Cluster.pair_workers Mat compare hash_list threshold num_threads)
        tr →
      NoDup tr
      ∧ ∀ i j, (i, j) ∈ tr ↔ stored_edge Mat compare hash_list threshold i j.
Proof.
  intros Hn. split.
  - intros t w i j.
    exact (pair_insert_owner Mat compare hash_list threshold num_threads t w
             i j).
  - intros tr Htr. split; [by eapply pair_inserts_once|].
    intros i j. rewrite (interleaving_Permutation _ _ Htr), elem_of_concat.
    by apply elem_of_pair_workers.
Qed.

Lemma similar_pairs_inserted_once_witness :
  0 < 3
  ∧ ∀ t w i j,
      Cluster.pair_workers N Hamming.compare
        [Some 1%N; None; Some 0%N] 1 3 !! t = Some w →
      (i, j) ∈ w → i mod 3 = t.
Proof.
  assert (H : 0 < 3) by lia. split; [exact H|].
  exact (proj1 (similar_pairs_inserted_once N Hamming.compare
                  [Some 1%N; None; Some 0%N] 1 3 H)).
Defined.

(** X3: [build_temp_cluster] of the threaded revision, started on the set
    that holds [start] alone, returns exactly the ids that the stored edges
    reach from [start]; started on any set, it keeps what was collected,
    adds only ids that are reachable from [start], adds every neighbour of
    [start], and what it adds is closed under the stored edges. *)
Theorem build_temp_cluster_collects_reachable
    (g : gmap nat (gset nat)) (temp_cluster : gset nat) (start fuel : nat) :
  size (graph_ids g) < fuel →
  (∃ r, Cluster.build_temp_cluster fuel g {[start]} start = Returns r
        ∧ ∀ x, x ∈ r ↔ rtc (edge g) start x)
  ∧ (∃ r, Cluster.build_temp_cluster fuel g temp_cluster start = Returns r
          ∧ temp_cluster ⊆ r
          ∧ (∀ x, x ∈ r → x ∉ temp_cluster → tc (edge g) start x)
          ∧ (∀ y, edge g start y → y ∈ r)
          ∧ (∀ x y, x ∈ r → x ∉ temp_cluster → edge g x y → y ∈ r)).
Proof.
  intros Hfuel. split.
  - destruct (build_temp_cluster_reach g start) as (r & Hr & Hreach).
    exists r. split; [|done].
    apply (build_temp_cluster_fuel_mono (S (size (graph_ids g)))); [lia|done].
  - assert (Hle : size (graph_ids g ∖ temp_cluster) < fuel).
    { assert (size (graph_ids g ∖ temp_cluster) ≤ size (graph_ids g)); [|lia].
      apply subseteq_size. set_solver. }
    destruct (build_temp_cluster_visited g fuel temp_cluster start Hle)
      as (r & Hr & [H1 H2 H3 H4]).
    exists r. split_and!; done.
Qed.

Lemma build_temp_cluster_collects_reachable_witness :
  size (graph_ids (<[0 := {[1]}]> (<[1 := {[2]}]> (∅ : gmap nat (gset nat)))))
  < 4
  ∧ ∃ r, Cluster.build_temp_cluster 4
           (<[0 := {[1]}]> (<[1 := {[2]}]> (∅ : gmap nat (gset nat))))
           {[0]} 0 = Returns r
         ∧ ∀ x, x ∈ r
                ↔ rtc (edge (<[0 := {[1]}]>
                               (<[1 := {[2]}]> (∅ : gmap nat (gset nat)))))
                    0 x.
Proof.
  assert (H : size (graph_ids (<[0 := {[1]}]>
                      (<[1 := {[2]}]> (∅ : gmap nat (gset nat))))) < 4)
    by (vm_compute; lia).
  split; [exact H|].
  exact (proj1 (build_temp_cluster_collects_reachable
                  (<[0 := {[1]}]> (<[1 := {[2]}]> ∅)) ∅ 0 4 H)).
Defined.

(** X4: what the clusters of the threaded revision do guarantee: the members
    of a cluster are connected by paths of similar images, two similar
    images share a cluster, the images that occur in a cluster are those
    that have a similar partner, every cluster has at least two members, and
    every member is an index of the file list. *)
Theorem threaded_clusters_guarantee
    (Mat : Type) (imread_phash : string → option Mat)
    (compare : Mat → Mat → Q) (threshold : Q) (file_list : list string)
    (num_threads : nat) (s1 s2 : list nat) :
  0 < num_threads →
  ∃ cs, Cluster.run Mat imread_phash compare threshold num_threads file_list
          s1 s2 = Returns cs
        ∧ (∀ c x y, c ∈ cs → x ∈ c → y ∈ c →
             connected Mat imread_phash compare threshold file_list x y)
        ∧ (∀ i j, similar Mat imread_phash compare threshold file_list i j →
             ∃ c, c ∈ cs ∧ i ∈ c ∧ j ∈ c)
        ∧ (∀ x, (∃ c, c ∈ cs ∧ x ∈ c)
                ↔ ∃ y, similar Mat imread_phash compare threshold file_list
                         x y)
        ∧ (∀ c, c ∈ cs → 2 ≤ size c)
        ∧ (∀ c x, c ∈ cs → x ∈ c → x < length file_list).
Proof. apply threaded_clusters_facts. Qed.

Lemma threaded_clusters_guarantee_witness :
  0 < 2
  ∧ ∃ cs, Cluster.run N (Hamming.imread_phash Hamming.chain) Hamming.compare
            1 2 Hamming.files [1] [0; 1] = Returns cs
          ∧ ∀ c x y, c ∈ cs → x ∈ c → y ∈ c →
              connected N (Hamming.imread_phash Hamming.chain)
                Hamming.compare 1 Hamming.files x y.
Proof.
  assert (H : 0 < 2) by lia. split; [exact H|].
  destruct (threaded_clusters_guarantee N
              (Hamming.imread_phash Hamming.chain) Hamming.compare 1
              Hamming.files 2 [1] [0; 1] H) as (cs & Hcs & Hconn & _).
  exists cs. split; [exact Hcs|exact Hconn].
Defined.

(** X5: the standard output of a run of the threaded revision that gets
    as far as the file list: with -l one line per cluster, every name
    followed by a tab, and nothing else; without -l the three progress lines
    and then every cluster under its heading, one name per line.  The line
    "ok1" of the branch for an empty neighbour set is never written, and the
    clusters are the same with and without -l. *)
Theorem threaded_stdout_format
    (Mat : Type) (imread_phash : string → option Mat)
    (compare : Mat → Mat → Q) (stod : string → option Q) (fs : filesystem)
    (opts : list (ascii * string)) (o : Cluster.options)
    (stdin file_list : list string) (hc : nat) (s1 s2 : list nat) :
  Cluster.check_arguments Cluster.no_options opts = Some o →
  Cluster.flag_directory o = true →
  Cluster.file_list_of fs o stdin = Some file_list →
  ∃ printed,
    Cluster.main Mat imread_phash compare stod (Cluster.flag_threshold o)
      (Cluster.string_threshold o) hc file_list s1 s2 = Returns printed
    ∧ Cluster.main_stdout Mat imread_phash compare stod fs opts stdin hc s1 s2
      = Returns
          ((if Cluster.one_line o then []
            else ["Filelist created, " +:+ pretty (length file_list)
                    +:+ " files.";
                  "Finished hash calculations.";
                  "Adjacency lists created."])
           ++ Cluster.cluster_lines (Cluster.one_line o) printed)
    ∧ Cluster.cluster_lines true printed
      = (λ names, foldr (λ name line, name +:+ tab +:+ line) "" names)
          <$> printed.
Proof.
  intros Ho Hd Hfl.
  destruct (threaded_main_stdout Mat imread_phash compare stod fs opts o
              stdin file_list hc s1 s2 Ho Hd Hfl) as (printed & Hp & Hout).
  exists printed. split_and!; [done..|]. apply cluster_lines_one_line.
Qed.

Lemma threaded_stdout_format_witness :
  Cluster.check_arguments Cluster.no_options
    [("l"%char, ""); ("d"%char, "-"); ("t"%char, "1")]
  = Some (Cluster.Options false true true true "1" "-")
  ∧ Cluster.flag_directory (Cluster.Options false true true true "1" "-")
    = true
  ∧ Cluster.file_list_of Hamming.folder
      (Cluster.Options false true true true "1" "-") Hamming.files
    = Some Hamming.files
  ∧ ∃ printed,
      Cluster.main N (Hamming.imread_phash Hamming.chain) Hamming.compare
        Hamming.stod true "1" 2 Hamming.files [1] [0] = Returns printed
      ∧ Cluster.main_stdout N (Hamming.imread_phash Hamming.chain)
          Hamming.compare Hamming.stod Hamming.folder
          [("l"%char, ""); ("d"%char, "-"); ("t"%char, "1")] Hamming.files 2
          [1] [0]
        = Returns ([] ++ Cluster.cluster_lines true printed).
Proof.
  assert (H1 : Cluster.check_arguments Cluster.no_options
                 [("l"%char, ""); ("d"%char, "-"); ("t"%char, "1")]
               = Some (Cluster.Options false true true true "1" "-"))
    by reflexivity.
  assert (H2 : Cluster.flag_directory
                 (Cluster.Options false true true true "1" "-") = true)
    by reflexivity.
  assert (H3 : Cluster.file_list_of Hamming.folder
                 (Cluster.Options false true true true "1" "-") Hamming.files
               = Some Hamming.files) by reflexivity.
  split; [exact H1|]. split; [exact H2|]. split; [exact H3|].
  destruct (threaded_stdout_format N (Hamming.imread_phash Hamming.chain)
              Hamming.compare Hamming.stod Hamming.folder
              [("l"%char, ""); ("d"%char, "-"); ("t"%char, "1")]
              (Cluster.Options false true true true "1" "-")
              Hamming.files Hamming.files 2 [1] [0] H1 H2 H3)
    as (printed & Hp & Hout & _).
  exists printed. split; [exact Hp|exact Hout].
Defined.

(** X6: what the threaded revision prints for a cluster: the names of its
    members in ascending order of their ids, read with [file_list.at], which
    never throws; at least two names, each the name of a file that decodes,
    and, when the list was read from a directory, of a regular file. *)
Theorem threaded_printed_names
    (Mat : Type) (imread_phash : string → option Mat)
    (compare : Mat → Mat → Q) (stod : string → option Q) (fs : filesystem)
    (o : Cluster.options) (stdin file_list : list string) (hc : nat)
    (s1 s2 : list nat) :
  Cluster.file_list_of fs o stdin = Some file_list →
  ∃ cs printed,
    Cluster.run Mat imread_phash compare
      (Cluster.threshold_of stod (Cluster.flag_threshold o)
         (Cluster.string_threshold o))
      (num_threads_of hc) file_list s1 s2 = Returns cs
    ∧ Cluster.main Mat imread_phash compare stod (Cluster.flag_threshold o)
        (Cluster.string_threshold o) hc file_list s1 s2 = Returns printed
    ∧ Forall2 (λ c names,
                 Forall2 (λ j name, file_list !! j = Some name) (asc c) names)
        cs printed
    ∧ Forall (λ names,
                2 ≤ length names
                ∧ Forall (λ name,
                            is_Some (imread_phash name)
                            ∧ (Cluster.string_directory o ≠ "-" →
                               is_regular_file fs name)) names)
        printed.
Proof.
  intros Hfl.
  destruct (threaded_clusters_facts Mat imread_phash compare
              (Cluster.threshold_of stod (Cluster.flag_threshold o)
                 (Cluster.string_threshold o))
              file_list (num_threads_of hc) s1 s2 (num_threads_of_pos hc))
    as (cs & Hcs & _ & _ & Hin & Hsize & _).
  destruct (threaded_main_Returns Mat imread_phash compare stod
              (Cluster.flag_threshold o) (Cluster.string_threshold o) hc
              file_list s1 s2) as [printed Hp].
  exists cs, printed. split_and!; [done..| |].
  - unfold Cluster.main in Hp. rewrite Hcs in Hp. simpl in Hp.
    by apply print_clusters_Forall2.
  - unfold Cluster.main in Hp. rewrite Hcs in Hp. simpl in Hp.
    apply print_clusters_Forall2 in Hp.
    assert (Hreg : Cluster.string_directory o ≠ "-" →
                   ∀ name, name ∈ file_list → is_regular_file fs name).
    { intros Hne name Hname. unfold Cluster.file_list_of in Hfl.
      rewrite decide_False in Hfl by done.
      destruct (negb _); [done|]. simplify_eq.
      unfold load_filenames in Hname.
      destruct (Cluster.be_recursive o);
        by apply list_elem_of_filter in Hname as [? _]. }
    eapply Forall2_Forall_r; [exact Hp|].
    apply Forall_forall. intros c Hc names Hnames. split.
    + apply Forall2_length in Hnames. rewrite <-Hnames, asc_Permutation.
      by apply Hsize.
    + eapply Forall2_Forall_r; [exact Hnames|].
      apply Forall_forall. intros j Hj%elem_of_asc name Hname. split.
      * destruct (proj1 (Hin j)) as [y Hy]; [eauto|].
        apply similar_valid in Hy. unfold fingerprint in Hy.
        by rewrite Hname in Hy.
      * intros Hne. apply Hreg; [done|]. by eapply list_elem_of_lookup_2.
Qed.

Lemma threaded_printed_names_witness :
  Cluster.file_list_of Hamming.folder
    (Cluster.Options false false true true "1" "dir") []
  = Some ["a"; "d"; "c"]
  ∧ ∃ cs printed,
      Cluster.run N (Hamming.imread_phash Hamming.chain) Hamming.compare
        (Cluster.threshold_of Hamming.stod true "1") (num_threads_of 0)
        ["a"; "d"; "c"] [] [] = Returns cs
      ∧ Cluster.main N (Hamming.imread_phash Hamming.chain) Hamming.compare
          Hamming.stod true "1" 0 ["a"; "d"; "c"] [] [] = Returns printed
      ∧ Forall2 (λ c names,
                   Forall2 (λ j name, ["a"; "d"; "c"] !! j = Some name)
                     (asc c) names)
          cs printed.
Proof.
  assert (H : Cluster.file_list_of Hamming.folder
                (Cluster.Options false false true true "1" "dir") []
              = Some ["a"; "d"; "c"]) by reflexivity.
  split; [exact H|].
  destruct (threaded_printed_names N (Hamming.imread_phash Hamming.chain)
              Hamming.compare Hamming.stod Hamming.folder
              (Cluster.Options false false true true "1" "dir") []
              ["a"; "d"; "c"] 0 [] [] H)
    as (cs & printed & Hcs & Hp & Hnames & _).
  exists cs, printed. split; [exact Hcs|]. split; [exact Hp|exact Hnames].
Defined.

(** X7: raising the threshold never separates a similar pair in the
    threaded revision and never drops an image from its output: two images
    that are similar at the lower threshold share a cluster at the higher
    one, and every image in a cluster at the lower threshold is in a cluster
    at the higher one. *)
Theorem threaded_raising_threshold_keeps_pairs
    (Mat : Type) (imread_phash : string → option Mat)
    (compare : Mat → Mat → Q) (t1 t2 : Q) (file_list : list string)
    (num_threads : nat) (s1 s2 s1' s2' : list nat) :
  0 < num_threads → (t1 <= t2)%Q →
  ∃ cs1 cs2,
    Cluster.run Mat imread_phash compare t1 num_threads file_list s1 s2
    = Returns cs1
    ∧ Cluster.run Mat imread_phash compare t2 num_threads file_list s1' s2'
      = Returns cs2
    ∧ (∀ i j, similar Mat imread_phash compare t1 file_list i j →
         ∃ c2, c2 ∈ cs2 ∧ i ∈ c2 ∧ j ∈ c2)
    ∧ (∀ c1 x, c1 ∈ cs1 → x ∈ c1 → ∃ c2, c2 ∈ cs2 ∧ x ∈ c2).
Proof.
  intros Hn Ht.
  destruct (threaded_clusters_facts Mat imread_phash compare t1 file_list
              num_threads s1 s2 Hn) as (cs1 & Hcs1 & _ & _ & H3 & _).
  destruct (threaded_clusters_facts Mat imread_phash compare t2 file_list
              num_threads s1' s2' Hn) as (cs2 & Hcs2 & _ & K2 & _).
  exists cs1, cs2. split_and!; try done.
  - intros i j Hij. apply K2. by eapply similar_mono.
  - intros c1 x Hc1 Hx. destruct (proj1 (H3 x)) as [y Hy]; [eauto|].
    destruct (K2 x y) as (c2 & ? & ? & _); [by eapply similar_mono|eauto].
Qed.

Lemma threaded_raising_threshold_keeps_pairs_witness :
  0 < 2 ∧ (2 <= 3)%Q
  ∧ ∃ cs1 cs2,
      Cluster.run N (Hamming.imread_phash Hamming.fork) Hamming.compare 2 2
        Hamming.files [1] [0; 1] = Returns cs1
      ∧ Cluster.run N (Hamming.imread_phash Hamming.fork) Hamming.compare 3 2
          Hamming.files [0] [1; 0] = Returns cs2
      ∧ (∀ i j, similar N (Hamming.imread_phash Hamming.fork) Hamming.compare
                  2 Hamming.files i j →
           ∃ c2, c2 ∈ cs2 ∧ i ∈ c2 ∧ j ∈ c2)
      ∧ (∀ c1 x, c1 ∈ cs1 → x ∈ c1 → ∃ c2, c2 ∈ cs2 ∧ x ∈ c2).
Proof.
  assert (H : 0 < 2) by lia.
  assert (Ht : (2 <= 3)%Q) by (vm_compute; discriminate).
  split; [exact H|]. split; [exact Ht|].
  exact (threaded_raising_threshold_keeps_pairs N
           (Hamming.imread_phash Hamming.fork) Hamming.compare 2 3
           Hamming.files 2 [1] [0; 1] [0] [1; 0] H Ht).
Defined.

(** ** The sequential revision *)

(** X8: [build_temp_cluster] of the sequential revision reads
    [image_similarities.at(start)]: started on the set that holds [start]
    alone it throws exactly when the stored edges reach, from [start], an id
    that is not a key of the map ([start] itself included); when every id
    reached is a key it returns what the threaded revision returns. *)
Theorem seq_build_temp_cluster_throws_iff
    (g : gmap nat (gset nat)) (start fuel : nat) :
  size (graph_ids g) < fuel →
  (ClusterSeq.build_temp_cluster fuel g {[start]} start = Throws
   ↔ ∃ x, rtc (edge g) start x ∧ g !! x = None)
  ∧ ((∀ x, rtc (edge g) start x → is_Some (g !! x)) →
     ClusterSeq.build_temp_cluster fuel g {[start]} start
     = Cluster.build_temp_cluster fuel g {[start]} start).
Proof.
  intros Hfuel.
  assert (Hle : size (graph_ids g ∖ {[start]}) < fuel).
  { assert (size (graph_ids g ∖ {[start]}) ≤ size (graph_ids g)); [|lia].
    apply subseteq_size. set_solver. }
  pose proof (build_temp_cluster_agree fuel g {[start]} start) as Hagree.
  pose proof (build_temp_cluster_seq_fuel fuel g {[start]} start Hle) as Hnf.
  destruct (build_temp_cluster_reach g start) as (r & Hr & Hreach).
  apply (build_temp_cluster_fuel_mono _ fuel) in Hr; [|lia].
  assert (Hiff : ClusterSeq.build_temp_cluster fuel g {[start]} start = Throws
                 ↔ ∃ x, rtc (edge g) start x ∧ g !! x = None).
  { split; [apply build_temp_cluster_seq_Throws|].
    intros (x & Hx & Hnone).
    destruct (ClusterSeq.build_temp_cluster fuel g {[start]} start)
      as [r'| |] eqn:E; [|done..].
    apply build_temp_cluster_seq_keys in E as Hkeys.
    destruct Hkeys as [Hstart Hkeys]. simpl in Hagree.
    assert (r' = r) as -> by congruence.
    destruct (decide (x = start)) as [->|Hne].
    - rewrite Hnone in Hstart. by destruct Hstart.
    - destruct (Hkeys x) as [? Hsome]; [by apply Hreach|set_solver|].
      congruence. }
  split; [done|]. intros Hall.
  destruct (ClusterSeq.build_temp_cluster fuel g {[start]} start)
    as [r'| |] eqn:E; [done| |done].
  destruct (proj1 Hiff eq_refl) as (x & Hx & Hnone).
  destruct (Hall x Hx). congruence.
Qed.

Lemma seq_build_temp_cluster_throws_iff_witness :
  size (graph_ids (<[0 := {[1]}]> (∅ : gmap nat (gset nat)))) < 3
  ∧ (ClusterSeq.build_temp_cluster 3 (<[0 := {[1]}]> ∅) {[0]} 0 = Throws
     ↔ ∃ x, rtc (edge (<[0 := {[1]}]> (∅ : gmap nat (gset nat)))) 0 x
            ∧ (<[0 := {[1]}]> (∅ : gmap nat (gset nat))) !! x = None).
Proof.
  assert (H : size (graph_ids (<[0 := {[1]}]> (∅ : gmap nat (gset nat)))) < 3)
    by (vm_compute; lia).
  split; [exact H|].
  exact (proj1 (seq_build_temp_cluster_throws_iff (<[0 := {[1]}]> ∅) 0 3 H)).
Defined.

(** X9: in the sequential revision the clusters and the unique images
    partition the images that decode: the clusters are pairwise disjoint and
    disjoint from the unique images, together they hold exactly the ids
    with a valid fingerprint, the unique images are those without a similar
    partner, and every cluster has at least two members. *)
Theorem seq_clusters_partition_images
    (Mat : Type) (imread_phash : string → option Mat)
    (compare : Mat → Mat → Q) (threshold : Q) (file_list : list string)
    (num_threads : nat) (sched : list nat) :
  0 < num_threads →
  ∃ st, ClusterSeq.run Mat imread_phash compare threshold num_threads
          file_list sched = Returns st
        ∧ pairwise_disjoint st.1
        ∧ (∀ c, c ∈ st.1 → c ## st.2)
        ∧ (∀ x, (x ∈ st.2 ∨ ∃ c, c ∈ st.1 ∧ x ∈ c)
                ↔ is_Some (fingerprint Mat imread_phash file_list x))
        ∧ (∀ x, x ∈ st.2
                ↔ is_Some (fingerprint Mat imread_phash file_list x)
                  ∧ ∀ y, ¬ similar Mat imread_phash compare threshold
                             file_list x y)
        ∧ (∀ c, c ∈ st.1 → 2 ≤ size c).
Proof.
  intros Hn.
  destruct (seq_clusters_partition Mat imread_phash compare threshold
              file_list num_threads sched Hn) as (st & Hst & H1 & H2 & H3).
  destruct (seq_unique_and_sizes Mat imread_phash compare threshold
              file_list num_threads sched Hn) as (st' & Hst' & H4 & H5).
  assert (st' = st) as -> by congruence.
  exists st. by split_and!.
Qed.

Lemma seq_clusters_partition_images_witness :
  0 < 2
  ∧ ∃ st, ClusterSeq.run N (Hamming.imread_phash Hamming.chain)
            Hamming.compare 1 2 Hamming.files [1] = Returns st
          ∧ pairwise_disjoint st.1.
Proof.
  assert (H : 0 < 2) by lia. split; [exact H|].
  destruct (seq_clusters_partition_images N
              (Hamming.imread_phash Hamming.chain) Hamming.compare 1
              Hamming.files 2 [1] H) as (st & Hst & Hd & _).
  exists st. split; [exact Hst|exact Hd].
Defined.

(** X10: in the sequential revision two different images are in one cluster
    exactly when a path of images connects them in which every two
    consecutive images are within the threshold. *)
Theorem seq_clusters_are_components
    (Mat : Type) (imread_phash : string → option Mat)
    (compare : Mat → Mat → Q) (threshold : Q) (file_list : list string)
    (num_threads : nat) (sched : list nat) :
  0 < num_threads →
  ∃ st, ClusterSeq.run Mat imread_phash compare threshold num_threads
          file_list sched = Returns st
        ∧ ∀ x y, x ≠ y →
            ((∃ c, c ∈ st.1 ∧ x ∈ c ∧ y ∈ c)
             ↔ connected Mat imread_phash compare threshold file_list x y).
Proof. apply seq_clusters_connected. Qed.

Lemma seq_clusters_are_components_witness :
  0 < 1
  ∧ ∃ st, ClusterSeq.run N (Hamming.imread_phash Hamming.chain)
            Hamming.compare 1 1 Hamming.files [] = Returns st
          ∧ ∀ x y, x ≠ y →
              ((∃ c, c ∈ st.1 ∧ x ∈ c ∧ y ∈ c)
               ↔ connected N (Hamming.imread_phash Hamming.chain)
                   Hamming.compare 1 Hamming.files x y).
Proof.
  assert (H : 0 < 1) by lia. split; [exact H|].
  exact (seq_clusters_are_components N (Hamming.imread_phash Hamming.chain)
           Hamming.compare 1 Hamming.files 1 [] H).
Defined.

(** X11: in the sequential revision a higher threshold only merges clusters:
    every cluster at the lower threshold lies within a cluster at the higher
    one, and an image that is unique at the higher threshold is unique at
    the lower one. *)
Theorem seq_clusters_refine_with_threshold
    (Mat : Type) (imread_phash : string → option Mat)
    (compare : Mat → Mat → Q) (t1 t2 : Q) (file_list : list string)
    (num_threads : nat) (sched1 sched2 : list nat) :
  0 < num_threads → (t1 <= t2)%Q →
  ∃ st1 st2,
    ClusterSeq.run Mat imread_phash compare t1 num_threads file_list sched1
    = Returns st1
    ∧ ClusterSeq.run Mat imread_phash compare t2 num_threads file_list sched2
      = Returns st2
    ∧ (∀ c, c ∈ st1.1 → ∃ c', c' ∈ st2.1 ∧ c ⊆ c')
    ∧ st2.2 ⊆ st1.2.
Proof.
  intros Hn Ht.
  destruct (seq_unique_and_sizes Mat imread_phash compare t1 file_list
              num_threads sched1 Hn) as (st1 & Hst1 & Hu1 & _).
  destruct (seq_unique_and_sizes Mat imread_phash compare t2 file_list
              num_threads sched2 Hn) as (st2 & Hst2 & Hu2 & _).
  exists st1, st2. split_and!; [done..| |].
  - rewrite (seq_run_indep Mat imread_phash compare t2 file_list num_threads
               num_threads sched2 sched1) in Hst2 by done.
    by apply (seq_clusters_refine Mat imread_phash compare t1 t2 file_list
                num_threads sched1 st1 st2).
  - intros x [Hx Hno]%Hu2. apply Hu1. split; [done|].
    intros y Hy. apply (Hno y). by eapply similar_mono.
Qed.

Lemma seq_clusters_refine_with_threshold_witness :
  0 < 1 ∧ (2 <= 3)%Q
  ∧ ∃ st1 st2,
      ClusterSeq.run N (Hamming.imread_phash Hamming.fork) Hamming.compare 2
        1 Hamming.files [] = Returns st1
      ∧ ClusterSeq.run N (Hamming.imread_phash Hamming.fork) Hamming.compare
          3 1 Hamming.files [] = Returns st2
      ∧ ∀ c, c ∈ st1.1 → ∃ c', c' ∈ st2.1 ∧ c ⊆ c'.
Proof.
  assert (H : 0 < 1) by lia.
  assert (Ht : (2 <= 3)%Q) by (by vm_compute).
  split; [exact H|]. split; [exact Ht|].
  destruct (seq_clusters_refine_with_threshold N
              (Hamming.imread_phash Hamming.fork) Hamming.compare 2 3
              Hamming.files 1 [] [] H Ht)
    as (st1 & st2 & H1 & H2 & Hsub & _).
  exists st1, st2. split; [exact H1|]. split; [exact H2|exact Hsub].
Defined.

(** X12: the standard output of a run of the sequential revision that gets
    as far as the file list: four progress lines, of which the third gives
    the number of image pairs, k (k - 1) / 2 for the k files that decode;
    then every cluster under its heading; then, with -u, the line "unique
    images:" and the unique images.  No [at] and no index throws. *)
Theorem seq_stdout_format
    (Mat : Type) (imread_phash : string → option Mat)
    (compare : Mat → Mat → Q) (stod : string → option Q) (fs : filesystem)
    (opts : list (ascii * string)) (o : ClusterSeq.options)
    (file_list : list string) (hc : nat) (sched : list nat) :
  ClusterSeq.check_arguments ClusterSeq.no_options opts = Some o →
  ClusterSeq.flag_directory o = true →
  ClusterSeq.file_list_of fs o = Some file_list →
  ∃ rep pairs,
    ClusterSeq.main Mat imread_phash compare stod (ClusterSeq.show_unique o)
      (ClusterSeq.flag_threshold o) (ClusterSeq.string_threshold o) hc
      file_list sched = Returns rep
    ∧ 2 * pairs
      = length (filter (λ f, is_Some (imread_phash f)) file_list)
        * (length (filter (λ f, is_Some (imread_phash f)) file_list) - 1)
    ∧ ClusterSeq.main_stdout Mat imread_phash compare stod fs opts hc sched
      = Returns
          (["Filelist created, " +:+ pretty (length file_list) +:+ " files.";
            "Finished hash calculation.";
            "Hash distances calculated, " +:+ pretty pairs
              +:+ " image pairs.";
            "Adjacency lists created."]
           ++ ClusterSeq.cluster_lines (ClusterSeq.clusters rep)
           ++ (if ClusterSeq.show_unique o
               then "unique images:" :: ClusterSeq.unique rep else [])).
Proof. apply seq_main_stdout. Qed.

Lemma seq_stdout_format_witness :
  ClusterSeq.check_arguments ClusterSeq.no_options
    [("u"%char, ""); ("d"%char, "dir"); ("t"%char, "0")]
  = Some (ClusterSeq.Options false true true true "0" "dir")
  ∧ ClusterSeq.flag_directory
      (ClusterSeq.Options false true true true "0" "dir") = true
  ∧ ClusterSeq.file_list_of Hamming.folder
      (ClusterSeq.Options false true true true "0" "dir")
    = Some ["a"; "d"; "c"]
  ∧ ∃ rep pairs,
      ClusterSeq.main N (Hamming.imread_phash Hamming.chain) Hamming.compare
        Hamming.stod true true "0" 2 ["a"; "d"; "c"] [1] = Returns rep
      ∧ 2 * pairs
        = length (filter (λ f, is_Some (Hamming.imread_phash Hamming.chain f))
                    ["a"; "d"; "c"])
          * (length (filter (λ f, is_Some (Hamming.imread_phash
                                             Hamming.chain f))
                       ["a"; "d"; "c"]) - 1).
Proof.
  assert (H1 : ClusterSeq.check_arguments ClusterSeq.no_options
                 [("u"%char, ""); ("d"%char, "dir"); ("t"%char, "0")]
               = Some (ClusterSeq.Options false true true true "0" "dir"))
    by reflexivity.
  assert (H2 : ClusterSeq.flag_directory
                 (ClusterSeq.Options false true true true "0" "dir") = true)
    by reflexivity.
  assert (H3 : ClusterSeq.file_list_of Hamming.folder
                 (ClusterSeq.Options false true true true "0" "dir")
               = Some ["a"; "d"; "c"]) by reflexivity.
  split; [exact H1|]. split; [exact H2|]. split; [exact H3|].
  destruct (seq_stdout_format N (Hamming.imread_phash Hamming.chain)
              Hamming.compare Hamming.stod Hamming.folder
              [("u"%char, ""); ("d"%char, "dir"); ("t"%char, "0")]
              (ClusterSeq.Options false true true true "0" "dir")
              ["a"; "d"; "c"] 2 [1] H1 H2 H3)
    as (rep & pairs & Hrep & Hpairs & _).
  exists rep, pairs. split; [exact Hrep|exact Hpairs].
Defined.

(** X13: [calculate_hash_values] of the sequential revision and of
    img-search: every id is inserted by the worker whose number is the id
    modulo the number of workers, no id is inserted twice, and once the
    workers are joined the map holds the hash of exactly the files that
    decode, whatever the interleaving. *)
Theorem hash_map_filled_once
    (Mat : Type) (imread_phash : string → option Mat)
    (file_list : list string) (num_threads : nat) :
  0 < num_threads →
  (∀ t w i h,
     hash_workers Mat imread_phash file_list num_threads !! t = Some w →
     (i, h) ∈ w → i mod num_threads = t)
  ∧ ∀ tr,
      interleaving (hash_workers Mat imread_phash file_list num_threads) tr →
      NoDup tr.*1
      ∧ (∀ i, foldl (insert_hash Mat) ∅ tr !! i
              = fingerprint Mat imread_phash file_list i)
      ∧ size (foldl (insert_hash Mat) ∅ tr)
        = length (filter (λ f, is_Some (imread_phash f)) file_list).
Proof.
  intros Hn. split.
  - intros t w i h.
    exact (hash_insert_owner Mat imread_phash file_list num_threads t w i h).
  - intros tr Htr. split; [by eapply hash_inserts_once|].
    destruct (interleaving_schedule _ _ Htr) as [sched <-].
    split.
    + intros i. by apply hash_values_of_lookup.
    + by apply hash_values_of_size.
Qed.

Lemma hash_map_filled_once_witness :
  0 < 2
  ∧ ∀ t w i h,
      hash_workers N (Hamming.imread_phash Hamming.chain) Hamming.files 2 !! t
      = Some w →
      (i, h) ∈ w → i mod 2 = t.
Proof.
  assert (H : 0 < 2) by lia. split; [exact H|].
  exact (proj1 (hash_map_filled_once N (Hamming.imread_phash Hamming.chain)
                  Hamming.files 2 H)).
Defined.

(** ** Both revisions *)

(** X14: for one input and one threshold, every cluster of the threaded
    revision lies within a cluster of the sequential revision, and the two
    revisions put the same images into clusters. *)
Theorem threaded_clusters_within_sequential
    (Mat : Type) (imread_phash : string → option Mat)
    (compare : Mat → Mat → Q) (threshold : Q) (file_list : list string)
    (num_threads : nat) (s1 s2 s : list nat) :
  0 < num_threads →
  ∃ cs st,
    Cluster.run Mat imread_phash compare threshold num_threads file_list
      s1 s2 = Returns cs
    ∧ ClusterSeq.run Mat imread_phash compare threshold num_threads
        file_list s = Returns st
    ∧ (∀ c, c ∈ cs → ∃ c', c' ∈ st.1 ∧ c ⊆ c')
    ∧ (∀ x, (∃ c, c ∈ cs ∧ x ∈ c) ↔ (∃ c', c' ∈ st.1 ∧ x ∈ c')).
Proof.
  intros Hn.
  destruct (threaded_clusters_sound_cover Mat imread_phash compare threshold
              file_list num_threads s1 s2 Hn) as (cs & Hcs & H1 & H2 & H3).
  destruct (seq_run_inv Mat imread_phash compare threshold file_list
              num_threads s Hn) as (st & Hst & [K1 K2 K3 K4]).
  destruct (seq_clusters_connected Mat imread_phash compare threshold
              file_list num_threads s Hn) as (st' & Hst' & Hconn).
  assert (st' = st) as -> by congruence.
  set (g := ClusterSeq.image_similarities_of Mat imread_phash compare
              threshold num_threads file_list s) in *.
  assert (Hsame : ∀ x c1 c2, c1 ∈ st.1 → c2 ∈ st.1 → x ∈ c1 → x ∈ c2 →
                             c1 = c2).
  { intros x c1 c2 [a Ha]%list_elem_of_lookup_1 [b Hb]%list_elem_of_lookup_1
      Hx1 Hx2.
    destruct (decide (a = b)) as [->|Hab]; [congruence|].
    specialize (K4 a b c1 c2 Hab Ha Hb).
    by destruct (proj1 (elem_of_disjoint c1 c2) K4 x). }
  assert (Hin : ∀ x, (∃ y, similar Mat imread_phash compare threshold
                             file_list x y)
                     ↔ ∃ c', c' ∈ st.1 ∧ x ∈ c').
  { intros x. split.
    - intros [y Hy].
      destruct (proj2 (Hconn x y (seq_similar_ne Mat imread_phash compare
                                   threshold file_list x y Hy)))
        as (c' & ? & ? & _); [by apply rtc_once|eauto].
    - intros (c' & (k & _ & Hadj & Hc')%K2 & Hx).
      assert (Hx' : adj g x ≠ ∅).
      { apply (reach_adj_nonempty g) with k; [|by apply Hc'|done].
        apply seq_graph_sym. exact Hn. }
      apply adj_nonempty_edge in Hx' as [j Hj]. exists j.
      by apply (seq_graph_adj Mat imread_phash compare threshold file_list
                  num_threads s Hn). }
  exists cs, st. split_and!; try done.
  - intros c Hc.
    destruct (image_clusters_of_edges
                (Cluster.image_similarities_of Mat imread_phash compare
                   threshold num_threads file_list s1 s2))
      as (cs' & Hcs' & Hedges).
    unfold Cluster.run in Hcs. assert (cs' = cs) as -> by congruence.
    rewrite Forall_forall in Hedges.
    destruct (Hedges c Hc) as (i & _ & _ & Hi & _).
    destruct (proj1 (Hin i)) as (c' & Hc' & Hic'); [apply H3; eauto|].
    exists c'. split; [done|]. intros z Hz.
    destruct (decide (i = z)) as [->|Hne]; [done|].
    destruct (proj2 (Hconn i z Hne)) as (c'' & Hc'' & Hic'' & Hzc'').
    { by eapply H1. }
    by rewrite (Hsame i c' c'' Hc' Hc'' Hic' Hic'').
  - intros x. by rewrite H3, Hin.
Qed.

Lemma threaded_clusters_within_sequential_witness :
  0 < 2
  ∧ ∃ cs st,
      Cluster.run N (Hamming.imread_phash Hamming.chain) Hamming.compare 1 2
        Hamming.files [1] [0; 1] = Returns cs
      ∧ ClusterSeq.run N (Hamming.imread_phash Hamming.chain) Hamming.compare
          1 2 Hamming.files [0] = Returns st
      ∧ ∀ c, c ∈ cs → ∃ c', c' ∈ st.1 ∧ c ⊆ c'.
Proof.
  assert (H : 0 < 2) by lia. split; [exact H|].
  destruct (threaded_clusters_within_sequential N
              (Hamming.imread_phash Hamming.chain) Hamming.compare 1
              Hamming.files 2 [1] [0; 1] [0] H)
    as (cs & st & Hcs & Hst & Hsub & _).
  exists cs, st. split; [exact Hcs|]. split; [exact Hst|exact Hsub].
Defined.

(** X15: the merge loop that both revisions share changes at most one
    cluster: the first cluster that has an element in common with
    [temp_cluster] absorbs it and the loop stops, the clusters before it and
    after it are left as they are, also those after it that overlap; when no
    cluster overlaps, [temp_cluster] is appended.  No member is lost. *)
Theorem merge_changes_one_cluster
    (temp_cluster : gset nat) (image_clusters : list (gset nat)) :
  ⋃ (default (image_clusters ++ [temp_cluster])
       (unify temp_cluster image_clusters))
  = ⋃ image_clusters ∪ temp_cluster
  ∧ (unify temp_cluster image_clusters = None
     ↔ Forall (λ c, c ## temp_cluster) image_clusters)
  ∧ (∀ merged, unify temp_cluster image_clusters = Some merged →
       ∃ k c, image_clusters !! k = Some c ∧ ¬ c ## temp_cluster
              ∧ (∀ k' c', k' < k → image_clusters !! k' = Some c' →
                          c' ## temp_cluster)
              ∧ merged = <[k := c ∪ temp_cluster]> image_clusters).
Proof.
  pose proof (unify_spec temp_cluster image_clusters) as Hspec.
  split_and!.
  - destruct (unify temp_cluster image_clusters) as [merged|]; simpl.
    + destruct Hspec as (k & c & Hk & _ & _ & ->).
      by apply union_list_insert.
    + rewrite union_list_app_L. simpl. set_solver.
  - apply unify_None.
  - intros merged Hm. by rewrite Hm in Hspec.
Qed.

(** X16: the three ways in which img-similarity-cluster stops before it reads
    an image, in both revisions.  An option -h anywhere on the command line
    prints the usage and nothing else, whatever the other options.  Without
    -h and without -d the only output is the line
    "Error: missing argument -d".  When the argument of the last -d does not
    name an existing directory, the only output is the line
    "Error: Couldn't open" followed by the path between double quotes; in
    the threaded revision the argument "-" is excepted, it stands for the
    standard input. *)
Theorem early_exits
    (Mat : Type) (imread_phash : string → option Mat)
    (compare : Mat → Mat → Q) (stod : string → option Q) (fs : filesystem)
    (opts : list (ascii * string)) (stdin : list string) (hc : nat)
    (s1 s2 : list nat) :
  ("h"%char ∈ opts.*1 →
   Cluster.main_stdout Mat imread_phash compare stod fs opts stdin hc s1 s2
   = Returns Cluster.print_help
   ∧ ClusterSeq.main_stdout Mat imread_phash compare stod fs opts hc s1
     = Returns ClusterSeq.print_help)
  ∧ ("h"%char ∉ opts.*1 → "d"%char ∉ opts.*1 →
     Cluster.main_stdout Mat imread_phash compare stod fs opts stdin hc s1 s2
     = Returns ["Error: missing argument -d"]
     ∧ ClusterSeq.main_stdout Mat imread_phash compare stod fs opts hc s1
       = Returns ["Error: missing argument -d"])
  ∧ (∀ dir, "h"%char ∉ opts.*1 → last (optargs "d" opts) = Some dir →
       fs_exists fs dir && fs_is_directory fs dir = false →
       (dir ≠ "-" →
        Cluster.main_stdout Mat imread_phash compare stod fs opts stdin hc
          s1 s2
        = Returns ["Error: Couldn't open " +:+ quoted dir])
       ∧ ClusterSeq.main_stdout Mat imread_phash compare stod fs opts hc s1
         = Returns ["Error: Couldn't open " +:+ quoted dir]).
Proof.
  unfold Cluster.main_stdout, ClusterSeq.main_stdout.
  rewrite threaded_check_arguments, seq_check_arguments.
  split_and!.
  - intros Hh. by rewrite !decide_True by done.
  - intros Hh Hd. rewrite !decide_False by done. simpl.
    by rewrite bool_decide_eq_false_2 by done.
  - intros dir Hh Hdir Hfs. rewrite !decide_False by done. simpl.
    assert (Hd : "d"%char ∈ opts.*1).
    { apply last_Some_elem_of, elem_of_optargs in Hdir.
      apply list_elem_of_fmap. by exists ("d"%char, dir). }
    rewrite bool_decide_eq_true_2 by done. simpl.
    unfold Cluster.file_list_of, ClusterSeq.file_list_of. simpl.
    rewrite Hdir. simpl. rewrite Hfs. simpl.
    split; [|done]. intros Hne. by rewrite decide_False by done.
Qed.

Lemma early_exits_witness :
  "h"%char ∈ [("r"%char, ""); ("h"%char, ""); ("d"%char, "dir")].*1
  ∧ Cluster.main_stdout N (Hamming.imread_phash Hamming.chain)
      Hamming.compare Hamming.stod Hamming.folder
      [("r"%char, ""); ("h"%char, ""); ("d"%char, "dir")] [] 2 [] []
    = Returns Cluster.print_help.
Proof.
  assert (H : "h"%char ∈ [("r"%char, ""); ("h"%char, "");
                          ("d"%char, "dir")].*1)
    by (apply (bool_decide_unpack _); by vm_compute).
  split; [exact H|].
  exact (proj1 (proj1 (early_exits N (Hamming.imread_phash Hamming.chain)
                         Hamming.compare Hamming.stod Hamming.folder
                         [("r"%char, ""); ("h"%char, ""); ("d"%char, "dir")]
                         [] 2 [] []) H)).
Defined.

(** X17: what the loop over the options leaves behind, in both revisions:
    unless -h occurs, a flag is set exactly when its letter occurs, the
    directory and the threshold are the arguments of the last -d and the
    last -t (the empty string when there is none), the order of the options
    is otherwise irrelevant, and whatever else [getopt] returns is
    skipped. *)
Theorem options_accumulate (opts : list (ascii * string)) :
  Cluster.check_arguments Cluster.no_options opts
  = (if decide ("h"%char ∈ opts.*1) then None
     else Some (Cluster.Options
                  (bool_decide ("r"%char ∈ opts.*1))
                  (bool_decide ("l"%char ∈ opts.*1))
                  (bool_decide ("d"%char ∈ opts.*1))
                  (bool_decide ("t"%char ∈ opts.*1))
                  (default "" (last (optargs "t" opts)))
                  (default "" (last (optargs "d" opts)))))
  ∧ ClusterSeq.check_arguments ClusterSeq.no_options opts
    = (if decide ("h"%char ∈ opts.*1) then None
       else Some (ClusterSeq.Options
                    (bool_decide ("r"%char ∈ opts.*1))
                    (bool_decide ("u"%char ∈ opts.*1))
                    (bool_decide ("d"%char ∈ opts.*1))
                    (bool_decide ("t"%char ∈ opts.*1))
                    (default "" (last (optargs "t" opts)))
                    (default "" (last (optargs "d" opts))))).
Proof.
  split.
  - by rewrite threaded_check_arguments.
  - by rewrite seq_check_arguments.
Qed.

(** X18: when no two images are similar, neither revision prints a cluster,
    and the sequential revision lists every image that decodes as unique;
    this is so in particular when at most one file of the list decodes (an
    empty list, a single image). *)
Theorem no_similar_pair_no_cluster
    (Mat : Type) (imread_phash : string → option Mat)
    (compare : Mat → Mat → Q) (threshold : Q) (file_list : list string)
    (num_threads : nat) (s1 s2 : list nat) :
  0 < num_threads →
  ((∀ i j, ¬ similar Mat imread_phash compare threshold file_list i j) →
   Cluster.run Mat imread_phash compare threshold num_threads file_list
     s1 s2 = Returns []
   ∧ ∃ unique_images,
       ClusterSeq.run Mat imread_phash compare threshold num_threads
         file_list s1 = Returns ([], unique_images)
       ∧ ∀ x, x ∈ unique_images
              ↔ is_Some (fingerprint Mat imread_phash file_list x))
  ∧ (length (filter (λ f, is_Some (imread_phash f)) file_list) ≤ 1 →
     ∀ i j, ¬ similar Mat imread_phash compare threshold file_list i j).
Proof.
  intros Hn. split; [|intros Hfew i j; by apply few_images_not_similar].
  intros Hno. split.
  - destruct (threaded_clusters_facts Mat imread_phash compare threshold
                file_list num_threads s1 s2 Hn)
      as (cs & Hcs & _ & _ & Hin & Hsize & _).
    destruct cs as [|c cs]; [done|]. exfalso.
    assert (Hc : 2 ≤ size c) by (apply Hsize; left).
    destruct (size_pos_elem_of c) as [x Hx]; [lia|].
    destruct (proj1 (Hin x)) as [y Hy]; [exists c; split; [left|done]|].
    by eapply Hno.
  - destruct (seq_run_inv Mat imread_phash compare threshold file_list
                num_threads s1 Hn) as (st & Hst & [K1 K2 _ _]).
    destruct st as [[|c cs] u]; simpl in *.
    + exists u. split; [done|]. intros x. rewrite K1.
      split; [by intros [? _]|]. intros ?. split; [done|].
      apply set_eq. intros y. split; [|by intros ?%not_elem_of_empty].
      intros Hy. apply (seq_graph_adj Mat imread_phash compare threshold
                          file_list num_threads s1 Hn) in Hy.
      by destruct (Hno x y).
    + exfalso. destruct (K2 c) as (k & _ & Hadj & _); [left|].
      apply adj_nonempty_edge in Hadj as [j Hj].
      apply (seq_graph_adj Mat imread_phash compare threshold file_list
               num_threads s1 Hn) in Hj.
      by destruct (Hno k j).
Qed.

Lemma no_similar_pair_no_cluster_witness :
  0 < 2
  ∧ Cluster.run N (Hamming.imread_phash Hamming.chain) Hamming.compare 1 2
      ["x"; "a"; "y"] [0] [1] = Returns [].
Proof.
  assert (H : 0 < 2) by lia. split; [exact H|].
  assert (Hfew : length (filter (λ f, is_Some (Hamming.imread_phash
                                                Hamming.chain f))
                           ["x"; "a"; "y"]) ≤ 1) by (vm_compute; lia).
  destruct (no_similar_pair_no_cluster N (Hamming.imread_phash Hamming.chain)
              Hamming.compare 1 ["x"; "a"; "y"] 2 [0] [1] H)
    as [Hnone Hno].
  exact (proj1 (Hnone (Hno Hfew))).
Defined.

(** X19: on an input whose similarity is transitive, as for identical
    copies, the threaded revision is exact: its clusters do not overlap, two
    different images share a cluster exactly when a path of similar images
    connects them, and the clusters are those of the sequential revision. *)
Theorem threaded_exact_on_transitive_input
    (Mat : Type) (imread_phash : string → option Mat)
    (compare : Mat → Mat → Q) (threshold : Q) (file_list : list string)
    (num_threads : nat) (s1 s2 s : list nat) :
  0 < num_threads →
  transitive Mat imread_phash compare threshold file_list = true →
  ∃ cs st,
    Cluster.run Mat imread_phash compare threshold num_threads file_list
      s1 s2 = Returns cs
    ∧ ClusterSeq.run Mat imread_phash compare threshold num_threads
        file_list s = Returns st
    ∧ pairwise_disjoint cs
    ∧ (∀ x y, x ≠ y →
         ((∃ c, c ∈ cs ∧ x ∈ c ∧ y ∈ c)
          ↔ connected Mat imread_phash compare threshold file_list x y))
    ∧ cs ≡ₚ st.1.
Proof.
  intros Hn HT.
  destruct (threaded_transitive_components Mat imread_phash compare threshold
              file_list num_threads s1 s2 Hn HT) as (cs & Hcs & Hcomp & Hdis).
  destruct (threaded_clusters_facts Mat imread_phash compare threshold
              file_list num_threads s1 s2 Hn)
    as (cs' & Hcs' & _ & Hsim & _ & Hsize & _).
  assert (cs' = cs) as -> by congruence.
  destruct (seq_run_inv Mat imread_phash compare threshold file_list
              num_threads s Hn) as (st & Hst & [K1 K2 K3 K4]).
  set (g := ClusterSeq.image_similarities_of Mat imread_phash compare
              threshold num_threads file_list s) in *.
  assert (Hreach : ∀ x y, rtc (edge g) x y
                   ↔ connected Mat imread_phash compare threshold file_list
                       x y).
  { intros x y. by apply seq_graph_reach. }
  assert (Hsymm : ∀ x y,
            connected Mat imread_phash compare threshold file_list x y →
            connected Mat imread_phash compare threshold file_list y x).
  { intros x y Hxy%Hreach. apply Hreach. apply reach_sym; [|done].
    intros a b. by apply seq_graph_sym. }
  assert (Hne : ∀ c, c ∈ cs → c ≠ ∅).
  { intros c Hc%Hsize ->. rewrite size_empty in Hc. lia. }
  assert (Hseq : ∀ c x y, c ∈ st.1 → x ∈ c →
            (y ∈ c ↔ connected Mat imread_phash compare threshold file_list
                       x y)).
  { intros c x y (k & _ & _ & Hk)%K2 Hx. rewrite (Hk y), !Hreach.
    apply Hk, Hreach in Hx. split; intros Hy.
    - etrans; [by apply Hsymm|done].
    - etrans; done. }
  exists cs, st. split_and!; try done.
  - intros x y Hxy. split.
    + intros (c & Hc & Hx & Hy). by apply (Hcomp c x y Hc Hx).
    + intros Hconn.
      destruct (rtc_inv _ _ Hconn) as [?|(z & Hxz & _)]; [done|].
      destruct (Hsim x z Hxz) as (c & Hc & Hx & _).
      exists c. split_and!; try done. by apply (Hcomp c x y Hc Hx).
  - apply NoDup_Permutation.
    + by apply pairwise_disjoint_NoDup.
    + apply pairwise_disjoint_NoDup; [done|].
      intros c (k & _ & _ & Hk)%K2 ->.
      by apply (not_elem_of_empty (C := gset nat) k), Hk.
    + intros c. split.
      * intros Hc. destruct (set_choose_L c (Hne c Hc)) as [x Hx].
        pose proof (Hsize c Hc) as Hsz.
        destruct (size_two_other c x Hsz Hx) as (y & Hy & Hxy).
        apply (Hcomp c x y Hc Hx) in Hy.
        apply rtc_inv in Hy as [?|(z & Hxz & _)]; [done|].
        destruct (K3 x) as (c' & Hc' & Hx').
        { eapply similar_valid, Hxz. }
        { apply (edge_adj_nonempty g x z).
          by apply (seq_graph_adj Mat imread_phash compare threshold
                      file_list num_threads s Hn). }
        replace c with c'; [done|].
        apply set_eq. intros w.
        by rewrite (Hseq c' x w Hc' Hx'), (Hcomp c x w Hc Hx).
      * intros Hc'. destruct (K2 c Hc') as (k & _ & Hadj & Hk).
        apply adj_nonempty_edge in Hadj as [j Hj].
        apply (seq_graph_adj Mat imread_phash compare threshold file_list
                 num_threads s Hn) in Hj.
        destruct (Hsim k j Hj) as (c0 & Hc0 & Hk0 & _).
        replace c with c0; [done|].
        apply set_eq. intros w.
        rewrite (Hcomp c0 k w Hc0 Hk0), (Hk w). by rewrite Hreach.
Qed.

Lemma threaded_exact_on_transitive_input_witness :
  0 < 2
  ∧ transitive N (Hamming.imread_phash Hamming.copies) Hamming.compare 0
      Hamming.files = true
  ∧ ∃ cs st,
      Cluster.run N (Hamming.imread_phash Hamming.copies) Hamming.compare 0 2
        Hamming.files [0; 1; 0] [1; 1; 0] = Returns cs
      ∧ ClusterSeq.run N (Hamming.imread_phash Hamming.copies)
          Hamming.compare 0 2 Hamming.files [1; 0] = Returns st
      ∧ pairwise_disjoint cs
      ∧ (∀ x y, x ≠ y →
           ((∃ c, c ∈ cs ∧ x ∈ c ∧ y ∈ c)
            ↔ connected N (Hamming.imread_phash Hamming.copies)
                Hamming.compare 0 Hamming.files x y))
      ∧ cs ≡ₚ st.1.
Proof.
  assert (H : 0 < 2) by lia.
  assert (HT : transitive N (Hamming.imread_phash Hamming.copies)
                 Hamming.compare 0 Hamming.files = true)
    by (vm_compute; reflexivity).
  split; [exact H|]. split; [exact HT|].
  exact (threaded_exact_on_transitive_input N
           (Hamming.imread_phash Hamming.copies) Hamming.compare 0
           Hamming.files 2 [0; 1; 0] [1; 1; 0] [1; 0] H HT).
Defined.

(** ** img-search *)

(** X20: a higher threshold only adds lines to the output of img-search:
    what is printed at the lower threshold is printed at the higher one, in
    the same order, and all of it are lines of the standard input in their
    order. *)
Theorem search_threshold_monotone
    (Mat : Type) (imread_phash : string → option Mat)
    (compare : Mat → Mat → Q) (stod : string → option Q)
    (prog s1 s2 : string) (t1 t2 : Q) (needles stdin : list string)
    (hc1 hc2 : nat) (sched1 sched2 : list nat) :
  stod s1 = Some t1 → stod s2 = Some t2 → (t1 <= t2)%Q →
  ∃ out1 out2,
    ImgSearch.main Mat imread_phash compare stod
      (prog :: "-t" :: s1 :: needles) stdin hc1 sched1 = Returns out1
    ∧ ImgSearch.main Mat imread_phash compare stod
        (prog :: "-t" :: s2 :: needles) stdin hc2 sched2 = Returns out2
    ∧ out1 `sublist_of` out2
    ∧ out2 `sublist_of` stdin.
Proof.
  intros Hs1 Hs2 Ht.
  assert (Hargv : ∀ s0, ¬ (length (prog :: "-t" :: s0 :: needles) = 1
            ∨ (1 ≤ length (prog :: "-t" :: s0 :: needles)
               ∧ (prog :: "-t" :: s0 :: needles) !! 1 = Some "-h"))).
  { intros s0 [?|[_ ?]]; simplify_eq/=. }
  assert (Hthr : ∀ s0, ImgSearch.threshold_of stod
                         (prog :: "-t" :: s0 :: needles)
                       = (default 2%Q (stod s0), 3)).
  { intros s0. unfold ImgSearch.threshold_of.
    rewrite decide_True by (simpl; split; [lia|done]).
    simpl. by destruct (stod s0). }
  eexists _, _. split; [by apply search_main_query|].
  split; [by apply search_main_query|].
  rewrite !Hthr, Hs1, Hs2. simpl. split.
  - apply filter_sublist_impl. intros p _.
    by apply (matches_mono Mat imread_phash compare).
  - apply sublist_filter.
Qed.

Lemma search_threshold_monotone_witness :
  Hamming.stod "0" = Some (inject_Z 0) ∧ Hamming.stod "1" = Some (inject_Z 1)
  ∧ (inject_Z 0 <= inject_Z 1)%Q
  ∧ ∃ out1 out2,
      ImgSearch.main N (Hamming.imread_phash Hamming.chain) Hamming.compare
        Hamming.stod ["img-search"; "-t"; "0"; "d"] Hamming.files 2 [1]
      = Returns out1
      ∧ ImgSearch.main N (Hamming.imread_phash Hamming.chain) Hamming.compare
          Hamming.stod ["img-search"; "-t"; "1"; "d"] Hamming.files 3 []
        = Returns out2
      ∧ out1 `sublist_of` out2.
Proof.
  assert (H0 : Hamming.stod "0" = Some (inject_Z 0)) by reflexivity.
  assert (H1 : Hamming.stod "1" = Some (inject_Z 1)) by reflexivity.
  assert (Ht : (inject_Z 0 <= inject_Z 1)%Q) by (by vm_compute).
  split; [exact H0|]. split; [exact H1|]. split; [exact Ht|].
  destruct (search_threshold_monotone N (Hamming.imread_phash Hamming.chain)
              Hamming.compare Hamming.stod "img-search" "0" "1"
              (inject_Z 0) (inject_Z 1) ["d"] Hamming.files 2 3 [1] []
              H0 H1 Ht) as (out1 & out2 & Ho1 & Ho2 & Hsub & _).
  exists out1, out2. split; [exact Ho1|]. split; [exact Ho2|exact Hsub].
Defined.


(** ** view-similar *)

(** X22: view-similar never reads outside the files of the current line:
    whatever the lines of the standard input and whatever keys are pressed,
    the index of the current image stays within the list, so that no [at]
    throws. *)
Theorem view_similar_index_in_range
    (Mat : Type) (imread : string → Mat) (cols rows : Mat → Z)
    (stdin : list string) (keys : list Z) :
  (ViewSimilar.main Mat imread cols rows stdin keys).2
  ≠ ViewSimilar.OutOfRange
  ∧ ∀ files current_image key,
      current_image < length files →
      (ViewSimilar.key_loop Mat cols rows files (imread <$> files)
         current_image key keys).2 ≠ inl ViewSimilar.OutOfRange.
Proof.
  split.
  - unfold ViewSimilar.main. simpl. apply view_lines_in_range.
  - intros files current_image key Hcur.
    apply key_loop_in_range; [by rewrite length_fmap|done].
Qed.

(** X23: view-similar writes a line only when the space key is pressed, at
    most one line per press, and every line it writes is one of the
    tab-separated fields of a line of its standard input. *)
Theorem view_similar_prints_listed_files
    (Mat : Type) (imread : string → Mat) (cols rows : Mat → Z)
    (stdin : list string) (keys : list Z) :
  Forall (λ name, ∃ line, line ∈ stdin ∧ name ∈ ViewSimilar.split_line line)
    (ViewSimilar.stdout Mat
       (ViewSimilar.main Mat imread cols rows stdin keys).1)
  ∧ length (ViewSimilar.stdout Mat
              (ViewSimilar.main Mat imread cols rows stdin keys).1)
    ≤ length (filter (λ k, k = 32%Z) keys).
Proof. unfold ViewSimilar.main. simpl. apply view_lines_stdout. Qed.



(** X25: the text that view-similar puts into the status bar is composed
    before the key is handled: in every turn of the loop over the keys, the
    image shown is the one the key moved to, and the status bar describes
    the image that the turn started from. *)
Theorem status_bar_describes_previous_image
    (Mat : Type) (cols rows : Mat → Z) (files : list string)
    (images : list Mat) (current_image : nat) (key : Z) (keys : list Z) :
  length images = length files → current_image < length files →
  ∃ path,
    Forall (λ i, i < length files) path
    ∧ ViewSimilar.displayed Mat
        (ViewSimilar.key_loop Mat cols rows files images current_image key
           keys).1
      = flat_map (ViewSimilar.turn_display Mat cols rows files images)
          (zip (current_image :: path) path).
Proof. apply key_loop_displayed. Qed.

Lemma status_bar_describes_previous_image_witness :
  length [10; 20] = length ["a"; "b"] ∧ 0 < length ["a"; "b"]
  ∧ ∃ path,
      Forall (λ i, i < length ["a"; "b"]) path
      ∧ ViewSimilar.displayed nat
          (ViewSimilar.key_loop nat Z.of_nat Z.of_nat ["a"; "b"] [10; 20]
             0 1 [83; 32; 81]%Z).1
        = flat_map (ViewSimilar.turn_display nat Z.of_nat Z.of_nat
                      ["a"; "b"] [10; 20])
            (zip (0 :: path) path).
Proof.
  assert (H1 : length [10; 20] = length ["a"; "b"]) by reflexivity.
  assert (H2 : 0 < length ["a"; "b"]) by (simpl; lia).
  split; [exact H1|]. split; [exact H2|].
  exact (status_bar_describes_previous_image nat Z.of_nat Z.of_nat
           ["a"; "b"] [10; 20] 0 1 [83; 32; 81]%Z H1 H2).
Defined.

(** X26: Esc and q end view-similar at once: whatever keys follow one of
    them, the run shows and writes the same and ends in the same way. *)
Theorem view_similar_quit_is_final
    (Mat : Type) (imread : string → Mat) (cols rows : Mat → Z)
    (stdin : list string) (keys rest : list Z) (q : Z) :
  (q = 27 ∨ q = 113)%Z →
  ViewSimilar.main Mat imread cols rows stdin (keys ++ q :: rest)
  = ViewSimilar.main Mat imread cols rows stdin (keys ++ [q]).
Proof.
  intros Hq. unfold ViewSimilar.main.
  by rewrite (view_lines_quit Mat imread cols rows q rest stdin Hq keys).
Qed.

Lemma view_similar_quit_is_final_witness :
  (113 = 27 ∨ 113 = 113)%Z
  ∧ ViewSimilar.main nat String.length Z.of_nat Z.of_nat
      ["a" +:+ tab +:+ "bc"; "d"] ([83; 32] ++ 113 :: [81; 32])%Z
    = ViewSimilar.main nat String.length Z.of_nat Z.of_nat
        ["a" +:+ tab +:+ "bc"; "d"] ([83; 32] ++ [113])%Z.
Proof.
  assert (H : (113 = 27 ∨ 113 = 113)%Z) by (right; reflexivity).
  split; [exact H|].
  exact (view_similar_quit_is_final nat String.length Z.of_nat Z.of_nat
           ["a" +:+ tab +:+ "bc"; "d"] [83; 32]%Z [81; 32]%Z 113%Z H).
Defined.
